(** * The type checkers of TAPL in TypeScript

    A shallow embedding of the checkers of the repository: the type
    relations of [src/poly.ts] (substitution and binding-map equality for
    generics) and [src/rec.ts] (equi-recursive equality with a seen-pair
    list), the subtyping relation that the specification describes for
    [src/sub.ts], and the functions [typecheck] of [src/arith.ts],
    [src/recFunc.ts], [src/rec.ts], [src/poly.ts] and [src/unnamed/part_001]
    with the environments they work on.

    JavaScript objects used as dictionaries ([TypeVarMap],
    [TypeVarNameMap], [TypeEnv]) are finite maps from strings; arrays are
    lists; a thrown exception and a computation that never returns are
    explicit outcomes of a small result monad. *)

From stdpp Require Import base option list strings gmap.
From Stdlib Require Import Lia.

Open Scope string_scope.
Open Scope list_scope.

(** ** Outcomes of a call *)

(** A call either returns a value, throws, or does not return at all.
    Functions whose recursion is not structural take a [fuel] argument
    bounding the depth of the call stack; [Diverge] is the answer when the
    bound is reached. *)
Inductive result (A : Type) : Type :=
| Ret (a : A)
| Throw (msg : string)
| Diverge.

Arguments Ret {A} a.
Arguments Throw {A} msg.
Arguments Diverge {A}.

Definition result_bind {A B : Type} (k : A -> result B) (r : result A) : result B :=
  match r with
  | Ret a => k a
  | Throw msg => Throw msg
  | Diverge => Diverge
  end.

#[global] Instance result_mbind : MBind result := @result_bind.
#[global] Instance result_mret : MRet result := @Ret.

(** [for (const x of l) { if (!f(x)) return false; } return true;] *)
Fixpoint forEach {A : Type} (f : A -> result bool) (l : list A) : result bool :=
  match l with
  | [] => Ret true
  | x :: l' =>
      match f x with
      | Ret true => forEach f l'
      | Ret false => Ret false
      | Throw msg => Throw msg
      | Diverge => Diverge
      end
  end.

(** [for (let i = i0; i < i0 + l.length; i++) { if (!f(i, l[i - i0])) return false; } return true;] *)
Fixpoint forIndex {A : Type} (f : nat -> A -> result bool) (i : nat) (l : list A)
  : result bool :=
  match l with
  | [] => Ret true
  | x :: l' =>
      match f i x with
      | Ret true => forIndex f (S i) l'
      | Ret false => Ret false
      | Throw msg => Throw msg
      | Diverge => Diverge
      end
  end.

(** [for (let i = i0; i < i0 + l.length; i++) { f(i, l[i - i0]); }], for a
    body that falls through or throws. *)
Fixpoint forIndexDo {A : Type} (f : nat -> A -> result unit) (i : nat) (l : list A)
  : result unit :=
  match l with
  | [] => Ret tt
  | x :: l' =>
      match f i x with
      | Ret _ => forIndexDo f (S i) l'
      | Throw msg => Throw msg
      | Diverge => Diverge
      end
  end.

(** [l.map(f)] for a callback that may throw: the elements are visited from
    left to right and the first exception ends the call. *)
Fixpoint mapResult {A B : Type} (f : A -> result B) (l : list A) : result (list B) :=
  match l with
  | [] => Ret []
  | x :: l' =>
      match f x with
      | Ret y =>
          match mapResult f l' with
          | Ret ys => Ret (y :: ys)
          | Throw msg => Throw msg
          | Diverge => Diverge
          end
      | Throw msg => Throw msg
      | Diverge => Diverge
      end
  end.

(** [for (let i = i0; i < i0 + l.length; i++) { f(i, l[i - i0]); }], for a
    body that reads and updates an object [s] and may throw. *)
Fixpoint forIndexState {A St : Type} (f : nat -> A -> St -> result St) (i : nat)
    (l : list A) (s : St) : result St :=
  match l with
  | [] => Ret s
  | x :: l' =>
      match f i x s with
      | Ret s' => forIndexState f (S i) l' s'
      | Throw msg => Throw msg
      | Diverge => Diverge
      end
  end.

(** [for (const x of l) { s = f(s, x); }], for a body that may throw. *)
Fixpoint foldResult {A St : Type} (f : St -> A -> result St) (s : St) (l : list A)
  : result St :=
  match l with
  | [] => Ret s
  | x :: l' =>
      match f s x with
      | Ret s' => foldResult f s' l'
      | Throw msg => Throw msg
      | Diverge => Diverge
      end
  end.

(** [error(msg, node)] of tiny-ts-parser has the result type [never] (what
    follows a bare call is type-checked as unreachable, as in the [typeApp]
    case of poly.ts): it throws an [Error] made of [msg], preceded by the
    position of [node] in the source text when the node records one.  The
    terms here record none.  A bare [error(...)] and [throw error(...)] so
    have the same outcome. *)
Definition error {A : Type} (msg : string) : result A := Throw msg.

(** The call returns the value [a] for some bound on the stack depth. *)
Definition returns {A : Type} (f : nat -> result A) (a : A) : Prop :=
  exists fuel, f fuel = Ret a.

(** The call returns the value [a] whenever the bound on the stack depth is
    large enough. *)
Definition settles {A : Type} (f : nat -> result A) (a : A) : Prop :=
  exists fuel, forall n, fuel <= n -> f n = Ret a.

(** The call throws for some bound on the stack depth. *)
Definition throws {A : Type} (f : nat -> result A) : Prop :=
  exists fuel msg, f fuel = Throw msg.

(** The call never comes back: every bound on the stack depth is reached. *)
Definition diverges {A : Type} (f : nat -> result A) : Prop :=
  forall fuel, f fuel = Diverge.

(** ** Dictionaries *)

(** An object used as a dictionary ([TypeVarNameMap], [TypeVarMap],
    [TypeEnv]) is embedded as the finite map of its own properties.  In
    JavaScript every such object also inherits the properties of
    [Object.prototype]: for these names [name in obj] holds and [obj[name]]
    is defined (a built-in function, or the prototype) although the object
    has no entry, and the assignment [obj["__proto__"] = v] need not create
    an entry.  The embedding follows the code on all other names; the
    properties below that depend on what the look-up of a name without an
    entry gives, or on the entry an assignment creates, are stated for
    names outside this list. *)
Definition inheritedNames : list string :=
  ["constructor"; "hasOwnProperty"; "isPrototypeOf"; "propertyIsEnumerable";
   "toLocaleString"; "toString"; "valueOf"; "__proto__";
   "__defineGetter__"; "__defineSetter__"; "__lookupGetter__"; "__lookupSetter__"].

(** ** [src/rec.ts]: objects, functions and equi-recursive types *)

Module Rec.

(** [Type] of rec.ts.  [Param] and [PropertyType] are both
    [{ name: string; type: Type }], here a pair. *)
#[local] Unset Elimination Schemes.
Inductive Ty : Type :=
| Boolean
| Number
| Func (params : list (string * Ty)) (retType : Ty)
| Object (props : list (string * Ty))
| Rec (name : string) (type : Ty)
| TypeVar (name : string).
#[local] Set Elimination Schemes.

Abbreviation Param := (string * Ty)%type.
Abbreviation PropertyType := (string * Ty)%type.

Definition boolean : Ty := Boolean.
Definition number : Ty := Number.
Definition param (name : string) (type : Ty) : Param := (name, type).
Definition fn (params : list Param) (retType : Ty) : Ty := Func params retType.
Definition object (props : list PropertyType) : Ty := Object props.
Definition rec (name : string) (recType : Ty) : Ty := Rec name recType.
Definition prop (name : string) (type : Ty) : PropertyType := (name, type).
Definition typeVar (name : string) : Ty := TypeVar name.

(** [type.tag === "Rec"] *)
Definition isRec (type : Ty) : bool :=
  match type with Rec _ _ => true | _ => false end.

(** [type1.tag === type2.tag] *)
Definition sameTag (type1 type2 : Ty) : bool :=
  match type1, type2 with
  | Boolean, Boolean | Number, Number | Func _ _, Func _ _
  | Object _, Object _ | Rec _ _, Rec _ _ | TypeVar _, TypeVar _ => true
  | _, _ => false
  end.

Fixpoint expandType (type : Ty) (typeVarName : string) (repType : Ty) : Ty :=
  match type with
  | Boolean | Number => type
  | Func params retType =>
      fn ((fun p : Param => (p.1, expandType p.2 typeVarName repType)) <$> params)
         (expandType retType typeVarName repType)
  | Object props =>
      object ((fun p : PropertyType => (p.1, expandType p.2 typeVarName repType)) <$> props)
  | Rec name body =>
      if String.eqb name typeVarName then type
      else rec name (expandType body typeVarName repType)
  | TypeVar name =>
      if String.eqb name typeVarName then repType else type
  end.

(** [unwrapRecType] recurses on the unfolded type, which is not a subterm:
    the recursion is bounded by [fuel]. *)
Fixpoint unwrapRecType (fuel : nat) (type : Ty) : result Ty :=
  match type with
  | Rec name body =>
      match fuel with
      | 0 => Diverge
      | S fuel' => unwrapRecType fuel' (expandType body name type)
      end
  | _ => Ret type
  end.

(** [Record<string, string>], read and extended as a dictionary.  Variable
    names are taken not to be names that every JavaScript object inherits
    (such as ["constructor"]), for which [typeVarMap[name]] is defined
    without an entry. *)
Abbreviation TypeVarNameMap := (gmap string string).

(** [props.find((prop) => prop.name === name)] *)
Definition findProp (name : string) (props : list PropertyType) : option PropertyType :=
  find (fun p : PropertyType => String.eqb p.1 name) props.

Fixpoint typeEqNaive (type1 type2 : Ty) (typeVarMap : TypeVarNameMap) {struct type2}
  : result bool :=
  match type2 with
  | Boolean | Number => Ret (sameTag type1 type2)
  | Func params2 retType2 =>
      match type1 with
      | Func params1 retType1 =>
          if negb (Nat.eqb (length params1) (length params2)) then Ret false
          else
            match
              forIndex (fun i (p2 : Param) =>
                          match params1 !! i with
                          | Some p1 => typeEqNaive p1.2 p2.2 typeVarMap
                          | None => Throw "TypeError: type1.params[i] is undefined"
                          end) 0 params2
            with
            | Ret true => typeEqNaive retType1 retType2 typeVarMap
            | r => r
            end
      | _ => Ret false
      end
  | Object props2 =>
      match type1 with
      | Object props1 =>
          if negb (Nat.eqb (length props1) (length props2)) then Ret false
          else
            forEach (fun prop2 : PropertyType =>
                       match findProp prop2.1 props1 with
                       | None => Ret false
                       | Some prop1 => typeEqNaive prop1.2 prop2.2 typeVarMap
                       end) props2
      | _ => Ret false
      end
  | Rec name2 body2 =>
      match type1 with
      | Rec name1 body1 =>
          typeEqNaive body1 body2 (<[name1 := name2]> typeVarMap)
      | _ => Ret false
      end
  | TypeVar name2 =>
      match type1 with
      | TypeVar name1 =>
          match typeVarMap !! name1 with
          | None => Throw ("unknown type variable: " +:+ name1)
          | Some bound => Ret (String.eqb bound name2)
          end
      | _ => Ret false
      end
  end.

Abbreviation SeenTypePair := (Ty * Ty)%type.

Fixpoint hasSeen (type1 type2 : Ty) (seen : list SeenTypePair) : result bool :=
  match seen with
  | [] => Ret false
  | (seenType1, seenType2) :: seen' =>
      match typeEqNaive seenType1 type1 ∅ with
      | Ret true =>
          match typeEqNaive seenType2 type2 ∅ with
          | Ret true => Ret true
          | Ret false => hasSeen type1 type2 seen'
          | r => r
          end
      | Ret false => hasSeen type1 type2 seen'
      | r => r
      end
  end.

Fixpoint typeEqSub (fuel : nat) (type1 type2 : Ty) (seen : list SeenTypePair)
  : result bool :=
  match fuel with
  | 0 => Diverge
  | S fuel =>
      match hasSeen type1 type2 seen with
      | Ret true => Ret true
      | Ret false =>
          if isRec type1 then
            u ← unwrapRecType fuel type1;
            typeEqSub fuel u type2 (seen ++ [(type1, type2)])
          else if isRec type2 then
            u ← unwrapRecType fuel type2;
            typeEqSub fuel type1 u (seen ++ [(type1, type2)])
          else
            match type2 with
            | Boolean | Number => Ret (sameTag type1 type2)
            | Func params2 retType2 =>
                match type1 with
                | Func params1 retType1 =>
                    if negb (Nat.eqb (length params1) (length params2)) then Ret false
                    else
                      match
                        forIndex (fun i (p2 : Param) =>
                                    match params1 !! i with
                                    | Some p1 => typeEqSub fuel p1.2 p2.2 seen
                                    | None => Throw "TypeError: type1.params[i] is undefined"
                                    end) 0 params2
                      with
                      | Ret true => typeEqSub fuel retType1 retType2 seen
                      | r => r
                      end
                | _ => Ret false
                end
            | Object props2 =>
                match type1 with
                | Object props1 =>
                    if negb (Nat.eqb (length props1) (length props2)) then Ret false
                    else
                      forEach (fun prop2 : PropertyType =>
                                 match findProp prop2.1 props1 with
                                 | None => Ret false
                                 | Some prop1 => typeEqSub fuel prop1.2 prop2.2 seen
                                 end) props2
                | _ => Ret false
                end
            | TypeVar _ => Throw "unreachable"
            | Rec _ _ => Throw "Invalid term type: [object Object]"
            end
      | r => r
      end
  end.

Definition typeEq (fuel : nat) (type1 type2 : Ty) : result bool :=
  typeEqSub fuel type1 type2 [].

(** [Record<string, Type>], the types of the variables in scope. *)
Abbreviation TypeEnv := (gmap string Ty).

(** [TypeEnv.clone]: [{ ...typeEnv }], a copy; a map is a value here. *)
Definition clone (typeEnv : TypeEnv) : TypeEnv := typeEnv.

(** [TypeEnv.define] *)
Definition define (typeEnv : TypeEnv) (name : string) (type : Ty) : TypeEnv :=
  let newTypeEnv := clone typeEnv in
  <[name := type]> newTypeEnv.

(** [Term] of rec.ts; a constructor [TmX] is the variant with the tag ["x"].
    The checker does not read the literal [n] of a ["number"] term. *)
#[local] Unset Elimination Schemes.
Inductive Term : Type :=
| TmTrue
| TmFalse
| TmIf (cond thn els : Term)
| TmNumber (n : Z)
| TmAdd (left right : Term)
| TmVar (name : string)
| TmFunc (params : list Param) (retType : option Ty) (body : Term)
| TmCall (func : Term) (args : list Term)
| TmSeq (body rest : Term)
| TmConst (name : string) (init rest : Term)
| TmObjectNew (props : list (string * Term))
| TmObjectGet (obj : Term) (propName : string)
| TmRecFunc (funcName : string) (params : list Param) (retType : Ty) (body rest : Term).
#[local] Set Elimination Schemes.

Abbreviation PropertyTerm := (string * Term)%type.

(** [typecheck] recurses on the term; [fuel] bounds the depth of the calls
    of [unwrapRecType] and [typeEq] it makes.  The output of
    [console.error] in the ["objectGet"] case is not part of the model. *)
Fixpoint typecheck (fuel : nat) (t : Term) (typeEnv : TypeEnv) {struct t} : result Ty :=
  match t with
  | TmTrue | TmFalse => Ret Boolean
  | TmNumber _ => Ret Number
  | TmAdd leftTerm rightTerm =>
      leftType ← typecheck fuel leftTerm typeEnv;
      leftUnwrapped ← unwrapRecType fuel leftType;
      if negb (sameTag leftUnwrapped Number) then error "number expected"
      else
        rightType ← typecheck fuel rightTerm typeEnv;
        rightUnwrapped ← unwrapRecType fuel rightType;
        if negb (sameTag rightUnwrapped Number) then error "number expected"
        else Ret Number
  | TmIf cond thn els =>
      _cond ← typecheck fuel cond typeEnv;
      then_ ← typecheck fuel thn typeEnv;
      elseTerm ← typecheck fuel els typeEnv;
      thenUnwrapped ← unwrapRecType fuel then_;
      elseUnwrapped ← unwrapRecType fuel elseTerm;
      if negb (sameTag thenUnwrapped elseUnwrapped)
      then error "branches must have the same type"
      else Ret then_
  | TmVar name =>
      match typeEnv !! name with
      | None => error ("Unknown variable: " +:+ name)
      | Some type => Ret type
      end
  | TmFunc params declared body =>
      let newTypeEnv :=
        foldl (fun (newTypeEnv : TypeEnv) (param : Param) =>
                 <[param.1 := param.2]> newTypeEnv) typeEnv params in
      retType ← typecheck fuel body newTypeEnv;
      match declared with
      | Some declaredRetType =>
          same ← typeEq fuel declaredRetType retType;
          if negb same then error "wrong return type"
          else Ret (fn params retType)
      | None => Ret (fn params retType)
      end
  | TmCall func args =>
      calleeType ← typecheck fuel func typeEnv;
      funcType ← unwrapRecType fuel calleeType;
      match funcType with
      | Func params retType =>
          if negb (Nat.eqb (length args) (length params))
          then error "wrong number of arguments"
          else
            match
              forIndexDo (fun i (arg : Term) =>
                            argType ← typecheck fuel arg typeEnv;
                            match params !! i with
                            | Some p =>
                                same ← typeEq fuel argType p.2;
                                if negb same then error "argument type mismatch"
                                else Ret tt
                            | None => Throw "TypeError: funcType.params[i] is undefined"
                            end) 0 args
            with
            | Ret _ => Ret retType
            | Throw msg => Throw msg
            | Diverge => Diverge
            end
      | _ => error "function expected"
      end
  | TmSeq body rest =>
      _body ← typecheck fuel body typeEnv;
      typecheck fuel rest typeEnv
  | TmConst name init rest =>
      initType ← typecheck fuel init typeEnv;
      let newTypeEnv := define typeEnv name initType in
      typecheck fuel rest newTypeEnv
  | TmObjectNew props =>
      props' ← mapResult (fun p : PropertyTerm =>
                            type ← typecheck fuel p.2 typeEnv;
                            Ret (p.1, type)) props;
      Ret (object props')
  | TmObjectGet obj propName =>
      receiverType ← typecheck fuel obj typeEnv;
      objType ← unwrapRecType fuel receiverType;
      match objType with
      | Object props =>
          match findProp propName props with
          | None => error ("Unknown property: " +:+ propName)
          | Some p => Ret p.2
          end
      | _ => error "object expected"
      end
  | TmRecFunc funcName params retType body rest =>
      let newTypeEnvInnerFunc :=
        foldl (fun (newTypeEnv : TypeEnv) (param : Param) =>
                 define newTypeEnv param.1 param.2)
              (define (clone typeEnv) funcName (fn params retType)) params in
      bodyType ← typecheck fuel body newTypeEnvInnerFunc;
      same ← typeEq fuel retType bodyType;
      if negb same then error "wrong return type"
      else
        let recFunctionType := fn params retType in
        let newTypeEnvOuterFunc := define (clone typeEnv) funcName recFunctionType in
        typecheck fuel rest newTypeEnvOuterFunc
  end.

End Rec.

(** ** [src/poly.ts]: generics *)

Module Poly.

#[local] Unset Elimination Schemes.
Inductive Ty : Type :=
| Boolean
| Number
| Func (params : list (string * Ty)) (retType : Ty)
| TypeAbs (typeParams : list string) (type : Ty)
| TypeVar (name : string).
#[local] Set Elimination Schemes.

Abbreviation Param := (string * Ty)%type.

Definition boolean : Ty := Boolean.
Definition number : Ty := Number.
Definition param (name : string) (type : Ty) : Param := (name, type).
Definition fn (params : list Param) (retType : Ty) : Ty := Func params retType.
Definition typeAbs (typeParamNames : list string) (type : Ty) : Ty :=
  TypeAbs typeParamNames type.
Definition typeVar (name : string) : Ty := TypeVar name.

(** [type1.tag === type2.tag] *)
Definition sameTag (type1 type2 : Ty) : bool :=
  match type1, type2 with
  | Boolean, Boolean | Number, Number | Func _ _, Func _ _
  | TypeAbs _ _, TypeAbs _ _ | TypeVar _, TypeVar _ => true
  | _, _ => false
  end.

Fixpoint substitute (targetType : Ty) (typeVarName : string) (concreteType : Ty) : Ty :=
  match targetType with
  | Boolean | Number => targetType
  | Func params retType =>
      fn ((fun p : Param => (p.1, substitute p.2 typeVarName concreteType)) <$> params)
         (substitute retType typeVarName concreteType)
  | TypeAbs typeParams body =>
      typeAbs typeParams (substitute body typeVarName concreteType)
  | TypeVar name =>
      if String.eqb name typeVarName then concreteType else targetType
  end.

Abbreviation TypeVarMap := (gmap string string).

(** [for (i ...) newTypeVarMap[typeParams1[i]] = typeParams2[i]], run on two
    lists of the same length. *)
Fixpoint bindTypeParams (typeVarMap : TypeVarMap) (typeParams1 typeParams2 : list string)
  : TypeVarMap :=
  match typeParams1, typeParams2 with
  | a :: typeParams1', b :: typeParams2' =>
      bindTypeParams (<[a := b]> typeVarMap) typeParams1' typeParams2'
  | _, _ => typeVarMap
  end.

Fixpoint typeEqRec (type1 type2 : Ty) (typeVarMap : TypeVarMap) {struct type2}
  : result bool :=
  match type2 with
  | Boolean | Number => Ret (sameTag type1 type2)
  | Func params2 retType2 =>
      match type1 with
      | Func params1 retType1 =>
          if negb (Nat.eqb (length params1) (length params2)) then Ret false
          else
            match
              forIndex (fun i (p2 : Param) =>
                          match params1 !! i with
                          | Some p1 => typeEqRec p1.2 p2.2 typeVarMap
                          | None => Throw "TypeError: type1.params[i] is undefined"
                          end) 0 params2
            with
            | Ret true => typeEqRec retType1 retType2 typeVarMap
            | r => r
            end
      | _ => Ret false
      end
  | TypeAbs typeParams2 body2 =>
      match type1 with
      | TypeAbs typeParams1 body1 =>
          if negb (Nat.eqb (length typeParams1) (length typeParams2)) then Ret false
          else typeEqRec body1 body2 (bindTypeParams typeVarMap typeParams1 typeParams2)
      | _ => Ret false
      end
  | TypeVar name2 =>
      match type1 with
      | TypeVar name1 =>
          match typeVarMap !! name1 with
          | None => Throw ("unknown type variable: " +:+ name1 +:+ "}")
          | Some _ => Ret true
          end
      | _ => Ret false
      end
  end.

(** [typeVars.reduce((m, v) => { m[v] = v; return m; }, {})] *)
Definition identityMap (typeVars : list string) : TypeVarMap :=
  foldl (fun (typeVarMap : TypeVarMap) typeVar => <[typeVar := typeVar]> typeVarMap)
        ∅ typeVars.

Definition typeEq (type1 type2 : Ty) (typeVars : list string) : result bool :=
  typeEqRec type1 type2 (identityMap typeVars).

(** [Record<string, Type>], the types of the variables in scope. *)
Abbreviation TypeEnv := (gmap string Ty).

(** [TypeEnv.clone]: [{ ...typeEnv }], a copy; a map is a value here. *)
Definition clone (typeEnv : TypeEnv) : TypeEnv := typeEnv.

(** [TypeEnv.define] *)
Definition define (typeEnv : TypeEnv) (name : string) (type : Ty) : TypeEnv :=
  let newTypeEnv := clone typeEnv in
  <[name := type]> newTypeEnv.

(** [Term] of poly.ts; a constructor [TmX] is the variant with the tag ["x"].
    The checker does not read the literal [n] of a ["number"] term. *)
#[local] Unset Elimination Schemes.
Inductive Term : Type :=
| TmTrue
| TmFalse
| TmIf (cond thn els : Term)
| TmNumber (n : Z)
| TmAdd (left right : Term)
| TmVar (name : string)
| TmFunc (params : list Param) (body : Term)
| TmCall (func : Term) (args : list Term)
| TmSeq (body rest : Term)
| TmConst (name : string) (init rest : Term)
| TmTypeAbs (typeParams : list string) (body : Term)
| TmTypeApp (typeAbs : Term) (typeArgs : list Ty).
#[local] Set Elimination Schemes.

(** In the ["typeApp"] case the two tests that call [error] leave
    [bodyType] a [TypeAbs] with as many parameters as there are type
    arguments, so that [bodyType.typeParams[i]] and [t.typeArgs[i]] of the
    [reduce] are the elements of the two lists at the same position. *)
Fixpoint typecheck (t : Term) (typeEnv : TypeEnv) (typeVarNames : list string) {struct t}
  : result Ty :=
  match t with
  | TmTrue | TmFalse => Ret Boolean
  | TmNumber _ => Ret Number
  | TmAdd leftTerm rightTerm =>
      leftType ← typecheck leftTerm typeEnv typeVarNames;
      if negb (sameTag leftType Number) then error "number expected"
      else
        rightType ← typecheck rightTerm typeEnv typeVarNames;
        if negb (sameTag rightType Number) then error "number expected"
        else Ret Number
  | TmIf cond thn els =>
      _cond ← typecheck cond typeEnv typeVarNames;
      then_ ← typecheck thn typeEnv typeVarNames;
      elseTerm ← typecheck els typeEnv typeVarNames;
      if negb (sameTag then_ elseTerm) then error "branches must have the same type"
      else Ret then_
  | TmVar name =>
      match typeEnv !! name with
      | None => error ("Unknown variable: " +:+ name)
      | Some type => Ret type
      end
  | TmFunc params body =>
      let newTypeEnv :=
        foldl (fun (newTypeEnv : TypeEnv) (param : Param) =>
                 <[param.1 := param.2]> newTypeEnv) typeEnv params in
      retType ← typecheck body newTypeEnv typeVarNames;
      Ret (Func params retType)
  | TmCall func args =>
      funcType ← typecheck func typeEnv typeVarNames;
      match funcType with
      | Func params retType =>
          if negb (Nat.eqb (length args) (length params))
          then error "wrong number of arguments"
          else
            match
              forIndexDo (fun i (arg : Term) =>
                            argType ← typecheck arg typeEnv typeVarNames;
                            match params !! i with
                            | Some p =>
                                same ← typeEq argType p.2 typeVarNames;
                                if negb same then error "argument type mismatch"
                                else Ret tt
                            | None => Throw "TypeError: funcType.params[i] is undefined"
                            end) 0 args
            with
            | Ret _ => Ret retType
            | Throw msg => Throw msg
            | Diverge => Diverge
            end
      | _ => error "function expected"
      end
  | TmSeq body rest =>
      _body ← typecheck body typeEnv typeVarNames;
      typecheck rest typeEnv typeVarNames
  | TmConst name init rest =>
      initType ← typecheck init typeEnv typeVarNames;
      let newTypeEnv := define typeEnv name initType in
      typecheck rest newTypeEnv typeVarNames
  | TmTypeAbs typeParams body =>
      let newTypeVarNames := typeVarNames ++ typeParams in
      bodyType ← typecheck body typeEnv newTypeVarNames;
      Ret (typeAbs typeParams bodyType)
  | TmTypeApp typeAbsTerm typeArgs =>
      bodyType ← typecheck typeAbsTerm typeEnv typeVarNames;
      match bodyType with
      | TypeAbs typeParams type =>
          if negb (Nat.eqb (length typeArgs) (length typeParams))
          then error "wrong number of type arguments"
          else
            Ret (foldl (fun (substitutedType : Ty) (pa : string * Ty) =>
                          substitute substitutedType pa.1 pa.2)
                       type (zip typeParams typeArgs))
      | _ => error "type abstraction expected"
      end
  end.

End Poly.

(** ** Subtyping (Operation C of the specification) *)

Module Sub.
Import Rec.

(** Modelled from the spec: [src/sub.ts], whose [subtype] function
    sub.test.ts imports, is absent.  Operation C is "defined in terms of B
    but relaxing two cases": the seen-pair check and the unfolding of
    [Recursive] nodes are those of Operation B ([Rec.typeEqSub]); a
    [Function] needs equal parameter counts, every parameter of [sup] a
    subtype of the parameter of [sub] at the same position and the return
    type of [sub] a subtype of that of [sup]; a [Record] needs, for every
    field of [sup], a same-named field of [sub] whose type is a subtype;
    [Boolean] and [Number] are subtypes of themselves only; a bare
    [TypeVariable] is the caller defect of Operation B. *)
Fixpoint subtypeSub (fuel : nat) (sub sup : Ty) (seen : list SeenTypePair)
  : result bool :=
  match fuel with
  | 0 => Diverge
  | S fuel =>
      match hasSeen sub sup seen with
      | Ret true => Ret true
      | Ret false =>
          if isRec sub then
            u ← unwrapRecType fuel sub;
            subtypeSub fuel u sup (seen ++ [(sub, sup)])
          else if isRec sup then
            u ← unwrapRecType fuel sup;
            subtypeSub fuel sub u (seen ++ [(sub, sup)])
          else
            match sup with
            | Boolean | Number => Ret (sameTag sub sup)
            | Func params2 retType2 =>
                match sub with
                | Func params1 retType1 =>
                    if negb (Nat.eqb (length params1) (length params2)) then Ret false
                    else
                      match
                        forIndex (fun i (p2 : Param) =>
                                    match params1 !! i with
                                    | Some p1 => subtypeSub fuel p2.2 p1.2 seen
                                    | None => Throw "TypeError: type1.params[i] is undefined"
                                    end) 0 params2
                      with
                      | Ret true => subtypeSub fuel retType1 retType2 seen
                      | r => r
                      end
                | _ => Ret false
                end
            | Object props2 =>
                match sub with
                | Object props1 =>
                    forEach (fun prop2 : PropertyType =>
                               match findProp prop2.1 props1 with
                               | None => Ret false
                               | Some prop1 => subtypeSub fuel prop1.2 prop2.2 seen
                               end) props2
                | _ => Ret false
                end
            | TypeVar _ => Throw "unreachable"
            | Rec _ _ => Throw "Invalid term type: [object Object]"
            end
      | r => r
      end
  end.

(** Modelled from the spec: [isSubtype(sub, sup)], Operation C started on an
    empty seen-pair list ([subtype] in sub.test.ts). *)
Definition subtype (fuel : nat) (sub sup : Ty) : result bool :=
  subtypeSub fuel sub sup [].

End Sub.

(** ** [src/arith.ts], first program: booleans and numbers *)

Module Arith.

Inductive Ty : Type :=
| Boolean
| Number.

(** [type1.tag === type2.tag] *)
Definition sameTag (type1 type2 : Ty) : bool :=
  match type1, type2 with
  | Boolean, Boolean | Number, Number => true
  | _, _ => false
  end.

Inductive Term : Type :=
| TmTrue
| TmFalse
| TmIf (cond thn els : Term)
| TmNumber (n : Z)
| TmAdd (left right : Term).

(** [throw new TypeError(msg)] is [Throw msg]. *)
Fixpoint typecheck (t : Term) : result Ty :=
  match t with
  | TmTrue | TmFalse => Ret Boolean
  | TmNumber _ => Ret Number
  | TmAdd leftTerm rightTerm =>
      leftType ← typecheck leftTerm;
      if negb (sameTag leftType Number) then Throw "number expected"
      else
        rightType ← typecheck rightTerm;
        if negb (sameTag rightType Number) then Throw "number expected"
        else Ret Number
  | TmIf cond thn els =>
      condType ← typecheck cond;
      if negb (sameTag condType Boolean) then Throw "boolean expected"
      else
        then_ ← typecheck thn;
        elseTerm ← typecheck els;
        if negb (sameTag then_ elseTerm) then Throw "branches must have the same type"
        else Ret then_
  end.

End Arith.

(** ** [src/arith.ts], second program: variables and functions *)

Module Basic.

#[local] Unset Elimination Schemes.
Inductive Ty : Type :=
| Boolean
| Number
| Func (params : list (string * Ty)) (retType : Ty).
#[local] Set Elimination Schemes.

Abbreviation Param := (string * Ty)%type.

(** [type1.tag === type2.tag] *)
Definition sameTag (type1 type2 : Ty) : bool :=
  match type1, type2 with
  | Boolean, Boolean | Number, Number | Func _ _, Func _ _ => true
  | _, _ => false
  end.

Fixpoint typeEq (type1 type2 : Ty) {struct type2} : result bool :=
  match type2 with
  | Boolean | Number => Ret (sameTag type1 type2)
  | Func params2 retType2 =>
      match type1 with
      | Func params1 retType1 =>
          if negb (Nat.eqb (length params1) (length params2)) then Ret false
          else
            match
              forIndex (fun i (p2 : Param) =>
                          match params1 !! i with
                          | Some p1 => typeEq p1.2 p2.2
                          | None => Throw "TypeError: type1.params[i] is undefined"
                          end) 0 params2
            with
            | Ret true => typeEq retType1 retType2
            | r => r
            end
      | _ => Ret false
      end
  end.

(** [Record<string, Type>], the types of the variables in scope. *)
Abbreviation TypeEnv := (gmap string Ty).

(** [TypeEnv.clone]: [{ ...typeEnv }], a copy; a map is a value here. *)
Definition clone (typeEnv : TypeEnv) : TypeEnv := typeEnv.

(** [TypeEnv.define] *)
Definition define (typeEnv : TypeEnv) (name : string) (type : Ty) : TypeEnv :=
  let newTypeEnv := clone typeEnv in
  <[name := type]> newTypeEnv.

#[local] Unset Elimination Schemes.
Inductive Term : Type :=
| TmTrue
| TmFalse
| TmIf (cond thn els : Term)
| TmNumber (n : Z)
| TmAdd (left right : Term)
| TmVar (name : string)
| TmFunc (params : list Param) (body : Term)
| TmCall (func : Term) (args : list Term)
| TmSeq (body rest : Term)
| TmConst (name : string) (init rest : Term).
#[local] Set Elimination Schemes.

(** [throw new TypeError(msg)] and [throw new UnknownVariableError(msg)]
    are [Throw msg]. *)
Fixpoint typecheck (t : Term) (typeEnv : TypeEnv) {struct t} : result Ty :=
  match t with
  | TmTrue | TmFalse => Ret Boolean
  | TmNumber _ => Ret Number
  | TmAdd leftTerm rightTerm =>
      leftType ← typecheck leftTerm typeEnv;
      if negb (sameTag leftType Number) then Throw "number expected"
      else
        rightType ← typecheck rightTerm typeEnv;
        if negb (sameTag rightType Number) then Throw "number expected"
        else Ret Number
  | TmIf cond thn els =>
      _cond ← typecheck cond typeEnv;
      then_ ← typecheck thn typeEnv;
      elseTerm ← typecheck els typeEnv;
      if negb (sameTag then_ elseTerm) then Throw "branches must have the same type"
      else Ret then_
  | TmVar name =>
      match typeEnv !! name with
      | None => Throw ("Unknown variable: " +:+ name)
      | Some type => Ret type
      end
  | TmFunc params body =>
      let newTypeEnv :=
        foldl (fun (newTypeEnv : TypeEnv) (param : Param) =>
                 <[param.1 := param.2]> newTypeEnv) typeEnv params in
      retType ← typecheck body newTypeEnv;
      Ret (Func params retType)
  | TmCall func args =>
      funcType ← typecheck func typeEnv;
      match funcType with
      | Func params retType =>
          if negb (Nat.eqb (length args) (length params))
          then Throw "wrong number of arguments"
          else
            match
              forIndexDo (fun i (arg : Term) =>
                            argType ← typecheck arg typeEnv;
                            match params !! i with
                            | Some p =>
                                same ← typeEq argType p.2;
                                if negb same then Throw "argument type mismatch"
                                else Ret tt
                            | None => Throw "TypeError: funcType.params[i] is undefined"
                            end) 0 args
            with
            | Ret _ => Ret retType
            | Throw msg => Throw msg
            | Diverge => Diverge
            end
      | _ => Throw "function expected"
      end
  | TmSeq body rest =>
      _body ← typecheck body typeEnv;
      typecheck rest typeEnv
  | TmConst name init rest =>
      initType ← typecheck init typeEnv;
      let newTypeEnv := define typeEnv name initType in
      typecheck rest newTypeEnv
  end.

End Basic.

(** ** [src/recFunc.ts]: objects in types, recursive functions *)

Module RecFunc.

#[local] Unset Elimination Schemes.
Inductive Ty : Type :=
| Boolean
| Number
| Func (params : list (string * Ty)) (retType : Ty)
| Object (props : list (string * Ty)).
#[local] Set Elimination Schemes.

Abbreviation Param := (string * Ty)%type.
Abbreviation PropertyType := (string * Ty)%type.

Definition boolean : Ty := Boolean.
Definition number : Ty := Number.
Definition param (name : string) (type : Ty) : Param := (name, type).
Definition fn (params : list Param) (retType : Ty) : Ty := Func params retType.
Definition object (props : list PropertyType) : Ty := Object props.

(** [type1.tag === type2.tag] *)
Definition sameTag (type1 type2 : Ty) : bool :=
  match type1, type2 with
  | Boolean, Boolean | Number, Number | Func _ _, Func _ _ | Object _, Object _ => true
  | _, _ => false
  end.

(** [props.find((prop) => prop.name === name)] *)
Definition findProp (name : string) (props : list PropertyType) : option PropertyType :=
  find (fun p : PropertyType => String.eqb p.1 name) props.

Fixpoint typeEq (type1 type2 : Ty) {struct type2} : result bool :=
  match type2 with
  | Boolean | Number => Ret (sameTag type1 type2)
  | Func params2 retType2 =>
      match type1 with
      | Func params1 retType1 =>
          if negb (Nat.eqb (length params1) (length params2)) then Ret false
          else
            match
              forIndex (fun i (p2 : Param) =>
                          match params1 !! i with
                          | Some p1 => typeEq p1.2 p2.2
                          | None => Throw "TypeError: type1.params[i] is undefined"
                          end) 0 params2
            with
            | Ret true => typeEq retType1 retType2
            | r => r
            end
      | _ => Ret false
      end
  | Object props2 =>
      match type1 with
      | Object props1 =>
          if negb (Nat.eqb (length props1) (length props2)) then Ret false
          else
            forEach (fun prop2 : PropertyType =>
                       match findProp prop2.1 props1 with
                       | None => Ret false
                       | Some prop1 => typeEq prop1.2 prop2.2
                       end) props2
      | _ => Ret false
      end
  end.

(** [Record<string, Type>], the types of the variables in scope. *)
Abbreviation TypeEnv := (gmap string Ty).

(** [TypeEnv.clone]: [{ ...typeEnv }], a copy; a map is a value here. *)
Definition clone (typeEnv : TypeEnv) : TypeEnv := typeEnv.

(** [TypeEnv.define] *)
Definition define (typeEnv : TypeEnv) (name : string) (type : Ty) : TypeEnv :=
  let newTypeEnv := clone typeEnv in
  <[name := type]> newTypeEnv.

#[local] Unset Elimination Schemes.
Inductive Term : Type :=
| TmTrue
| TmFalse
| TmIf (cond thn els : Term)
| TmNumber (n : Z)
| TmAdd (left right : Term)
| TmVar (name : string)
| TmFunc (params : list Param) (body : Term)
| TmCall (func : Term) (args : list Term)
| TmSeq (body rest : Term)
| TmConst (name : string) (init rest : Term)
| TmRecFunc (funcName : string) (params : list Param) (retType : Ty) (body rest : Term).
#[local] Set Elimination Schemes.

Fixpoint typecheck (t : Term) (typeEnv : TypeEnv) {struct t} : result Ty :=
  match t with
  | TmTrue | TmFalse => Ret Boolean
  | TmNumber _ => Ret Number
  | TmAdd leftTerm rightTerm =>
      leftType ← typecheck leftTerm typeEnv;
      if negb (sameTag leftType Number) then error "number expected"
      else
        rightType ← typecheck rightTerm typeEnv;
        if negb (sameTag rightType Number) then error "number expected"
        else Ret Number
  | TmIf cond thn els =>
      _cond ← typecheck cond typeEnv;
      then_ ← typecheck thn typeEnv;
      elseTerm ← typecheck els typeEnv;
      if negb (sameTag then_ elseTerm) then error "branches must have the same type"
      else Ret then_
  | TmVar name =>
      match typeEnv !! name with
      | None => error ("Unknown variable: " +:+ name)
      | Some type => Ret type
      end
  | TmFunc params body =>
      let newTypeEnv :=
        foldl (fun (newTypeEnv : TypeEnv) (param : Param) =>
                 <[param.1 := param.2]> newTypeEnv) typeEnv params in
      retType ← typecheck body newTypeEnv;
      Ret (Func params retType)
  | TmCall func args =>
      funcType ← typecheck func typeEnv;
      match funcType with
      | Func params retType =>
          if negb (Nat.eqb (length args) (length params))
          then error "wrong number of arguments"
          else
            match
              forIndexDo (fun i (arg : Term) =>
                            argType ← typecheck arg typeEnv;
                            match params !! i with
                            | Some p =>
                                same ← typeEq argType p.2;
                                if negb same then error "argument type mismatch"
                                else Ret tt
                            | None => Throw "TypeError: funcType.params[i] is undefined"
                            end) 0 args
            with
            | Ret _ => Ret retType
            | Throw msg => Throw msg
            | Diverge => Diverge
            end
      | _ => error "function expected"
      end
  | TmSeq body rest =>
      _body ← typecheck body typeEnv;
      typecheck rest typeEnv
  | TmConst name init rest =>
      initType ← typecheck init typeEnv;
      let newTypeEnv := define typeEnv name initType in
      typecheck rest newTypeEnv
  | TmRecFunc funcName params retType body rest =>
      let newTypeEnvInnerFunc :=
        foldl (fun (newTypeEnv : TypeEnv) (param : Param) =>
                 define newTypeEnv param.1 param.2)
              (define (clone typeEnv) funcName (fn params retType)) params in
      bodyType ← typecheck body newTypeEnvInnerFunc;
      same ← typeEq retType bodyType;
      if negb same then error "wrong return type"
      else
        let newTypeEnvOuterFunc := define (clone typeEnv) funcName (fn params retType) in
        typecheck rest newTypeEnvOuterFunc
  end.

End RecFunc.

(** ** [src/unnamed/part_001]: sequences and declarations that update the
    environment in place *)

Module Basic2.

#[local] Unset Elimination Schemes.
Inductive Ty : Type :=
| Boolean
| Number
| Func (params : list (string * Ty)) (retType : Ty).
#[local] Set Elimination Schemes.

Abbreviation Param := (string * Ty)%type.

(** [type1.tag === type2.tag] *)
Definition sameTag (type1 type2 : Ty) : bool :=
  match type1, type2 with
  | Boolean, Boolean | Number, Number | Func _ _, Func _ _ => true
  | _, _ => false
  end.

Fixpoint typeEq (type1 type2 : Ty) {struct type2} : result bool :=
  match type2 with
  | Boolean | Number => Ret (sameTag type1 type2)
  | Func params2 retType2 =>
      match type1 with
      | Func params1 retType1 =>
          if negb (Nat.eqb (length params1) (length params2)) then Ret false
          else
            match
              forIndex (fun i (p2 : Param) =>
                          match params1 !! i with
                          | Some p1 => typeEq p1.2 p2.2
                          | None => Throw "TypeError: type1.params[i] is undefined"
                          end) 0 params2
            with
            | Ret true => typeEq retType1 retType2
            | r => r
            end
      | _ => Ret false
      end
  end.

(** [Record<string, Type>].  An environment is an object that [const2]
    updates in place: a call of [typecheck] takes the state of the object
    it is given and returns, with the type, the state it leaves it in. *)
Abbreviation TypeEnv := (gmap string Ty).

(** [TypeEnv.clone]: a new object with the same entries. *)
Definition clone (typeEnv : TypeEnv) : TypeEnv := typeEnv.

(** [TypeEnv.define]: a new object; the one it is given stays as it is. *)
Definition define (typeEnv : TypeEnv) (name : string) (type : Ty) : TypeEnv :=
  let newTypeEnv := clone typeEnv in
  <[name := type]> newTypeEnv.

(** [TypeEnv.defineMut]: the new state of the object it is given. *)
Definition defineMut (typeEnv : TypeEnv) (name : string) (type : Ty) : TypeEnv :=
  <[name := type]> typeEnv.

#[local] Unset Elimination Schemes.
Inductive Term : Type :=
| TmTrue
| TmFalse
| TmIf (cond thn els : Term)
| TmNumber (n : Z)
| TmAdd (left right : Term)
| TmVar (name : string)
| TmFunc (params : list Param) (body : Term)
| TmCall (func : Term) (args : list Term)
| TmSeq2 (body : list Term)
| TmConst2 (name : string) (init : Term).
#[local] Set Elimination Schemes.

(** The second component of the result is the state in which the call
    leaves the object [typeEnv].  The ["func"] and ["seq2"] cases check
    their body against a copy, which is dropped afterwards. *)
Fixpoint typecheck (t : Term) (typeEnv : TypeEnv) {struct t} : result (Ty * TypeEnv) :=
  match t with
  | TmTrue | TmFalse => Ret (Boolean, typeEnv)
  | TmNumber _ => Ret (Number, typeEnv)
  | TmAdd leftTerm rightTerm =>
      '(leftType, typeEnv) ← typecheck leftTerm typeEnv;
      if negb (sameTag leftType Number) then error "number expected"
      else
        '(rightType, typeEnv) ← typecheck rightTerm typeEnv;
        if negb (sameTag rightType Number) then error "number expected"
        else Ret (Number, typeEnv)
  | TmIf cond thn els =>
      '(_cond, typeEnv) ← typecheck cond typeEnv;
      '(then_, typeEnv) ← typecheck thn typeEnv;
      '(elseTerm, typeEnv) ← typecheck els typeEnv;
      if negb (sameTag then_ elseTerm) then error "branches must have the same type"
      else Ret (then_, typeEnv)
  | TmVar name =>
      match typeEnv !! name with
      | None => error ("Unknown variable: " +:+ name)
      | Some type => Ret (type, typeEnv)
      end
  | TmFunc params body =>
      let newTypeEnv :=
        foldl (fun (newTypeEnv : TypeEnv) (param : Param) =>
                 <[param.1 := param.2]> newTypeEnv) typeEnv params in
      '(retType, _) ← typecheck body newTypeEnv;
      Ret (Func params retType, typeEnv)
  | TmCall func args =>
      '(funcType, typeEnv) ← typecheck func typeEnv;
      match funcType with
      | Func params retType =>
          if negb (Nat.eqb (length args) (length params))
          then error "wrong number of arguments"
          else
            typeEnv ← forIndexState (fun i (arg : Term) (typeEnv : TypeEnv) =>
                          '(argType, typeEnv) ← typecheck arg typeEnv;
                          match params !! i with
                          | Some p =>
                              same ← typeEq argType p.2;
                              if negb same then error "argument type mismatch"
                              else Ret typeEnv
                          | None => Throw "TypeError: funcType.params[i] is undefined"
                          end) 0 args typeEnv;
            Ret (retType, typeEnv)
      | _ => error "function expected"
      end
  | TmSeq2 body =>
      let newTypeEnv := clone typeEnv in
      '(result, _) ← foldResult (fun (s : option Ty * TypeEnv) (term : Term) =>
                        '(type, newTypeEnv) ← typecheck term s.2;
                        Ret (Some type, newTypeEnv)) (None, newTypeEnv) body;
      match result with
      | None => error "empty sequence"
      | Some type => Ret (type, typeEnv)
      end
  | TmConst2 name init =>
      '(initType, typeEnv) ← typecheck init typeEnv;
      Ret (initType, defineMut typeEnv name initType)
  end.

End Basic2.

(** * Properties *)

(** ** Generic facts about outcomes and loops *)

Lemma forEach_true {A : Type} (f : A -> result bool) (l : list A) :
  forEach f l = Ret true <-> Forall (fun x => f x = Ret true) l.
Proof.
  induction l as [|x l IH]; simpl.
  - split; [constructor | reflexivity].
  - destruct (f x) as [[]| |] eqn:E.
    + rewrite IH. split.
      * intros H. constructor; assumption.
      * intros H. inversion H; assumption.
    + split; [discriminate | intros H; inversion H; congruence].
    + split; [discriminate | intros H; inversion H; congruence].
    + split; [discriminate | intros H; inversion H; congruence].
Qed.

Lemma forIndex_true {A : Type} (f : nat -> A -> result bool) (l : list A) (i : nat) :
  forIndex f i l = Ret true <->
  (forall k x, l !! k = Some x -> f (i + k) x = Ret true).
Proof.
  revert i. induction l as [|x l IH]; intros i; simpl.
  - split; [intros _ k y Hk; destruct k; discriminate | reflexivity].
  - destruct (f i x) as [[]| |] eqn:E.
    + rewrite IH. split.
      * intros H [|k] y Hk; simpl in Hk.
        -- injection Hk as <-. rewrite Nat.add_0_r. exact E.
        -- replace (i + S k) with (S i + k) by lia. apply H. exact Hk.
      * intros H k y Hk. replace (S i + k) with (i + S k) by lia.
        apply H. exact Hk.
    + split; [discriminate|]. intros H.
      specialize (H 0 x eq_refl). rewrite Nat.add_0_r in H. congruence.
    + split; [discriminate|]. intros H.
      specialize (H 0 x eq_refl). rewrite Nat.add_0_r in H. congruence.
    + split; [discriminate|]. intros H.
      specialize (H 0 x eq_refl). rewrite Nat.add_0_r in H. congruence.
Qed.


(** Membership in [flat_map] and [forallb], for stdpp's [∈]. *)
Lemma elem_of_flat_map {A B : Type} (f : A -> list B) (l : list A) (y : B) :
  y ∈ flat_map f l <-> exists x, x ∈ l /\ y ∈ f x.
Proof.
  rewrite list_elem_of_In, in_flat_map.
  split; intros (x & Hx & Hy); exists x.
  - by rewrite !list_elem_of_In.
  - by rewrite <- !list_elem_of_In.
Qed.

Lemma forallb_elem_of {A : Type} (f : A -> bool) (l : list A) :
  forallb f l = true <-> forall x, x ∈ l -> f x = true.
Proof.
  rewrite forallb_forall. split; intros H x Hx; apply H.
  - by apply list_elem_of_In.
  - by apply list_elem_of_In.
Qed.

Lemma forEach_total {A : Type} (f : A -> result bool) (l : list A) :
  (forall x, x ∈ l -> exists b, f x = Ret b) -> exists b, forEach f l = Ret b.
Proof.
  induction l as [|x l IH]; intros H; simpl.
  - by exists true.
  - destruct (H x) as [[] E]; [apply elem_of_cons; by left | |]; rewrite E.
    + apply IH. intros y Hy. apply H. apply elem_of_cons. by right.
    + by exists false.
Qed.

Lemma forIndex_total {A : Type} (f : nat -> A -> result bool) (l : list A) (i : nat) :
  (forall k x, l !! k = Some x -> exists b, f (i + k) x = Ret b) ->
  exists b, forIndex f i l = Ret b.
Proof.
  revert i. induction l as [|x l IH]; intros i H; simpl.
  - by exists true.
  - destruct (H 0 x eq_refl) as [b E]. rewrite Nat.add_0_r in E. rewrite E.
    destruct b; [|by exists false].
    apply IH. intros k y Hk. replace (S i + k) with (i + S k) by lia.
    by apply H.
Qed.

(** Two loop bodies that agree on the elements visited give the same loop. *)
Lemma forEach_ext {A : Type} (f g : A -> result bool) (l : list A) :
  (forall x, x ∈ l -> f x = g x) -> forEach f l = forEach g l.
Proof.
  induction l as [|x l IH]; intros H; simpl; [done|].
  rewrite (H x) by (apply elem_of_cons; by left).
  rewrite IH; [done|]. intros y Hy. apply H. apply elem_of_cons. by right.
Qed.

Lemma forIndex_ext {A : Type} (f g : nat -> A -> result bool) (l : list A) (i : nat) :
  (forall k x, l !! k = Some x -> f (i + k) x = g (i + k) x) ->
  forIndex f i l = forIndex g i l.
Proof.
  revert i. induction l as [|x l IH]; intros i H; simpl; [done|].
  pose proof (H 0 x eq_refl) as E. rewrite Nat.add_0_r in E. rewrite E.
  rewrite IH; [done|]. intros k y Hk.
  replace (S i + k) with (i + S k) by lia. by apply H.
Qed.

(** A loop keeps its outcome when every call it made keeps its own. *)
Lemma forEach_mono {A : Type} (f g : A -> result bool) (l : list A) (r : result bool) :
  (forall x r', x ∈ l -> f x = r' -> r' <> Diverge -> g x = r') ->
  forEach f l = r -> r <> Diverge -> forEach g l = r.
Proof.
  induction l as [|x l IH]; intros H Hf Hr; simpl in *; [done|].
  destruct (f x) as [[]| |] eqn:E.
  - rewrite (H x (Ret true)); [|apply elem_of_cons; by left|done|done].
    apply IH; [|done|done]. intros y r' Hy. apply H. apply elem_of_cons. by right.
  - by rewrite (H x (Ret false)); [|apply elem_of_cons; by left|done|done].
  - by rewrite (H x (Throw msg)); [|apply elem_of_cons; by left|done|done].
  - congruence.
Qed.

Lemma forIndex_mono {A : Type} (f g : nat -> A -> result bool) (l : list A) (i : nat)
    (r : result bool) :
  (forall k x r', l !! k = Some x -> f (i + k) x = r' -> r' <> Diverge ->
                  g (i + k) x = r') ->
  forIndex f i l = r -> r <> Diverge -> forIndex g i l = r.
Proof.
  revert i. induction l as [|x l IH]; intros i H Hf Hr; simpl in *; [done|].
  pose proof (H 0 x) as H0. rewrite Nat.add_0_r in H0. simpl in H0.
  destruct (f i x) as [[]| |] eqn:E.
  - rewrite (H0 (Ret true)) by done.
    apply IH; [|done|done]. intros k y r' Hk.
    replace (S i + k) with (i + S k) by lia. by apply H.
  - by rewrite (H0 (Ret false)) by done.
  - by rewrite (H0 (Throw msg)) by done.
  - congruence.
Qed.

(** Loops whose body takes fuel: when every call returns for some fuel,
    so does the loop. *)
Section fuel_loops.
Context {A : Type}.

Lemma forEach_returns (Q : Prop) (F : nat -> A -> result bool) (l : list A) :
  (forall n m x r, n <= m -> F n x = r -> r <> Diverge -> F m x = r) ->
  (forall x, x ∈ l -> exists n b, F n x = Ret b /\ (Q -> b = true)) ->
  exists n b, forEach (F n) l = Ret b /\ (Q -> b = true).
Proof.
  intros Hmono. induction l as [|x l IH]; intros H.
  - by exists 0, true.
  - destruct (H x) as (n0 & b0 & E0 & Hb0); [apply elem_of_cons; by left|].
    destruct b0; [|exists n0, false; simpl; by rewrite E0].
    destruct IH as (n1 & b1 & E1 & Hb1).
    { intros y Hy. apply H. apply elem_of_cons. by right. }
    exists (n0 `max` n1), b1. split; [|done]. simpl.
    rewrite (Hmono n0 _ x (Ret true)) by (done || lia).
    eapply forEach_mono; [|exact E1|done].
    intros y r _ Hy Hr. apply (Hmono n1); [lia|done|done].
Qed.

Lemma forEach_returns_true (F : nat -> A -> result bool) (l : list A) :
  (forall n m x r, n <= m -> F n x = r -> r <> Diverge -> F m x = r) ->
  (exists n, forEach (F n) l = Ret true) <->
  (forall x, x ∈ l -> exists n, F n x = Ret true).
Proof.
  intros Hmono. split.
  - intros [n H] x Hx. exists n. apply forEach_true in H.
    rewrite Forall_forall in H. by apply H.
  - induction l as [|x l IH]; intros H; [by exists 0|].
    destruct (H x) as (n0 & E0); [apply elem_of_cons; by left|].
    destruct IH as (n1 & E1).
    { intros y Hy. apply H. apply elem_of_cons. by right. }
    exists (n0 `max` n1). simpl.
    rewrite (Hmono n0 _ x (Ret true)) by (done || lia).
    eapply forEach_mono; [|exact E1|done].
    intros y r _ Hy Hr. apply (Hmono n1); [lia|done|done].
Qed.

Lemma forIndex_returns (Q : Prop) (F : nat -> nat -> A -> result bool) (l : list A)
    (i : nat) :
  (forall n m k x r, n <= m -> F n k x = r -> r <> Diverge -> F m k x = r) ->
  (forall k x, l !! k = Some x -> exists n b, F n (i + k) x = Ret b /\ (Q -> b = true)) ->
  exists n b, forIndex (F n) i l = Ret b /\ (Q -> b = true).
Proof.
  intros Hmono. revert i. induction l as [|x l IH]; intros i H.
  - by exists 0, true.
  - destruct (H 0 x eq_refl) as (n0 & b0 & E0 & Hb0). rewrite Nat.add_0_r in E0.
    destruct b0; [|exists n0, false; simpl; by rewrite E0].
    destruct (IH (S i)) as (n1 & b1 & E1 & Hb1).
    { intros k y Hk. replace (S i + k) with (i + S k) by lia. by apply H. }
    exists (n0 `max` n1), b1. split; [|done]. simpl.
    rewrite (Hmono n0 _ i x (Ret true)) by (done || lia).
    eapply forIndex_mono; [|exact E1|done].
    intros k y r _ Hy Hr. apply (Hmono n1); [lia|done|done].
Qed.

Lemma forIndex_returns_true (F : nat -> nat -> A -> result bool) (l : list A) (i : nat) :
  (forall n m k x r, n <= m -> F n k x = r -> r <> Diverge -> F m k x = r) ->
  (exists n, forIndex (F n) i l = Ret true) <->
  (forall k x, l !! k = Some x -> exists n, F n (i + k) x = Ret true).
Proof.
  intros Hmono. split.
  - intros [n H] k x Hk. exists n.
    by apply (proj1 (forIndex_true _ _ _) H).
  - revert i. induction l as [|x l IH]; intros i H; [by exists 0|].
    destruct (H 0 x eq_refl) as (n0 & E0). rewrite Nat.add_0_r in E0.
    destruct (IH (S i)) as (n1 & E1).
    { intros k y Hk. replace (S i + k) with (i + S k) by lia. by apply H. }
    exists (n0 `max` n1). simpl.
    rewrite (Hmono n0 _ i x (Ret true)) by (done || lia).
    eapply forIndex_mono; [|exact E1|done].
    intros k y r _ Hy Hr. apply (Hmono n1); [lia|done|done].
Qed.

End fuel_loops.

(** ** Loops that throw, loops over mapped lists *)

Lemma forEach_throw {A : Type} (f : A -> result bool) (l : list A) (msg : string) :
  forEach f l = Throw msg -> exists x, x ∈ l /\ f x = Throw msg.
Proof.
  induction l as [|x l IH]; simpl; [discriminate|].
  destruct (f x) as [[]| |] eqn:E; intros H; try discriminate.
  - destruct (IH H) as (y & Hy & Hf). exists y. split; [by apply elem_of_cons; right|done].
  - injection H as ->. exists x. split; [by apply elem_of_cons; left|done].
Qed.

Lemma forIndex_throw {A : Type} (f : nat -> A -> result bool) (l : list A) (i : nat)
    (msg : string) :
  forIndex f i l = Throw msg -> exists k x, l !! k = Some x /\ f (i + k) x = Throw msg.
Proof.
  revert i. induction l as [|x l IH]; intros i; simpl; [discriminate|].
  destruct (f i x) as [[]| |] eqn:E; intros H; try discriminate.
  - destruct (IH _ H) as (k & y & Hk & Hf). exists (S k), y. split; [done|].
    by replace (i + S k) with (S i + k) by lia.
  - injection H as ->. exists 0, x. split; [done|]. by rewrite Nat.add_0_r.
Qed.

Lemma forEach_fmap {A B : Type} (g : A -> B) (f : B -> result bool) (l : list A) :
  forEach f (g <$> l) = forEach (fun x => f (g x)) l.
Proof.
  induction l as [|x l IH]; simpl; [done|].
  destruct (f (g x)) as [[]| |]; done.
Qed.

Lemma forIndex_fmap {A B : Type} (g : A -> B) (f : nat -> B -> result bool) (l : list A)
    (i : nat) :
  forIndex f i (g <$> l) = forIndex (fun k x => f k (g x)) i l.
Proof.
  revert i. induction l as [|x l IH]; intros i; simpl; [done|].
  destruct (f i (g x)) as [[]| |]; done.
Qed.

Lemma forIndexDo_ext {A : Type} (f g : nat -> A -> result unit) (l : list A) (i : nat) :
  (forall k x, l !! k = Some x -> f (i + k) x = g (i + k) x) ->
  forIndexDo f i l = forIndexDo g i l.
Proof.
  revert i. induction l as [|x l IH]; intros i H; simpl; [done|].
  pose proof (H 0 x eq_refl) as H0. rewrite Nat.add_0_r in H0. rewrite <- H0.
  destruct (f i x); try done. apply IH. intros k y Hk.
  replace (S i + k) with (i + S k) by lia. by apply H.
Qed.

Lemma forIndexDo_Ret {A : Type} (f : nat -> A -> result unit) (l : list A) (i : nat) u :
  forIndexDo f i l = Ret u ->
  forall k x, l !! k = Some x -> exists v, f (i + k) x = Ret v.
Proof.
  revert i. induction l as [|x l IH]; intros i H k y Hk; [done|].
  simpl in H. destruct (f i x) as [v| |] eqn:E; try discriminate.
  destruct k as [|k]; simpl in Hk.
  - injection Hk as <-. exists v. by rewrite Nat.add_0_r.
  - replace (i + S k) with (S i + k) by lia. by eapply IH.
Qed.

Lemma forIndexDo_Throw {A : Type} (f : nat -> A -> result unit) (l : list A) (i : nat) msg :
  forIndexDo f i l = Throw msg ->
  exists k x, l !! k = Some x /\ f (i + k) x = Throw msg.
Proof.
  revert i. induction l as [|x l IH]; intros i H; [done|].
  simpl in H. destruct (f i x) as [v| |] eqn:E; try discriminate.
  - destruct (IH _ H) as (k & y & Hk & Hf). exists (S k), y. split; [done|].
    by replace (i + S k) with (S i + k) by lia.
  - injection H as ->. exists 0, x. split; [done|]. by rewrite Nat.add_0_r.
Qed.


Lemma mapResult_ext {A B : Type} (f g : A -> result B) (l : list A) :
  (forall x, x ∈ l -> f x = g x) -> mapResult f l = mapResult g l.
Proof.
  induction l as [|x l IH]; intros H; simpl; [done|].
  rewrite <- (H x) by (apply elem_of_cons; by left).
  rewrite IH; [done|]. intros y Hy. apply H. apply elem_of_cons. by right.
Qed.

Lemma mapResult_Throw {A B : Type} (f : A -> result B) (l : list A) msg :
  mapResult f l = Throw msg -> exists x, x ∈ l /\ f x = Throw msg.
Proof.
  induction l as [|x l IH]; intros H; simpl in H; [done|].
  destruct (f x) as [y| |] eqn:E; try discriminate.
  - destruct (mapResult f l) as [ys'| |]; try discriminate.
    injection H as ->. destruct (IH eq_refl) as (z & Hz & Hf).
    exists z. split; [apply elem_of_cons; by right|done].
  - injection H as ->. exists x. split; [apply elem_of_cons; by left|done].
Qed.

Lemma mapResult_Ret_elem {A B : Type} (f : A -> result B) (l : list A) (ys : list B) :
  mapResult f l = Ret ys -> forall x, x ∈ l -> exists y, y ∈ ys /\ f x = Ret y.
Proof.
  revert ys. induction l as [|x l IH]; intros ys H z Hz; [by apply elem_of_nil in Hz|].
  simpl in H. destruct (f x) as [y| |] eqn:E; try discriminate.
  destruct (mapResult f l) as [ys'| |]; try discriminate.
  injection H as <-. apply elem_of_cons in Hz as [->|Hz].
  - exists y. split; [apply elem_of_cons; by left|done].
  - destruct (IH ys' eq_refl z Hz) as (y' & Hy' & Hf).
    exists y'. split; [apply elem_of_cons; by right|done].
Qed.

Lemma mapResult_Ret_elem_r {A B : Type} (f : A -> result B) (l : list A) (ys : list B) :
  mapResult f l = Ret ys -> forall y, y ∈ ys -> exists x, x ∈ l /\ f x = Ret y.
Proof.
  revert ys. induction l as [|x l IH]; intros ys H z Hz; simpl in H.
  - injection H as <-. by apply elem_of_nil in Hz.
  - destruct (f x) as [y| |] eqn:E; try discriminate.
    destruct (mapResult f l) as [ys'| |]; try discriminate.
    injection H as <-. apply elem_of_cons in Hz as [->|Hz].
    + exists x. split; [apply elem_of_cons; by left|done].
    + destruct (IH ys' eq_refl z Hz) as (x' & Hx' & Hf).
      exists x'. split; [apply elem_of_cons; by right|done].
Qed.


(** ** Induction on the types of rec.ts *)

Module RecTheory.
Import Rec.

Section Ty_induction.
Variable P : Ty -> Prop.
Hypothesis HBoolean : P Boolean.
Hypothesis HNumber : P Number.
Hypothesis HFunc : forall params retType,
  Forall (fun p : Param => P p.2) params -> P retType -> P (Func params retType).
Hypothesis HObject : forall props,
  Forall (fun p : PropertyType => P p.2) props -> P (Object props).
Hypothesis HRec : forall name body, P body -> P (Rec name body).
Hypothesis HTypeVar : forall name, P (TypeVar name).

Fixpoint Ty_ind (t : Ty) : P t :=
  match t with
  | Boolean => HBoolean
  | Number => HNumber
  | Func params retType =>
      HFunc params retType
        ((fix params_ind (ps : list (string * Ty)) : Forall (fun p => P p.2) ps :=
            match ps with
            | [] => Forall_nil_2 _
            | p :: ps' => Forall_cons_2 _ _ _ (Ty_ind p.2) (params_ind ps')
            end) params)
        (Ty_ind retType)
  | Object props =>
      HObject props
        ((fix props_ind (ps : list (string * Ty)) : Forall (fun p => P p.2) ps :=
            match ps with
            | [] => Forall_nil_2 _
            | p :: ps' => Forall_cons_2 _ _ _ (Ty_ind p.2) (props_ind ps')
            end) props)
  | Rec name body => HRec name body (Ty_ind body)
  | TypeVar name => HTypeVar name
  end.
End Ty_induction.


(** ** Free variables and well-formed field lists *)

(** The names that occur free: [Rec] is the only binder of rec.ts. *)
Fixpoint freeVars (t : Ty) : list string :=
  match t with
  | Boolean | Number => []
  | Func params retType =>
      flat_map (fun p : Param => freeVars p.2) params ++ freeVars retType
  | Object props => flat_map (fun p : PropertyType => freeVars p.2) props
  | Rec name body => filter (fun y => y <> name) (freeVars body)
  | TypeVar name => [name]
  end.

(** A closed type has no free type variable. *)
Definition closed (t : Ty) : Prop := freeVars t = [].

(** Field names are unique in every [Object] of the type (the data model's
    invariant on records). *)
Fixpoint uniqueFields (t : Ty) : bool :=
  match t with
  | Boolean | Number | TypeVar _ => true
  | Func params retType =>
      forallb (fun p : Param => uniqueFields p.2) params && uniqueFields retType
  | Object props =>
      bool_decide (NoDup props.*1)
      && forallb (fun p : PropertyType => uniqueFields p.2) props
  | Rec _ body => uniqueFields body
  end.

Lemma freeVars_Func x params retType :
  x ∈ freeVars (Func params retType) <->
  (exists p, p ∈ params /\ x ∈ freeVars p.2) \/ x ∈ freeVars retType.
Proof. simpl. by rewrite elem_of_app, elem_of_flat_map. Qed.

Lemma freeVars_Object x props :
  x ∈ freeVars (Object props) <-> exists p, p ∈ props /\ x ∈ freeVars p.2.
Proof. simpl. by rewrite elem_of_flat_map. Qed.

Lemma freeVars_Rec x name body :
  x ∈ freeVars (Rec name body) <-> x <> name /\ x ∈ freeVars body.
Proof. simpl. by rewrite list_elem_of_filter. Qed.

Lemma freeVars_TypeVar x name : x ∈ freeVars (TypeVar name) <-> x = name.
Proof. simpl. by rewrite list_elem_of_singleton. Qed.

Lemma uniqueFields_Func params retType :
  uniqueFields (Func params retType) = true <->
  (forall p, p ∈ params -> uniqueFields p.2 = true) /\ uniqueFields retType = true.
Proof. simpl. by rewrite andb_true_iff, forallb_elem_of. Qed.

Lemma uniqueFields_Object props :
  uniqueFields (Object props) = true <->
  NoDup props.*1 /\ (forall p, p ∈ props -> uniqueFields p.2 = true).
Proof. simpl. by rewrite andb_true_iff, bool_decide_eq_true, forallb_elem_of. Qed.

(** [find] returns the field itself when names are unique. *)
Lemma findProp_unique (props : list PropertyType) (p : PropertyType) :
  NoDup props.*1 -> p ∈ props -> findProp p.1 props = Some p.
Proof.
  unfold findProp. induction props as [|q props IH]; intros Hnd Hp.
  - by apply elem_of_nil in Hp.
  - simpl in *. apply NoDup_cons in Hnd as [Hq Hnd].
    apply elem_of_cons in Hp as [->|Hp].
    + by rewrite String.eqb_refl.
    + destruct (String.eqb q.1 p.1) eqn:E.
      * apply String.eqb_eq in E. exfalso. apply Hq. rewrite E.
        apply list_elem_of_fmap. by exists p.
      * by apply IH.
Qed.

Lemma findProp_Some (props : list PropertyType) (name : string) (p : PropertyType) :
  findProp name props = Some p -> p ∈ props /\ p.1 = name.
Proof.
  unfold findProp. intros H. apply find_some in H as [Hin Heq].
  split; [by apply list_elem_of_In | by apply String.eqb_eq].
Qed.

(** ** Substitution ([expandType]) *)

Lemma expandType_not_free t x r : x ∉ freeVars t -> expandType t x r = t.
Proof.
  induction t as [| |params retType IHp IHr|props IHp|name body IH|name] using Ty_ind;
    intros Hx; simpl; try done.
  - rewrite freeVars_Func in Hx. unfold fn. f_equal.
    + rewrite <- (list_fmap_id params) at 2. apply Forall_fmap_ext.
      rewrite Forall_forall in IHp. apply Forall_forall.
      intros [n t] Hin; simpl in *. f_equal. apply (IHp _ Hin). intros Hf.
      apply Hx. left. by exists (n, t).
    + apply IHr. intros Hf. apply Hx. by right.
  - rewrite freeVars_Object in Hx. unfold object. f_equal.
    rewrite <- (list_fmap_id props) at 2. apply Forall_fmap_ext.
    rewrite Forall_forall in IHp. apply Forall_forall.
    intros [n t] Hin; simpl in *. f_equal. apply (IHp _ Hin). intros Hf.
    apply Hx. by exists (n, t).
  - destruct (String.eqb name x) eqn:E; [done|].
    apply String.eqb_neq in E. unfold rec. f_equal. apply IH.
    intros Hf. apply Hx. apply freeVars_Rec. split; [congruence | done].
  - destruct (String.eqb name x) eqn:E; [|done].
    apply String.eqb_eq in E. exfalso. apply Hx. apply freeVars_TypeVar. done.
Qed.

Lemma freeVars_expandType t x r y :
  y ∈ freeVars (expandType t x r) ->
  (y <> x /\ y ∈ freeVars t) \/ y ∈ freeVars r.
Proof.
  induction t as [| |params retType IHp IHr|props IHp|name body IH|name] using Ty_ind;
    simpl expandType; intros Hy.
  - by apply elem_of_nil in Hy.
  - by apply elem_of_nil in Hy.
  - unfold fn in Hy. apply freeVars_Func in Hy as [(p & Hp & Hy)|Hy].
    + apply list_elem_of_fmap in Hp as (q & -> & Hq). simpl in Hy.
      rewrite Forall_forall in IHp. destruct (IHp q Hq Hy) as [[? ?]|?]; [left|by right].
      split; [done|]. apply freeVars_Func. left. by exists q.
    + destruct (IHr Hy) as [[? ?]|?]; [left|by right].
      split; [done|]. apply freeVars_Func. by right.
  - unfold object in Hy. apply freeVars_Object in Hy as (p & Hp & Hy).
    apply list_elem_of_fmap in Hp as (q & -> & Hq). simpl in Hy.
    rewrite Forall_forall in IHp. destruct (IHp q Hq Hy) as [[? ?]|?]; [left|by right].
    split; [done|]. apply freeVars_Object. by exists q.
  - destruct (String.eqb name x) eqn:E.
    + apply String.eqb_eq in E as ->. left.
      apply freeVars_Rec in Hy as [? ?]. split; [done|]. by apply freeVars_Rec.
    + unfold rec in Hy. apply freeVars_Rec in Hy as [Hne Hy].
      destruct (IH Hy) as [[? ?]|?]; [left|by right].
      split; [done|]. by apply freeVars_Rec.
  - destruct (String.eqb name x) eqn:E; [by right|].
    apply String.eqb_neq in E. left. apply freeVars_TypeVar in Hy as ->.
    split; [done|]. by apply freeVars_TypeVar.
Qed.

(** After the substitution no free occurrence of the name is left, unless
    the replacement brings one. *)
Lemma expandType_replaces_all t x r :
  x ∉ freeVars r -> x ∉ freeVars (expandType t x r).
Proof.
  intros Hr Hx. apply freeVars_expandType in Hx as [[? _]|?]; done.
Qed.

Lemma closed_not_free t x : closed t -> x ∉ freeVars t.
Proof. unfold closed. intros ->. apply not_elem_of_nil. Qed.

Lemma closed_iff t : closed t <-> forall x, x ∉ freeVars t.
Proof.
  split; [intros H x; by apply closed_not_free|].
  unfold closed. intros H. destruct (freeVars t) as [|y l]; [done|].
  exfalso. apply (H y). apply elem_of_cons. by left.
Qed.

Lemma expandType_closed_id t x r : closed t -> expandType t x r = t.
Proof. intros H. apply expandType_not_free. by apply closed_not_free. Qed.

Lemma uniqueFields_expandType t x r :
  uniqueFields t = true -> uniqueFields r = true ->
  uniqueFields (expandType t x r) = true.
Proof.
  intros Ht Hr.
  induction t as [| |params retType IHp IHr|props IHp|name body IH|name] using Ty_ind;
    simpl expandType; try done.
  - apply uniqueFields_Func in Ht as [Hp Hret]. unfold fn.
    apply uniqueFields_Func. split; [|by apply IHr].
    intros p Hin. apply list_elem_of_fmap in Hin as (q & -> & Hq). simpl.
    rewrite Forall_forall in IHp. apply IHp; [done|]. by apply Hp.
  - apply uniqueFields_Object in Ht as [Hnd Hp]. unfold object.
    apply uniqueFields_Object. split.
    + rewrite <- list_fmap_compose.
      replace (props.*1) with ((fun p : PropertyType => p.1) <$> props) in Hnd by done.
      exact Hnd.
    + intros p Hin. apply list_elem_of_fmap in Hin as (q & -> & Hq). simpl.
      rewrite Forall_forall in IHp. apply IHp; [done|]. by apply Hp.
  - destruct (String.eqb name x); [done|]. simpl. by apply IH.
  - destruct (String.eqb name x); done.
Qed.

(** ** The binding-map equality [typeEqNaive] *)

Lemma typeEqNaive_Func_Func params1 retType1 params2 retType2 m :
  length params1 = length params2 ->
  typeEqNaive (Func params1 retType1) (Func params2 retType2) m =
  match
    forIndex (fun i (p2 : Param) =>
                match params1 !! i with
                | Some p1 => typeEqNaive p1.2 p2.2 m
                | None => Throw "TypeError: type1.params[i] is undefined"
                end) 0 params2
  with
  | Ret true => typeEqNaive retType1 retType2 m
  | r => r
  end.
Proof. intros E. simpl. rewrite E, Nat.eqb_refl. reflexivity. Qed.

Lemma typeEqNaive_Object_Object props1 props2 m :
  length props1 = length props2 ->
  typeEqNaive (Object props1) (Object props2) m =
  forEach (fun prop2 : PropertyType =>
             match findProp prop2.1 props1 with
             | None => Ret false
             | Some prop1 => typeEqNaive prop1.2 prop2.2 m
             end) props2.
Proof. intros E. simpl. rewrite E, Nat.eqb_refl. reflexivity. Qed.

(** The check never throws when the map binds every free variable of its
    left argument. *)
Lemma typeEqNaive_total t2 : forall t1 m,
  (forall x, x ∈ freeVars t1 -> is_Some (m !! x)) ->
  exists b, typeEqNaive t1 t2 m = Ret b.
Proof.
  induction t2 as [| |params2 retType2 IHp IHr|props2 IHp|name2 body2 IH|name2]
    using Ty_ind; intros t1 m Hm.
  - eexists; reflexivity.
  - eexists; reflexivity.
  - destruct t1 as [| |params1 retType1| | |]; try (eexists; reflexivity).
    destruct (decide (length params1 = length params2)) as [E|E].
    + rewrite typeEqNaive_Func_Func by done.
      destruct (forIndex_total
                  (fun i (p2 : Param) =>
                     match params1 !! i with
                     | Some p1 => typeEqNaive p1.2 p2.2 m
                     | None => Throw "TypeError: type1.params[i] is undefined"
                     end) params2 0) as [b Hb].
      * intros k p2 Hk. simpl.
        destruct (params1 !! k) as [p1|] eqn:E1.
        -- rewrite Forall_forall in IHp.
           apply (IHp p2 (list_elem_of_lookup_2 _ _ _ Hk)).
           intros x Hx. apply Hm. apply freeVars_Func. left. exists p1.
           split; [by eapply list_elem_of_lookup_2 | done].
        -- apply lookup_ge_None in E1. apply lookup_lt_Some in Hk. lia.
      * rewrite Hb. destruct b; [|by exists false].
        apply IHr. intros x Hx. apply Hm. apply freeVars_Func. by right.
    + simpl. apply Nat.eqb_neq in E. rewrite E. by exists false.
  - destruct t1 as [| | |props1| |]; try (eexists; reflexivity).
    destruct (decide (length props1 = length props2)) as [E|E].
    + rewrite typeEqNaive_Object_Object by done.
      apply forEach_total. intros p2 Hp2.
      destruct (findProp p2.1 props1) as [p1|] eqn:E1; [|by exists false].
      rewrite Forall_forall in IHp. apply (IHp p2 Hp2).
      intros x Hx. apply Hm. apply freeVars_Object. exists p1.
      split; [by apply findProp_Some in E1 as [? _] | done].
    + simpl. apply Nat.eqb_neq in E. rewrite E. by exists false.
  - destruct t1 as [| | | |name1 body1|]; try (eexists; reflexivity).
    simpl. apply IH. intros x Hx.
    destruct (decide (x = name1)) as [->|Hne].
    + rewrite lookup_insert_eq. by eexists.
    + rewrite lookup_insert_ne by done. apply Hm. by apply freeVars_Rec.
  - destruct t1 as [| | | | |name1]; try (eexists; reflexivity).
    simpl. destruct (Hm name1) as [v ->]; [by apply freeVars_TypeVar|].
    by eexists.
Qed.

Lemma typeEqNaive_closed_total t1 t2 :
  closed t1 -> exists b, typeEqNaive t1 t2 ∅ = Ret b.
Proof.
  intros Hc. apply typeEqNaive_total. intros x Hx.
  by apply (closed_not_free _ x) in Hc.
Qed.

(** Reflexivity, under a map that is the identity on the free variables. *)
Lemma typeEqNaive_refl t : forall m,
  uniqueFields t = true ->
  (forall x, x ∈ freeVars t -> m !! x = Some x) ->
  typeEqNaive t t m = Ret true.
Proof.
  induction t as [| |params retType IHp IHr|props IHp|name body IH|name]
    using Ty_ind; intros m Hu Hm.
  - reflexivity.
  - reflexivity.
  - apply uniqueFields_Func in Hu as [Hup Hur].
    rewrite typeEqNaive_Func_Func by done.
    rewrite (proj2 (forIndex_true _ _ _)).
    + apply IHr; [done|]. intros x Hx. apply Hm. apply freeVars_Func. by right.
    + intros k p Hk. simpl. rewrite Hk.
      pose proof (list_elem_of_lookup_2 _ _ _ Hk) as Hin.
      rewrite Forall_forall in IHp. apply IHp; [done| by apply Hup |].
      intros x Hx. apply Hm. apply freeVars_Func. left. by exists p.
  - apply uniqueFields_Object in Hu as [Hnd Hup].
    rewrite typeEqNaive_Object_Object by done.
    apply forEach_true. apply Forall_forall. intros p Hin.
    rewrite (findProp_unique _ _ Hnd Hin).
    rewrite Forall_forall in IHp. apply IHp; [done| by apply Hup |].
    intros x Hx. apply Hm. apply freeVars_Object. by exists p.
  - simpl. apply IH; [done|]. intros x Hx.
    destruct (decide (x = name)) as [->|Hne].
    + by rewrite lookup_insert_eq.
    + rewrite lookup_insert_ne by done. apply Hm. by apply freeVars_Rec.
  - simpl. rewrite (Hm name) by (by apply freeVars_TypeVar).
    by rewrite String.eqb_refl.
Qed.

Lemma typeEqNaive_closed_refl t :
  uniqueFields t = true -> closed t -> typeEqNaive t t ∅ = Ret true.
Proof.
  intros Hu Hc. apply typeEqNaive_refl; [done|].
  intros x Hx. by apply (closed_not_free _ x) in Hc.
Qed.

(** A type equals its own renaming: the bound name [x] of the left type is
    spelled [y] on the right. *)
Lemma typeEqNaive_rename b x y : forall m,
  uniqueFields b = true ->
  (forall z, z ∈ freeVars b -> z <> x -> m !! z = Some z) ->
  m !! x = Some y ->
  typeEqNaive b (expandType b x (TypeVar y)) m = Ret true.
Proof.
  induction b as [| |params retType IHp IHr|props IHp|name body IH|name]
    using Ty_ind; intros m Hu Hm Hx.
  - reflexivity.
  - reflexivity.
  - apply uniqueFields_Func in Hu as [Hup Hur]. simpl expandType. unfold fn.
    rewrite typeEqNaive_Func_Func by (by rewrite length_fmap).
    rewrite (proj2 (forIndex_true _ _ _)).
    + apply IHr; [done| |done]. intros z Hz. apply Hm. apply freeVars_Func. by right.
    + intros k p2 Hk. simpl. rewrite list_lookup_fmap in Hk.
      destruct (params !! k) as [p|] eqn:Ek; [|done].
      injection Hk as <-. simpl.
      pose proof (list_elem_of_lookup_2 _ _ _ Ek) as Hin.
      rewrite Forall_forall in IHp. apply IHp; [done| by apply Hup | |done].
      intros z Hz. apply Hm. apply freeVars_Func. left. by exists p.
  - apply uniqueFields_Object in Hu as [Hnd Hup]. simpl expandType. unfold object.
    rewrite typeEqNaive_Object_Object by (by rewrite length_fmap).
    apply forEach_true. apply Forall_forall. intros p2 Hin.
    apply list_elem_of_fmap in Hin as (p & -> & Hin). simpl.
    rewrite (findProp_unique _ _ Hnd Hin).
    rewrite Forall_forall in IHp. apply IHp; [done| by apply Hup | |done].
    intros z Hz. apply Hm. apply freeVars_Object. by exists p.
  - simpl expandType. simpl in Hu. destruct (String.eqb name x) eqn:E.
    + apply String.eqb_eq in E as ->. simpl.
      apply typeEqNaive_refl; [done|]. intros z Hz.
      destruct (decide (z = x)) as [->|Hne].
      * by rewrite lookup_insert_eq.
      * rewrite lookup_insert_ne by done. apply Hm; [|done]. by apply freeVars_Rec.
    + apply String.eqb_neq in E. simpl. apply IH; [done| |].
      * intros z Hz Hzx. destruct (decide (z = name)) as [->|Hne].
        -- by rewrite lookup_insert_eq.
        -- rewrite lookup_insert_ne by done. apply Hm; [|done]. by apply freeVars_Rec.
      * by rewrite lookup_insert_ne.
  - simpl expandType. destruct (String.eqb name x) eqn:E.
    + apply String.eqb_eq in E as ->. simpl. rewrite Hx. by rewrite String.eqb_refl.
    + apply String.eqb_neq in E. simpl.
      rewrite (Hm name); [|by apply freeVars_TypeVar|done].
      by rewrite String.eqb_refl.
Qed.

(** Conversely, a comparison of a type with itself that answers [true]
    has found every free variable sent to itself by the map. *)
Lemma typeEqNaive_refl_inv t : forall m,
  uniqueFields t = true ->
  typeEqNaive t t m = Ret true ->
  forall z, z ∈ freeVars t -> m !! z = Some z.
Proof.
  induction t as [| |params retType IHp IHr|props IHp|name body IH|name]
    using Ty_ind; intros m Hu H z Hz.
  - by apply elem_of_nil in Hz.
  - by apply elem_of_nil in Hz.
  - apply uniqueFields_Func in Hu as [Hup Hur].
    rewrite typeEqNaive_Func_Func in H by done.
    match type of H with context [forIndex ?f 0 params] =>
      destruct (forIndex f 0 params) as [[]| |] eqn:E end; try discriminate.
    apply freeVars_Func in Hz as [(p & Hp & Hz)|Hz].
    + apply list_elem_of_lookup_1 in Hp as Hk. destruct Hk as [k Hk].
      pose proof (proj1 (forIndex_true _ _ _) E k p Hk) as Hb. simpl in Hb.
      rewrite Hk in Hb. rewrite Forall_forall in IHp.
      by apply (IHp p Hp m (Hup p Hp) Hb).
    + by apply (IHr m).
  - apply uniqueFields_Object in Hu as [Hnd Hup].
    rewrite typeEqNaive_Object_Object in H by done.
    apply forEach_true in H. rewrite Forall_forall in H.
    apply freeVars_Object in Hz as (p & Hp & Hz).
    pose proof (H p Hp) as Hb. simpl in Hb.
    rewrite (findProp_unique _ _ Hnd Hp) in Hb.
    rewrite Forall_forall in IHp. by apply (IHp p Hp m (Hup p Hp) Hb).
  - simpl in Hu, H. apply freeVars_Rec in Hz as [Hne Hz].
    pose proof (IH _ Hu H z Hz) as Hm. by rewrite lookup_insert_ne in Hm.
  - apply freeVars_TypeVar in Hz as ->. simpl in H.
    destruct (m !! name) as [v|]; [|discriminate].
    injection H as H. by apply String.eqb_eq in H as ->.
Qed.

(** A comparison of a type with its respelling ([x] written [y]) that
    answers [true] has found [x] sent to [y] and every other free variable
    sent to itself. *)
Lemma typeEqNaive_rename_inv b x y : forall m,
  uniqueFields b = true ->
  typeEqNaive b (expandType b x (TypeVar y)) m = Ret true ->
  forall z, z ∈ freeVars b -> m !! z = Some (if decide (z = x) then y else z).
Proof.
  induction b as [| |params retType IHp IHr|props IHp|name body IH|name]
    using Ty_ind; intros m Hu H z Hz.
  - by apply elem_of_nil in Hz.
  - by apply elem_of_nil in Hz.
  - apply uniqueFields_Func in Hu as [Hup Hur]. simpl expandType in H. unfold fn in H.
    rewrite typeEqNaive_Func_Func in H by (by rewrite length_fmap).
    match type of H with context [forIndex ?f 0 ?l] =>
      destruct (forIndex f 0 l) as [[]| |] eqn:E end; try discriminate.
    apply freeVars_Func in Hz as [(p & Hp & Hz)|Hz].
    + apply list_elem_of_lookup_1 in Hp as Hk. destruct Hk as [k Hk].
      pose proof (proj1 (forIndex_true _ _ _) E k (p.1, expandType p.2 x (TypeVar y)))
        as Hb.
      simpl in Hb. rewrite list_lookup_fmap, Hk in Hb. specialize (Hb eq_refl).
      rewrite Forall_forall in IHp.
      by apply (IHp p Hp m (Hup p Hp) Hb).
    + by apply (IHr m).
  - apply uniqueFields_Object in Hu as [Hnd Hup]. simpl expandType in H.
    unfold object in H.
    rewrite typeEqNaive_Object_Object in H by (by rewrite length_fmap).
    apply forEach_true in H. rewrite Forall_forall in H.
    apply freeVars_Object in Hz as (p & Hp & Hz).
    pose proof (H (p.1, expandType p.2 x (TypeVar y))) as Hb. simpl in Hb.
    rewrite (findProp_unique _ _ Hnd Hp) in Hb.
    rewrite Forall_forall in IHp.
    apply (IHp p Hp m (Hup p Hp)); [|done].
    apply Hb. apply list_elem_of_fmap. by exists p.
  - simpl in Hu. apply freeVars_Rec in Hz as [Hne Hz]. simpl expandType in H.
    destruct (String.eqb name x) eqn:E.
    + apply String.eqb_eq in E as ->. simpl in H.
      pose proof (typeEqNaive_refl_inv body _ Hu H z Hz) as Hm.
      rewrite lookup_insert_ne in Hm by done.
      by destruct (decide (z = x)).
    + simpl in H. pose proof (IH _ Hu H z Hz) as Hm.
      by rewrite lookup_insert_ne in Hm.
  - apply freeVars_TypeVar in Hz as ->. simpl expandType in H.
    destruct (String.eqb name x) eqn:E.
    + apply String.eqb_eq in E as ->. simpl in H.
      destruct (m !! x) as [v|]; [|discriminate].
      injection H as H. apply String.eqb_eq in H as ->.
      by destruct (decide (x = x)).
    + apply String.eqb_neq in E. simpl in H.
      destruct (m !! name) as [v|]; [|discriminate].
      injection H as H. apply String.eqb_eq in H as ->.
      by destruct (decide (name = x)).
Qed.

(** C10 (amended).  [typeEqNaive] relates two [Rec] types by comparing
    the bodies under the map extended with the left bound name sent to the
    right one, for every map.  A [Rec] type and its respelling (the bound
    name [x] written [y], bodies otherwise identical) are equal under
    exactly the maps that send every free variable of the type to itself:
    under every map when the type is closed, not under every map otherwise.
    A binder respelled without its occurrences in the body is not equal to
    the original.  (Field names unique.) *)
Theorem C10_typeEqNaive_Rec_Rec (x y : string) (b1 : Ty) (m : TypeVarNameMap) :
  (forall b2,
     typeEqNaive (Rec x b1) (Rec y b2) m = typeEqNaive b1 b2 (<[x := y]> m))
  /\ (uniqueFields b1 = true ->
      (typeEqNaive (Rec x b1) (Rec y (expandType b1 x (TypeVar y))) m = Ret true
       <-> forall z, z ∈ freeVars (Rec x b1) -> m !! z = Some z))
  /\ (uniqueFields b1 = true -> closed (Rec x b1) ->
      typeEqNaive (Rec x b1) (Rec y (expandType b1 x (TypeVar y))) m = Ret true)
  /\ (uniqueFields b1 = true -> x ∈ freeVars b1 -> x <> y ->
      typeEqNaive (Rec x b1) (Rec y b1) m <> Ret true).
Proof.
  assert (uniqueFields b1 = true ->
          (forall z, z ∈ freeVars (Rec x b1) -> m !! z = Some z) ->
          typeEqNaive (Rec x b1) (Rec y (expandType b1 x (TypeVar y))) m = Ret true)
    as Hif.
  { intros Hu Hm. simpl. apply typeEqNaive_rename; [done| |].
    - intros z Hz Hzx. rewrite lookup_insert_ne by done. apply Hm.
      by apply freeVars_Rec.
    - by rewrite lookup_insert_eq. }
  split; [reflexivity|]. split; [|split].
  - intros Hu. split; [|by apply Hif].
    intros H z Hz. apply freeVars_Rec in Hz as [Hne Hz]. simpl in H.
    pose proof (typeEqNaive_rename_inv b1 x y _ Hu H z Hz) as Hm.
    rewrite lookup_insert_ne in Hm by done.
    by destruct (decide (z = x)).
  - intros Hu Hc. apply Hif; [done|]. intros z Hz.
    by apply (closed_not_free _ z) in Hc.
  - intros Hu Hx Hne H. simpl in H.
    pose proof (typeEqNaive_refl_inv b1 _ Hu H x Hx) as Hm.
    rewrite lookup_insert_eq in Hm. congruence.
Qed.

Lemma C10_typeEqNaive_Rec_Rec_witness :
  typeEqNaive
    (Rec "X" (Object [("num", Number); ("rest", Func [] (TypeVar "X"))]))
    (Rec "Y" (Object [("num", Number); ("rest", Func [] (TypeVar "Y"))]))
    {["Z" := "W"]} = Ret true.
Proof.
  apply (proj1 (proj2 (proj2 (C10_typeEqNaive_Rec_Rec "X" "Y"
                  (Object [("num", Number); ("rest", Func [] (TypeVar "X"))])
                  {["Z" := "W"]})))).
  - reflexivity.
  - reflexivity.
Defined.

(** C10, as stated, does not hold: "equal for every binding map" fails on
    a type with a free variable.  [μX. () => Z] and its respelling
    [μY. () => Z] are not equal under the map that sends [Z] to [W], and
    the comparison throws under the empty map. *)
Lemma C10_respelling_not_equal_under_every_map :
  expandType (Func [] (TypeVar "Z")) "X" (TypeVar "Y") = Func [] (TypeVar "Z")
  /\ typeEqNaive (Rec "X" (Func [] (TypeVar "Z"))) (Rec "Y" (Func [] (TypeVar "Z")))
       {["Z" := "W"]} = Ret false
  /\ typeEqNaive (Rec "X" (Func [] (TypeVar "Z"))) (Rec "Y" (Func [] (TypeVar "Z")))
       ∅ = Throw "unknown type variable: Z".
Proof. repeat split; reflexivity. Qed.

(** *** Records under [typeEqNaive] *)

Lemma typeEqNaive_Object_length props1 props2 m :
  typeEqNaive (Object props1) (Object props2) m = Ret true ->
  length props1 = length props2.
Proof.
  simpl. destruct (Nat.eqb_spec (length props1) (length props2)); [done|].
  discriminate.
Qed.

Lemma typeEqNaive_Object_iff props1 props2 m :
  NoDup props1.*1 ->
  typeEqNaive (Object props1) (Object props2) m = Ret true <->
  length props1 = length props2 /\
  forall p2, p2 ∈ props2 ->
    exists p1, p1 ∈ props1 /\ p1.1 = p2.1 /\ typeEqNaive p1.2 p2.2 m = Ret true.
Proof.
  intros Hnd. split.
  - intros H. pose proof (typeEqNaive_Object_length _ _ _ H) as Hlen.
    split; [done|]. rewrite typeEqNaive_Object_Object in H by done.
    apply forEach_true in H. rewrite Forall_forall in H.
    intros p2 Hp2. specialize (H p2 Hp2). simpl in H.
    destruct (findProp p2.1 props1) as [p1|] eqn:E; [|discriminate].
    apply findProp_Some in E as [Hin Hname]. by exists p1.
  - intros [Hlen H]. rewrite typeEqNaive_Object_Object by done.
    apply forEach_true. apply Forall_forall. intros p2 Hp2.
    destruct (H p2 Hp2) as (p1 & Hin & Hname & Heq).
    rewrite <- Hname. by rewrite (findProp_unique _ _ Hnd Hin).
Qed.

Lemma typeEqNaive_Object_left t1 props2 m :
  typeEqNaive t1 (Object props2) m = Ret true -> exists props1, t1 = Object props1.
Proof. destruct t1; try discriminate. intros _. by eexists. Qed.

(** C8.  On records with unique field names (the data model's invariant),
    [typeEqNaive] answers true exactly when the field counts agree and every
    field of the right record has a same-named field on the left with an
    equivalent type; the answer does not depend on the order of the fields;
    a field present on one side only makes the records different; and only
    a record equals a record. *)
Theorem C8_record_equality_is_exact
    (props1 props2 : list PropertyType) (m : TypeVarNameMap) :
  NoDup props1.*1 -> NoDup props2.*1 ->
  (typeEqNaive (Object props1) (Object props2) m = Ret true <->
   length props1 = length props2 /\
   forall p2, p2 ∈ props2 ->
     exists p1, p1 ∈ props1 /\ p1.1 = p2.1 /\ typeEqNaive p1.2 p2.2 m = Ret true)
  /\ (forall props1' props2', props1' ≡ₚ props1 -> props2' ≡ₚ props2 ->
        (typeEqNaive (Object props1') (Object props2') m = Ret true <->
         typeEqNaive (Object props1) (Object props2) m = Ret true))
  /\ (forall p, (p ∈ props1 /\ p.1 ∉ props2.*1) \/ (p ∈ props2 /\ p.1 ∉ props1.*1) ->
        typeEqNaive (Object props1) (Object props2) m <> Ret true)
  /\ (forall t1, typeEqNaive t1 (Object props2) m = Ret true ->
        exists props, t1 = Object props).
Proof.
  intros Hnd1 Hnd2. split; [by apply typeEqNaive_Object_iff|]. split; [|split].
  - intros props1' props2' Hp1 Hp2.
    assert (NoDup props1'.*1) as Hnd1' by (by rewrite Hp1).
    rewrite !typeEqNaive_Object_iff by done.
    rewrite Hp1, Hp2. split; intros [Hlen H]; (split; [done|]).
    + intros p2 Hin. rewrite <- Hp2 in Hin.
      destruct (H p2 Hin) as (p1 & Hin1 & ?). exists p1. by rewrite <- Hp1.
    + intros p2 Hin. rewrite Hp2 in Hin.
      destruct (H p2 Hin) as (p1 & Hin1 & ?). exists p1. by rewrite Hp1.
  - intros p Hp Heq. apply typeEqNaive_Object_iff in Heq as [Hlen H]; [|done].
    destruct Hp as [[Hin Hout]|[Hin Hout]].
    + assert (props2.*1 ⊆+ props1.*1) as Hsub.
      { apply NoDup_submseteq; [done|]. intros n Hn.
        apply list_elem_of_fmap in Hn as (p2 & -> & Hp2).
        destruct (H p2 Hp2) as (p1 & Hp1 & <- & _).
        by apply list_elem_of_fmap_2. }
      apply submseteq_length_Permutation in Hsub; [|rewrite !length_fmap; lia].
      apply Hout. rewrite Hsub. by apply list_elem_of_fmap_2.
    + destruct (H p Hin) as (p1 & Hp1 & Hname & _).
      apply Hout. rewrite <- Hname. by apply list_elem_of_fmap_2.
  - intros t1. apply typeEqNaive_Object_left.
Qed.

Lemma C8_record_equality_is_exact_witness :
  typeEqNaive (Object [("a", Number); ("b", Boolean)])
              (Object [("b", Boolean); ("a", Number)]) ∅ = Ret true
  /\ typeEqNaive (Object [("a", Number); ("b", Boolean)])
                 (Object [("a", Number); ("c", Boolean)]) ∅ <> Ret true.
Proof.
  split.
  - apply (proj2 (proj1 (C8_record_equality_is_exact
                           [("a", Number); ("b", Boolean)]
                           [("b", Boolean); ("a", Number)] ∅
                           ltac:(compute_done)
                           ltac:(compute_done)))).
    split; [reflexivity|]. intros p2 Hp2.
    apply elem_of_cons in Hp2 as [->|Hp2].
    + exists ("b", Boolean). split; [|done]. apply elem_of_cons. right.
      apply elem_of_cons. by left.
    + apply elem_of_cons in Hp2 as [->|Hp2]; [|by apply elem_of_nil in Hp2].
      exists ("a", Number). split; [|done]. apply elem_of_cons. by left.
  - apply (proj1 (proj2 (proj2 (C8_record_equality_is_exact
                           [("a", Number); ("b", Boolean)]
                           [("a", Number); ("c", Boolean)] ∅
                           ltac:(compute_done)
                           ltac:(compute_done))))
             ("b", Boolean)).
    left. split.
    + apply elem_of_cons. right. apply elem_of_cons. by left.
    + simpl. intros H. apply elem_of_cons in H as [H|H]; [discriminate|].
      apply elem_of_cons in H as [H|H]; [discriminate|].
      by apply elem_of_nil in H.
Defined.

(** The sibling of poly.ts's [typeEqRec]: against a type variable,
    [typeEqNaive] answers true exactly when the left type is a variable that
    the map sends to the right name, and throws when the map has no entry. *)
Lemma typeEqNaive_TypeVar_iff t1 name m :
  typeEqNaive t1 (TypeVar name) m = Ret true <->
  exists name1, t1 = TypeVar name1 /\ m !! name1 = Some name.
Proof.
  split.
  - destruct t1 as [| | | | |name1]; try discriminate. simpl.
    destruct (m !! name1) as [bound|] eqn:E; [|discriminate].
    intros H. injection H as H. apply String.eqb_eq in H as ->. by exists name1.
  - intros (name1 & -> & E). simpl. rewrite E. by rewrite String.eqb_refl.
Qed.

Lemma typeEqNaive_TypeVar_unbound name1 name m :
  m !! name1 = None ->
  typeEqNaive (TypeVar name1) (TypeVar name) m =
  Throw ("unknown type variable: " +:+ name1).
Proof. intros E. simpl. by rewrite E. Qed.

(** ** Equality and subtyping as one comparison

    [Rec.typeEqSub] and [Sub.subtypeSub] differ in two places only: the
    direction in which parameters are compared and the field-count test on
    records.  The proofs below are carried out once, on [relSub], which
    takes the mode as an argument. *)

Inductive mode : Type := Equality | Subtyping.

#[global] Instance mode_eq_dec : EqDecision mode.
Proof. solve_decision. Defined.

Fixpoint relSub (md : mode) (fuel : nat) (type1 type2 : Ty) (seen : list SeenTypePair)
  : result bool :=
  match fuel with
  | 0 => Diverge
  | S fuel =>
      match hasSeen type1 type2 seen with
      | Ret true => Ret true
      | Ret false =>
          if isRec type1 then
            u ← unwrapRecType fuel type1;
            relSub md fuel u type2 (seen ++ [(type1, type2)])
          else if isRec type2 then
            u ← unwrapRecType fuel type2;
            relSub md fuel type1 u (seen ++ [(type1, type2)])
          else
            match type2 with
            | Boolean | Number => Ret (sameTag type1 type2)
            | Func params2 retType2 =>
                match type1 with
                | Func params1 retType1 =>
                    if negb (Nat.eqb (length params1) (length params2)) then Ret false
                    else
                      match
                        forIndex (fun i (p2 : Param) =>
                                    match params1 !! i with
                                    | Some p1 =>
                                        match md with
                                        | Equality => relSub md fuel p1.2 p2.2 seen
                                        | Subtyping => relSub md fuel p2.2 p1.2 seen
                                        end
                                    | None => Throw "TypeError: type1.params[i] is undefined"
                                    end) 0 params2
                      with
                      | Ret true => relSub md fuel retType1 retType2 seen
                      | r => r
                      end
                | _ => Ret false
                end
            | Object props2 =>
                match type1 with
                | Object props1 =>
                    if match md with
                       | Equality => negb (Nat.eqb (length props1) (length props2))
                       | Subtyping => false
                       end
                    then Ret false
                    else
                      forEach (fun prop2 : PropertyType =>
                                 match findProp prop2.1 props1 with
                                 | None => Ret false
                                 | Some prop1 => relSub md fuel prop1.2 prop2.2 seen
                                 end) props2
                | _ => Ret false
                end
            | TypeVar _ => Throw "unreachable"
            | Rec _ _ => Throw "Invalid term type: [object Object]"
            end
      | r => r
      end
  end.

Lemma typeEqSub_relSub fuel : forall type1 type2 seen,
  typeEqSub fuel type1 type2 seen = relSub Equality fuel type1 type2 seen.
Proof.
  induction fuel as [|fuel IH]; intros type1 type2 seen; [done|].
  simpl. destruct (hasSeen type1 type2 seen) as [[]| |]; try done.
  destruct (isRec type1).
  { destruct (unwrapRecType fuel type1); simpl; [apply IH|done|done]. }
  destruct (isRec type2).
  { destruct (unwrapRecType fuel type2); simpl; [apply IH|done|done]. }
  destruct type2 as [| |params2 retType2|props2| |]; try done.
  - destruct type1 as [| |params1 retType1| | |]; try done.
    destruct (negb _); [done|]. rewrite IH.
    erewrite forIndex_ext; [reflexivity|].
    intros k x _. simpl. destruct (params1 !! k); [apply IH|done].
  - destruct type1 as [| | |props1| |]; try done.
    destruct (negb _); [done|].
    apply forEach_ext. intros x _. destruct (findProp x.1 props1); [apply IH|done].
Qed.

Lemma subtypeSub_relSub fuel : forall sub sup seen,
  Sub.subtypeSub fuel sub sup seen = relSub Subtyping fuel sub sup seen.
Proof.
  induction fuel as [|fuel IH]; intros sub sup seen; [done|].
  simpl. destruct (hasSeen sub sup seen) as [[]| |]; try done.
  destruct (isRec sub).
  { destruct (unwrapRecType fuel sub); simpl; [apply IH|done|done]. }
  destruct (isRec sup).
  { destruct (unwrapRecType fuel sup); simpl; [apply IH|done|done]. }
  destruct sup as [| |params2 retType2|props2| |]; try done.
  - destruct sub as [| |params1 retType1| | |]; try done.
    destruct (negb _); [done|]. rewrite IH.
    erewrite forIndex_ext; [reflexivity|].
    intros k x _. simpl. destruct (params1 !! k); [apply IH|done].
  - destruct sub as [| | |props1| |]; try done.
    apply forEach_ext. intros x _. destruct (findProp x.1 props1); [apply IH|done].
Qed.

(** *** More fuel does not change an outcome *)

Lemma unwrapRecType_mono n : forall m t r,
  n <= m -> unwrapRecType n t = r -> r <> Diverge -> unwrapRecType m t = r.
Proof.
  induction n as [|n IH]; intros m t r Hle H Hr.
  - destruct t; simpl in H; try (destruct m; simpl; congruence).
  - destruct t; simpl in H; try (destruct m; simpl; congruence).
    destruct m as [|m]; [lia|]. simpl. apply IH; [lia|done|done].
Qed.

Lemma relSub_mono md n : forall m type1 type2 seen r,
  n <= m -> relSub md n type1 type2 seen = r -> r <> Diverge ->
  relSub md m type1 type2 seen = r.
Proof.
  induction n as [|n IH]; intros m type1 type2 seen r Hle H Hr; [simpl in H; congruence|].
  destruct m as [|m]; [lia|]. assert (n <= m) as Hle' by lia.
  simpl in *. destruct (hasSeen type1 type2 seen) as [[]| |]; try done.
  destruct (isRec type1).
  { destruct (unwrapRecType n type1) as [u| |] eqn:E; simpl in H; try congruence.
    - rewrite (unwrapRecType_mono n m type1 (Ret u)) by done. simpl. by apply IH.
    - rewrite (unwrapRecType_mono n m type1 (Throw msg)) by done. done. }
  destruct (isRec type2).
  { destruct (unwrapRecType n type2) as [u| |] eqn:E; simpl in H; try congruence.
    - rewrite (unwrapRecType_mono n m type2 (Ret u)) by done. simpl. by apply IH.
    - rewrite (unwrapRecType_mono n m type2 (Throw msg)) by done. done. }
  destruct type2 as [| |params2 retType2|props2| |]; try done.
  - destruct type1 as [| |params1 retType1| | |]; try done.
    destruct (negb _); [done|].
    match type of H with
    | match ?loop with _ => _ end = _ => destruct loop as [[]| |] eqn:E
    end; try congruence.
    + erewrite forIndex_mono; [| |exact E|done].
      * by apply IH.
      * intros k x r' _ Hf Hr'. simpl in *.
        destruct (params1 !! k); [|done]. destruct md; by apply IH.
    + erewrite forIndex_mono; [| |exact E|done]; [done|].
      intros k x r' _ Hf Hr'. simpl in *.
      destruct (params1 !! k); [|done]. destruct md; by apply IH.
    + erewrite forIndex_mono; [| |exact E|done]; [done|].
      intros k x r' _ Hf Hr'. simpl in *.
      destruct (params1 !! k); [|done]. destruct md; by apply IH.
  - destruct type1 as [| | |props1| |]; try done.
    match goal with |- (if ?c then _ else _) = _ => destruct c end; [done|].
    eapply forEach_mono; [|exact H|done].
    intros x r' _ Hf Hr'. simpl in *.
    destruct (findProp x.1 props1); [|done]. by apply IH.
Qed.

Lemma returns_unique {A : Type} (f : nat -> result A) (a a' : A) :
  (forall n m r, n <= m -> f n = r -> r <> Diverge -> f m = r) ->
  returns f a -> returns f a' -> a = a'.
Proof.
  intros Hmono [n Hn] [m Hm].
  pose proof (Hmono n (n `max` m) _ ltac:(lia) Hn ltac:(done)) as H1.
  pose proof (Hmono m (n `max` m) _ ltac:(lia) Hm ltac:(done)) as H2.
  congruence.
Qed.

(** *** What a comparison returns, independently of fuel *)

Lemma unwrapRecType_not_Rec n t : isRec t = false -> unwrapRecType n t = Ret t.
Proof. destruct t, n; simpl; congruence. Qed.

Lemma unwrapRecType_returns_Rec x body u :
  returns (fun n => unwrapRecType n (Rec x body)) u <->
  returns (fun n => unwrapRecType n (expandType body x (Rec x body))) u.
Proof.
  split; intros [n H].
  - destruct n as [|n]; [discriminate|]. by exists n.
  - by exists (S n).
Qed.

Lemma unwrapRecType_result n t u : unwrapRecType n t = Ret u -> isRec u = false.
Proof.
  revert t. induction n as [|n IH]; intros t H.
  - destruct t; simpl in H; by try injection H as <-.
  - destruct t; simpl in H; try (by injection H as <-). by eapply IH.
Qed.

Lemma hasSeen_true a b seen :
  hasSeen a b seen = Ret true ->
  exists s, s ∈ seen /\ typeEqNaive s.1 a ∅ = Ret true /\ typeEqNaive s.2 b ∅ = Ret true.
Proof.
  induction seen as [|[s1 s2] seen IH]; simpl; [discriminate|].
  destruct (typeEqNaive s1 a ∅) as [[]| |] eqn:E1; try discriminate.
  - destruct (typeEqNaive s2 b ∅) as [[]| |] eqn:E2; try discriminate.
    + intros _. exists (s1, s2). split; [apply elem_of_cons; by left|done].
    + intros H. destruct (IH H) as (s & Hs & ?). exists s.
      split; [apply elem_of_cons; by right|done].
  - intros H. destruct (IH H) as (s & Hs & ?). exists s.
    split; [apply elem_of_cons; by right|done].
Qed.

(** On closed seen types no comparison throws, and the scan is a plain
    membership test. *)
Lemma hasSeen_closed a b seen :
  (forall s, s ∈ seen -> closed s.1 /\ closed s.2) ->
  exists r, hasSeen a b seen = Ret r /\
    (r = true <->
     exists s, s ∈ seen /\ typeEqNaive s.1 a ∅ = Ret true /\ typeEqNaive s.2 b ∅ = Ret true).
Proof.
  induction seen as [|[s1 s2] seen IH]; intros Hc.
  - exists false. split; [done|]. split; [done|].
    intros (s & Hs & _). by apply elem_of_nil in Hs.
  - destruct IH as (r & Hr & Hiff).
    { intros s Hs. apply Hc. apply elem_of_cons. by right. }
    destruct (Hc (s1, s2)) as [Hc1 Hc2]; [apply elem_of_cons; by left|]. simpl in *.
    destruct (typeEqNaive_closed_total s1 a Hc1) as [b1 E1].
    destruct (typeEqNaive_closed_total s2 b Hc2) as [b2 E2].
    rewrite E1, E2.
    assert ((exists s, s ∈ (s1, s2) :: seen /\ typeEqNaive s.1 a ∅ = Ret true /\
                       typeEqNaive s.2 b ∅ = Ret true) <->
            (b1 = true /\ b2 = true) \/ r = true) as Hcons.
    { rewrite Hiff. split.
      - intros (s & Hs & H1 & H2). apply elem_of_cons in Hs as [->|Hs].
        + left. simpl in *. split; congruence.
        + right. by exists s.
      - intros [[-> ->]|(s & Hs & H)].
        + exists (s1, s2). split; [apply elem_of_cons; by left|done].
        + exists s. split; [apply elem_of_cons; by right|done]. }
    destruct b1, b2; (eexists; split; [try reflexivity; exact Hr|]);
      rewrite Hcons; split; intros H; try done; try (by right); try (by left);
      by destruct H as [[? ?]|?].
Qed.

Lemma hasSeen_snoc a b seen s :
  hasSeen a b seen = Ret false ->
  hasSeen a b (seen ++ [s]) =
  match typeEqNaive s.1 a ∅ with
  | Ret true => typeEqNaive s.2 b ∅
  | r => r
  end.
Proof.
  induction seen as [|[s1 s2] seen IH]; simpl.
  - intros _. destruct s as [t1 t2]; simpl.
    destruct (typeEqNaive t1 a ∅) as [[]| |]; try done.
    by destruct (typeEqNaive t2 b ∅) as [[]| |].
  - destruct (typeEqNaive s1 a ∅) as [[]| |]; try done.
    by destruct (typeEqNaive s2 b ∅) as [[]| |].
Qed.

Lemma hasSeen_app_true a b seen seen' :
  hasSeen a b seen = Ret true -> hasSeen a b (seen ++ seen') = Ret true.
Proof.
  induction seen as [|[s1 s2] seen IH]; simpl; [discriminate|].
  destruct (typeEqNaive s1 a ∅) as [[]| |]; try done.
  by destruct (typeEqNaive s2 b ∅) as [[]| |].
Qed.


(** The call on parameter [i], and the call on field [prop2]. *)
Definition paramCheck (md : mode) (n : nat) (params1 : list Param) (seen : list SeenTypePair)
    (i : nat) (p2 : Param) : result bool :=
  match params1 !! i with
  | Some p1 =>
      match md with
      | Equality => relSub md n p1.2 p2.2 seen
      | Subtyping => relSub md n p2.2 p1.2 seen
      end
  | None => Throw "TypeError: type1.params[i] is undefined"
  end.

Definition propCheck (md : mode) (n : nat) (props1 : list PropertyType) (seen : list SeenTypePair)
    (prop2 : PropertyType) : result bool :=
  match findProp prop2.1 props1 with
  | None => Ret false
  | Some prop1 => relSub md n prop1.2 prop2.2 seen
  end.

Lemma paramCheck_mono md params1 seen n m k x r :
  n <= m -> paramCheck md n params1 seen k x = r -> r <> Diverge ->
  paramCheck md m params1 seen k x = r.
Proof.
  unfold paramCheck. intros Hle H Hr.
  destruct (params1 !! k); [|done]. destruct md; by eapply relSub_mono.
Qed.

Lemma propCheck_mono md props1 seen n m x r :
  n <= m -> propCheck md n props1 seen x = r -> r <> Diverge ->
  propCheck md m props1 seen x = r.
Proof.
  unfold propCheck. intros Hle H Hr.
  destruct (findProp x.1 props1); [|done]. by eapply relSub_mono.
Qed.

Lemma relSub_seen md n a b seen :
  hasSeen a b seen = Ret true -> relSub md (S n) a b seen = Ret true.
Proof. intros H. simpl. by rewrite H. Qed.

Lemma relSub_Rec_left md a b seen r :
  hasSeen a b seen = Ret false -> isRec a = true ->
  returns (fun n => relSub md n a b seen) r <->
  exists u, returns (fun n => unwrapRecType n a) u /\
            returns (fun n => relSub md n u b (seen ++ [(a, b)])) r.
Proof.
  intros Hs Ha. split.
  - intros [[|n] H]; [discriminate|]. simpl in H. rewrite Hs, Ha in H.
    destruct (unwrapRecType n a) as [u| |] eqn:E; try discriminate.
    exists u. split; by exists n.
  - intros (u & [n1 H1] & [n2 H2]). exists (S (n1 `max` n2)).
    simpl. rewrite Hs, Ha.
    rewrite (unwrapRecType_mono n1 _ a (Ret u)) by (done || lia). simpl.
    eapply relSub_mono; [|exact H2|done]. lia.
Qed.

Lemma relSub_Rec_right md a b seen r :
  hasSeen a b seen = Ret false -> isRec a = false -> isRec b = true ->
  returns (fun n => relSub md n a b seen) r <->
  exists u, returns (fun n => unwrapRecType n b) u /\
            returns (fun n => relSub md n a u (seen ++ [(a, b)])) r.
Proof.
  intros Hs Ha Hb. split.
  - intros [[|n] H]; [discriminate|]. simpl in H. rewrite Hs, Ha, Hb in H.
    destruct (unwrapRecType n b) as [u| |] eqn:E; try discriminate.
    exists u. split; by exists n.
  - intros (u & [n1 H1] & [n2 H2]). exists (S (n1 `max` n2)).
    simpl. rewrite Hs, Ha, Hb.
    rewrite (unwrapRecType_mono n1 _ b (Ret u)) by (done || lia). simpl.
    eapply relSub_mono; [|exact H2|done]. lia.
Qed.

Lemma relSub_Func_step md n params1 retType1 params2 retType2 seen :
  hasSeen (Func params1 retType1) (Func params2 retType2) seen = Ret false ->
  length params1 = length params2 ->
  relSub md (S n) (Func params1 retType1) (Func params2 retType2) seen =
  match forIndex (paramCheck md n params1 seen) 0 params2 with
  | Ret true => relSub md n retType1 retType2 seen
  | r => r
  end.
Proof. intros Hs E. simpl. rewrite Hs, E, Nat.eqb_refl. reflexivity. Qed.

Lemma relSub_Func_true md params1 retType1 params2 retType2 seen :
  hasSeen (Func params1 retType1) (Func params2 retType2) seen = Ret false ->
  returns (fun n => relSub md n (Func params1 retType1) (Func params2 retType2) seen) true
  <->
  length params1 = length params2
  /\ (forall i p1 p2, params1 !! i = Some p1 -> params2 !! i = Some p2 ->
        returns (fun n => match md with
                          | Equality => relSub md n p1.2 p2.2 seen
                          | Subtyping => relSub md n p2.2 p1.2 seen
                          end) true)
  /\ returns (fun n => relSub md n retType1 retType2 seen) true.
Proof.
  intros Hs. split.
  - intros [[|n] H]; [discriminate|].
    destruct (decide (length params1 = length params2)) as [E|E].
    + rewrite relSub_Func_step in H by done.
      destruct (forIndex _ _ _) as [[]| |] eqn:El; try discriminate.
      split; [done|]. split; [|by exists n].
      intros i p1 p2 H1 H2. exists n.
      pose proof (proj1 (forIndex_true _ _ _) El i p2 H2) as Hc.
      unfold paramCheck in Hc. simpl in Hc. by rewrite H1 in Hc.
    + simpl in H. rewrite Hs in H. apply Nat.eqb_neq in E. by rewrite E in H.
  - intros (E & Hp & [n2 Hr]).
    destruct (proj2 (forIndex_returns_true
                       (fun n => paramCheck md n params1 seen) params2 0
                       (fun n m k x r => paramCheck_mono md params1 seen n m k x r)))
      as [n1 Hl].
    { intros k p2 Hk. simpl. unfold paramCheck.
      destruct (params1 !! k) as [p1|] eqn:E1.
      - by apply (Hp k).
      - apply lookup_ge_None in E1. apply lookup_lt_Some in Hk. lia. }
    exists (S (n1 `max` n2)). rewrite relSub_Func_step by done.
    erewrite forIndex_mono; [| |exact Hl|done].
    + eapply relSub_mono; [|exact Hr|done]. lia.
    + intros k x r _. apply paramCheck_mono. lia.
Qed.

Lemma relSub_Object_step md n props1 props2 seen :
  hasSeen (Object props1) (Object props2) seen = Ret false ->
  (md = Equality -> length props1 = length props2) ->
  relSub md (S n) (Object props1) (Object props2) seen =
  forEach (propCheck md n props1 seen) props2.
Proof.
  intros Hs E. simpl. rewrite Hs. destruct md; [|reflexivity].
  rewrite E, Nat.eqb_refl by done. reflexivity.
Qed.

Lemma relSub_Object_true md props1 props2 seen :
  hasSeen (Object props1) (Object props2) seen = Ret false ->
  NoDup props1.*1 ->
  returns (fun n => relSub md n (Object props1) (Object props2) seen) true
  <->
  (md = Equality -> length props1 = length props2)
  /\ (forall p2, p2 ∈ props2 ->
        exists p1, p1 ∈ props1 /\ p1.1 = p2.1 /\
                   returns (fun n => relSub md n p1.2 p2.2 seen) true).
Proof.
  intros Hs Hnd. split.
  - intros [[|n] H]; [discriminate|].
    assert (md = Equality -> length props1 = length props2) as E.
    { intros ->. simpl in H. rewrite Hs in H.
      destruct (Nat.eqb_spec (length props1) (length props2)); [done|discriminate]. }
    rewrite relSub_Object_step in H by done. split; [done|].
    intros p2 Hp2. apply forEach_true in H. rewrite Forall_forall in H.
    specialize (H p2 Hp2). unfold propCheck in H.
    destruct (findProp p2.1 props1) as [p1|] eqn:Ef; [|discriminate].
    apply findProp_Some in Ef as [Hin Hname]. exists p1.
    split; [done|]. split; [done|]. by exists n.
  - intros [E Hp].
    destruct (proj2 (forEach_returns_true
                       (fun n => propCheck md n props1 seen) props2
                       (fun n m x r => propCheck_mono md props1 seen n m x r)))
      as [n Hl].
    { intros p2 Hp2. destruct (Hp p2 Hp2) as (p1 & Hin & Hname & [n Hn]).
      exists n. unfold propCheck. rewrite <- Hname.
      by rewrite (findProp_unique _ _ Hnd Hin). }
    exists (S n). by rewrite relSub_Object_step.
Qed.

Lemma relSub_base md n a b seen :
  hasSeen a b seen = Ret false -> isRec a = false ->
  b = Boolean \/ b = Number ->
  relSub md (S n) a b seen = Ret (sameTag a b).
Proof.
  intros Hs Ha Hb. simpl. rewrite Hs, Ha. by destruct Hb as [-> | ->].
Qed.

Lemma relSub_TypeVar md n a name seen :
  hasSeen a (TypeVar name) seen = Ret false -> isRec a = false ->
  relSub md (S n) a (TypeVar name) seen = Throw "unreachable".
Proof. intros Hs Ha. simpl. by rewrite Hs, Ha. Qed.


Lemma relSub_tag_mismatch md n a b seen :
  hasSeen a b seen = Ret false -> isRec a = false ->
  (exists params retType, b = Func params retType) \/ (exists props, b = Object props) ->
  sameTag a b = false ->
  relSub md (S n) a b seen = Ret false.
Proof.
  intros Hs Ha Hb Ht. simpl. rewrite Hs, Ha.
  destruct Hb as [(params & retType & ->)|(props & ->)]; by destruct a.
Qed.

Lemma returns_ext {A : Type} (f g : nat -> result A) (a : A) :
  (forall n, f n = g n) -> returns f a <-> returns g a.
Proof.
  intros H. unfold returns. split; intros [n Hn]; exists n; congruence.
Qed.

(** ** The equi-recursive equality [typeEqSub] *)

(** The comparison as the specification words it: a [Recursive] side is
    unfolded by one substitution of its bound name and the comparison is
    retried; everything else is as in [Rec.typeEqSub]. *)
Fixpoint typeEquivalentRec (fuel : nat) (a b : Ty) (seenPairs : list SeenTypePair)
  : result bool :=
  match fuel with
  | 0 => Diverge
  | S fuel =>
      match hasSeen a b seenPairs with
      | Ret true => Ret true
      | Ret false =>
          match a, b with
          | Rec boundName body, _ =>
              typeEquivalentRec fuel (expandType body boundName a) b
                                (seenPairs ++ [(a, b)])
          | _, Rec boundName body =>
              typeEquivalentRec fuel a (expandType body boundName b)
                                (seenPairs ++ [(a, b)])
          | _, (Boolean | Number) => Ret (sameTag a b)
          | Func params1 retType1, Func params2 retType2 =>
              if negb (Nat.eqb (length params1) (length params2)) then Ret false
              else
                match
                  forIndex (fun i (p2 : Param) =>
                              match params1 !! i with
                              | Some p1 => typeEquivalentRec fuel p1.2 p2.2 seenPairs
                              | None => Throw "TypeError: type1.params[i] is undefined"
                              end) 0 params2
                with
                | Ret true => typeEquivalentRec fuel retType1 retType2 seenPairs
                | r => r
                end
          | _, Func _ _ => Ret false
          | Object props1, Object props2 =>
              if negb (Nat.eqb (length props1) (length props2)) then Ret false
              else
                forEach (fun prop2 : PropertyType =>
                           match findProp prop2.1 props1 with
                           | None => Ret false
                           | Some prop1 =>
                               typeEquivalentRec fuel prop1.2 prop2.2 seenPairs
                           end) props2
          | _, Object _ => Ret false
          | _, TypeVar _ => Throw "unreachable"
          end
      | r => r
      end
  end.

Lemma unwrapRecType_loop n : unwrapRecType n (Rec "X" (TypeVar "X")) = Diverge.
Proof. induction n as [|n IH]; [done|]. simpl. exact IH. Qed.

Lemma typeEq_loop b : diverges (fun n => typeEq n (Rec "X" (TypeVar "X")) b).
Proof.
  intros [|n]; [done|]. unfold typeEq. simpl.
  by rewrite unwrapRecType_loop.
Qed.

(** C1, as stated, does not hold: on [μX.X] against [Number] the comparison
    with a one-step unfolding finds the pair again in the seen list and
    answers true, while [typeEqSub] never returns, because [unwrapRecType]
    keeps unfolding as long as the result is a [Rec]. *)
Lemma C1_one_step_unfolding_differs :
  typeEquivalentRec 2 (Rec "X" (TypeVar "X")) Number [] = Ret true
  /\ diverges (fun n => typeEqSub n (Rec "X" (TypeVar "X")) Number []).
Proof. split; [reflexivity | apply typeEq_loop]. Qed.

(** C1 (amended).  [typeEqSub] first scans the seen list, comparing both
    components with [typeEqNaive] under the empty map, and answers true on
    a hit; otherwise a [Rec] on the left is unfolded by [unwrapRecType],
    which substitutes the bound name with the whole node throughout the body
    and repeats while the result is a [Rec], and the comparison is retried
    once with the pair appended to the seen list; the same for a [Rec] on
    the right; otherwise the structural rules apply, with the seen list
    passed on unchanged. *)
Theorem C1_typeEqSub_algorithm (a b : Ty) (seen : list SeenTypePair) :
  (hasSeen a b seen = Ret true -> forall n, typeEqSub (S n) a b seen = Ret true)
  /\ ((forall s, s ∈ seen -> closed s.1 /\ closed s.2) ->
      (hasSeen a b seen = Ret true <->
       exists s, s ∈ seen /\ typeEqNaive s.1 a ∅ = Ret true
                 /\ typeEqNaive s.2 b ∅ = Ret true))
  /\ (hasSeen a b seen = Ret false -> isRec a = true -> forall r,
      returns (fun n => typeEqSub n a b seen) r <->
      exists u, returns (fun n => unwrapRecType n a) u /\
                returns (fun n => typeEqSub n u b (seen ++ [(a, b)])) r)
  /\ (hasSeen a b seen = Ret false -> isRec a = false -> isRec b = true -> forall r,
      returns (fun n => typeEqSub n a b seen) r <->
      exists u, returns (fun n => unwrapRecType n b) u /\
                returns (fun n => typeEqSub n a u (seen ++ [(a, b)])) r)
  /\ (forall x body u,
      returns (fun n => unwrapRecType n (Rec x body)) u <->
      returns (fun n => unwrapRecType n (expandType body x (Rec x body))) u)
  /\ (forall n, isRec a = false -> unwrapRecType n a = Ret a)
  /\ (hasSeen a b seen = Ret false -> isRec a = false ->
      b = Boolean \/ b = Number ->
      forall n, typeEqSub (S n) a b seen = Ret (sameTag a b))
  /\ (forall params1 retType1 params2 retType2,
      a = Func params1 retType1 -> b = Func params2 retType2 ->
      hasSeen a b seen = Ret false ->
      (returns (fun n => typeEqSub n a b seen) true <->
       length params1 = length params2
       /\ (forall i p1 p2, params1 !! i = Some p1 -> params2 !! i = Some p2 ->
             returns (fun n => typeEqSub n p1.2 p2.2 seen) true)
       /\ returns (fun n => typeEqSub n retType1 retType2 seen) true))
  /\ (forall props1 props2,
      a = Object props1 -> b = Object props2 ->
      hasSeen a b seen = Ret false -> NoDup props1.*1 ->
      (returns (fun n => typeEqSub n a b seen) true <->
       length props1 = length props2
       /\ (forall p2, p2 ∈ props2 ->
             exists p1, p1 ∈ props1 /\ p1.1 = p2.1 /\
                        returns (fun n => typeEqSub n p1.2 p2.2 seen) true)))
  /\ (hasSeen a b seen = Ret false -> isRec a = false ->
      (exists params retType, b = Func params retType) \/ (exists props, b = Object props) ->
      sameTag a b = false ->
      forall n, typeEqSub (S n) a b seen = Ret false)
  /\ (forall name, b = TypeVar name ->
      hasSeen a b seen = Ret false -> isRec a = false ->
      forall n, typeEqSub (S n) a b seen = Throw "unreachable").
Proof.
  repeat apply conj.
  - intros H n. rewrite typeEqSub_relSub. by apply relSub_seen.
  - intros Hc. destruct (hasSeen_closed a b seen Hc) as (r & -> & Hiff).
    rewrite <- Hiff. split; congruence.
  - intros Hs Ha r.
    rewrite (returns_ext _ _ r (fun n => typeEqSub_relSub n a b seen)).
    rewrite relSub_Rec_left by done.
    split; intros (u & Hu & H); exists u; (split; [done|]);
      by apply (returns_ext _ _ r (fun n => typeEqSub_relSub n u b _)).
  - intros Hs Ha Hb r.
    rewrite (returns_ext _ _ r (fun n => typeEqSub_relSub n a b seen)).
    rewrite relSub_Rec_right by done.
    split; intros (u & Hu & H); exists u; (split; [done|]);
      by apply (returns_ext _ _ r (fun n => typeEqSub_relSub n a u _)).
  - apply unwrapRecType_returns_Rec.
  - intros n Ha. by apply unwrapRecType_not_Rec.
  - intros Hs Ha Hb n. rewrite typeEqSub_relSub. by apply relSub_base.
  - intros params1 retType1 params2 retType2 -> -> Hs.
    rewrite (returns_ext _ _ true (fun n => typeEqSub_relSub n _ _ seen)).
    rewrite relSub_Func_true by done.
    split; intros (Hl & Hp & Hr); (split; [done|]); split.
    + intros i p1 p2 H1 H2.
      apply (returns_ext _ _ true (fun n => typeEqSub_relSub n _ _ seen)).
      by apply (Hp i).
    + by apply (returns_ext _ _ true (fun n => typeEqSub_relSub n _ _ seen)).
    + intros i p1 p2 H1 H2.
      apply (returns_ext _ _ true (fun n => typeEqSub_relSub n p1.2 p2.2 seen)).
      by apply (Hp i).
    + by apply (returns_ext _ _ true (fun n => typeEqSub_relSub n retType1 retType2 seen)).
  - intros props1 props2 -> -> Hs Hnd.
    rewrite (returns_ext _ _ true (fun n => typeEqSub_relSub n _ _ seen)).
    rewrite relSub_Object_true by done.
    split; intros (Hl & Hp); (split; [by auto|]); intros p2 Hp2;
      destruct (Hp p2 Hp2) as (p1 & Hin & Hname & Hr); exists p1;
      (split; [done|]); (split; [done|]);
      by apply (returns_ext _ _ true (fun n => typeEqSub_relSub n p1.2 p2.2 seen)).
  - intros Hs Ha Hb Ht n. rewrite typeEqSub_relSub. by apply relSub_tag_mismatch.
  - intros name -> Hs Ha n. rewrite typeEqSub_relSub. by apply relSub_TypeVar.
Qed.

(** The stream type of rec.ts's own example, compared with itself: the left
    side is unfolded, then the right side, and the nested occurrence is
    found in the seen list. *)
Lemma C1_typeEqSub_algorithm_witness :
  returns (fun n =>
    typeEqSub n
      (Rec "X" (Object [("num", Number); ("rest", Func [] (TypeVar "X"))]))
      (Rec "X" (Object [("num", Number); ("rest", Func [] (TypeVar "X"))])) []) true.
Proof.
  apply (proj1 (proj2 (proj2 (C1_typeEqSub_algorithm
           (Rec "X" (Object [("num", Number); ("rest", Func [] (TypeVar "X"))]))
           (Rec "X" (Object [("num", Number); ("rest", Func [] (TypeVar "X"))]))
           []))) eq_refl eq_refl true).
  eexists. split; [by exists 1 | by exists 5].
Defined.

(** ** Subtyping *)

(** C3.  On records, subtyping is width subtyping: [sub] (with unique field
    names) is a subtype of [sup] exactly when every field of [sup] has a
    same-named field in [sub] whose type is a subtype; further fields of
    [sub] are allowed; [{foo: Number, bar: Number}] is a subtype of
    [{foo: Number}] and not the other way round. *)
Theorem C3_record_width_subtyping :
  (forall props1 props2 : list PropertyType,
     NoDup props1.*1 ->
     (returns (fun n => Sub.subtype n (Object props1) (Object props2)) true <->
      forall p2, p2 ∈ props2 ->
        exists p1, p1 ∈ props1 /\ p1.1 = p2.1 /\
                   returns (fun n => Sub.subtype n p1.2 p2.2) true))
  /\ (forall props1 extra props2 : list PropertyType,
        NoDup props1.*1 -> NoDup (props1 ++ extra).*1 ->
        returns (fun n => Sub.subtype n (Object props1) (Object props2)) true ->
        returns (fun n => Sub.subtype n (Object (props1 ++ extra)) (Object props2)) true)
  /\ returns (fun n => Sub.subtype n (Object [("foo", Number); ("bar", Number)])
                                     (Object [("foo", Number)])) true
  /\ returns (fun n => Sub.subtype n (Object [("foo", Number)])
                                     (Object [("foo", Number); ("bar", Number)])) false.
Proof.
  assert (forall props1 props2 : list PropertyType,
     NoDup props1.*1 ->
     (returns (fun n => Sub.subtype n (Object props1) (Object props2)) true <->
      forall p2, p2 ∈ props2 ->
        exists p1, p1 ∈ props1 /\ p1.1 = p2.1 /\
                   returns (fun n => Sub.subtype n p1.2 p2.2) true)) as Hiff.
  { intros props1 props2 Hnd. unfold Sub.subtype.
    rewrite (returns_ext _ _ true (fun n => subtypeSub_relSub n _ _ [])).
    rewrite relSub_Object_true by done.
    split.
    - intros [_ Hp] p2 Hp2. destruct (Hp p2 Hp2) as (p1 & Hin & Hname & Hr).
      exists p1. split; [done|]. split; [done|].
      by apply (returns_ext _ _ true (fun n => subtypeSub_relSub n p1.2 p2.2 [])).
    - intros Hp. split; [done|]. intros p2 Hp2.
      destruct (Hp p2 Hp2) as (p1 & Hin & Hname & Hr).
      exists p1. split; [done|]. split; [done|].
      by apply (returns_ext _ _ true (fun n => subtypeSub_relSub n p1.2 p2.2 [])). }
  split; [exact Hiff|]. split; [|split].
  - intros props1 extra props2 Hnd Hnd' H. apply Hiff; [done|].
    intros p2 Hp2. destruct (proj1 (Hiff props1 props2 Hnd) H p2 Hp2)
      as (p1 & Hin & Hrest).
    exists p1. split; [apply elem_of_app; by left | done].
  - by exists 2.
  - by exists 2.
Qed.

Lemma C3_record_width_subtyping_witness :
  returns (fun n => Sub.subtype n
                      (Object [("foo", Number); ("bar", Object [("a", Boolean)])])
                      (Object [("bar", Object [])])) true.
Proof.
  apply (proj2 (proj1 C3_record_width_subtyping
                  [("foo", Number); ("bar", Object [("a", Boolean)])]
                  [("bar", Object [])] ltac:(compute_done))).
  intros p2 Hp2. apply elem_of_cons in Hp2 as [->|Hp2]; [|by apply elem_of_nil in Hp2].
  exists ("bar", Object [("a", Boolean)]).
  split; [apply elem_of_cons; right; apply elem_of_cons; by left|].
  split; [done|]. by exists 1.
Defined.

(** C4, as stated, does not hold: its example has the direction reversed.
    A function taking [{foo: Number, bar: Boolean}] is not a subtype of one
    taking [{foo: Number}]; the reverse call is the one that answers true
    (as the tests of sub.test.ts expect). *)
Lemma C4_example_direction_reversed :
  returns (fun n => Sub.subtype n
             (Func [("x", Object [("foo", Number); ("bar", Boolean)])] Number)
             (Func [("x", Object [("foo", Number)])] Number)) false
  /\ returns (fun n => Sub.subtype n
             (Func [("x", Object [("foo", Number)])] Number)
             (Func [("x", Object [("foo", Number); ("bar", Boolean)])] Number)) true.
Proof. split; by exists 3. Qed.

(** C4 (amended).  On functions, subtyping is contravariant in the
    parameters and covariant in the return type: [Func params1 retType1] is
    a subtype of [Func params2 retType2] exactly when the parameter counts
    are equal, [retType1] is a subtype of [retType2], and at every position
    the parameter of the second is a subtype of the parameter of the first;
    so a function taking [{foo: Number}] is a subtype of one taking
    [{foo: Number, bar: Boolean}] (same return type), and not the other way
    round. *)
Theorem C4_function_variance :
  (forall (params1 params2 : list Param) (retType1 retType2 : Ty),
     returns (fun n => Sub.subtype n (Func params1 retType1) (Func params2 retType2)) true
     <->
     length params1 = length params2
     /\ returns (fun n => Sub.subtype n retType1 retType2) true
     /\ (forall i p1 p2, params1 !! i = Some p1 -> params2 !! i = Some p2 ->
           returns (fun n => Sub.subtype n p2.2 p1.2) true))
  /\ returns (fun n => Sub.subtype n
                (Func [("x", Object [("foo", Number)])] Number)
                (Func [("x", Object [("foo", Number); ("bar", Boolean)])] Number)) true
  /\ returns (fun n => Sub.subtype n
                (Func [("x", Object [("foo", Number); ("bar", Boolean)])] Number)
                (Func [("x", Object [("foo", Number)])] Number)) false.
Proof.
  split; [|split; by exists 3].
  intros params1 params2 retType1 retType2. unfold Sub.subtype.
  rewrite (returns_ext _ _ true (fun n => subtypeSub_relSub n _ _ [])).
  rewrite relSub_Func_true by done.
  split.
  - intros (Hl & Hp & Hr). split; [done|]. split.
    + by apply (returns_ext _ _ true (fun n => subtypeSub_relSub n retType1 retType2 [])).
    + intros i p1 p2 H1 H2.
      apply (returns_ext _ _ true (fun n => subtypeSub_relSub n p2.2 p1.2 [])).
      by apply (Hp i).
  - intros (Hl & Hr & Hp). split; [done|]. split.
    + intros i p1 p2 H1 H2.
      apply (returns_ext _ _ true (fun n => subtypeSub_relSub n p2.2 p1.2 [])).
      by apply (Hp i).
    + by apply (returns_ext _ _ true (fun n => subtypeSub_relSub n retType1 retType2 [])).
Qed.

Lemma C4_function_variance_witness :
  returns (fun n => Sub.subtype n
             (Func [("x", Object [("foo", Number)])]
                   (Object [("foo", Number); ("bar", Boolean); ("baz", Boolean)]))
             (Func [("y", Object [("foo", Number); ("bar", Boolean)])]
                   (Object [("foo", Number); ("bar", Boolean)]))) true.
Proof.
  apply (proj2 (proj1 C4_function_variance
                  [("x", Object [("foo", Number)])]
                  [("y", Object [("foo", Number); ("bar", Boolean)])]
                  (Object [("foo", Number); ("bar", Boolean); ("baz", Boolean)])
                  (Object [("foo", Number); ("bar", Boolean)]))).
  split; [done|]. split; [by exists 2|].
  intros [|i] p1 p2 H1 H2; [|done]. injection H1 as <-. injection H2 as <-.
  by exists 2.
Defined.

(** ** Termination of the comparison inside a closed universe of types

    A universe is a finite list of closed types with unique field names
    that contains the components of its [Func] and [Object] members and
    the unwrapping of its [Rec] members.  Inside a universe the comparison
    returns: every unfolding adds to the seen list a pair of the universe
    that was not covered before, and between two unfoldings the types
    compared get smaller. *)

Fixpoint tySize (t : Ty) : nat :=
  match t with
  | Boolean | Number | TypeVar _ => 1
  | Func params retType =>
      S (sum_list_with (fun p : Param => tySize p.2) params + tySize retType)
  | Object props => S (sum_list_with (fun p : PropertyType => tySize p.2) props)
  | Rec _ body => S (tySize body)
  end.

Record universe (U : list Ty) : Prop := {
  univ_closed : forall t, t ∈ U -> closed t;
  univ_unique : forall t, t ∈ U -> uniqueFields t = true;
  univ_Func : forall params retType, Func params retType ∈ U ->
    retType ∈ U /\ forall p, p ∈ params -> p.2 ∈ U;
  univ_Object : forall props, Object props ∈ U -> forall p, p ∈ props -> p.2 ∈ U;
  univ_Rec : forall t, t ∈ U -> isRec t = true ->
    exists u, returns (fun n => unwrapRecType n t) u /\ u ∈ U
}.

Lemma universe_app U1 U2 : universe U1 -> universe U2 -> universe (U1 ++ U2).
Proof.
  intros [c1 q1 f1 o1 r1] [c2 q2 f2 o2 r2]. split.
  - intros t [H|H]%elem_of_app; auto.
  - intros t [H|H]%elem_of_app; auto.
  - intros params retType [H|H]%elem_of_app.
    + destruct (f1 _ _ H) as [Hr Hp]. split; [apply elem_of_app; by left|].
      intros p Hin. apply elem_of_app. left. by apply Hp.
    + destruct (f2 _ _ H) as [Hr Hp]. split; [apply elem_of_app; by right|].
      intros p Hin. apply elem_of_app. right. by apply Hp.
  - intros props [H|H]%elem_of_app p Hin; apply elem_of_app.
    + left. by eapply o1.
    + right. by eapply o2.
  - intros t [H|H]%elem_of_app Ht.
    + destruct (r1 t H Ht) as (u & Hu & Hin). exists u.
      split; [done|]. apply elem_of_app. by left.
    + destruct (r2 t H Ht) as (u & Hu & Hin). exists u.
      split; [done|]. apply elem_of_app. by right.
Qed.

(** The pairs of the universe that the seen list does not cover yet. *)
Definition covered (seen : list SeenTypePair) (pq : Ty * Ty) : bool :=
  match hasSeen pq.1 pq.2 seen with
  | Ret true => true
  | _ => false
  end.

Definition uncovered (U : list Ty) (seen : list SeenTypePair) : nat :=
  length (filter (fun pq => covered seen pq = false) (cprod U U)).

Lemma filter_length_shrinks {A : Type} (P Q : A -> Prop)
    `{!forall x, Decision (P x)} `{!forall x, Decision (Q x)} (l : list A) (x0 : A) :
  (forall x, P x -> Q x) -> x0 ∈ l -> Q x0 -> ~ P x0 ->
  length (filter P l) < length (filter Q l).
Proof.
  intros HPQ. induction l as [|x l IH]; intros Hin HQ HP.
  - by apply elem_of_nil in Hin.
  - assert (length (filter P l) <= length (filter Q l)) as Hle.
    { clear -HPQ. induction l as [|y l IHl]; [done|].
      rewrite !filter_cons. destruct (decide (P y)) as [Hy|Hy].
      - rewrite decide_True by auto. simpl. lia.
      - destruct (decide (Q y)); simpl; lia. }
    rewrite !filter_cons. apply elem_of_cons in Hin as [<-|Hin].
    + rewrite decide_False by done. rewrite decide_True by done. simpl. lia.
    + specialize (IH Hin HQ HP). destruct (decide (P x)) as [Hx|Hx].
      * rewrite decide_True by auto. simpl. lia.
      * destruct (decide (Q x)); simpl; lia.
Qed.

Lemma uncovered_snoc U seen a b :
  uniqueFields a = true -> uniqueFields b = true -> closed a -> closed b ->
  a ∈ U -> b ∈ U -> hasSeen a b seen = Ret false ->
  uncovered U (seen ++ [(a, b)]) < uncovered U seen.
Proof.
  intros Hua Hub Hca Hcb Ha Hb Hs. unfold uncovered.
  apply (filter_length_shrinks _ _ _ (a, b)).
  - intros pq. unfold covered.
    destruct (hasSeen pq.1 pq.2 seen) as [[]| |] eqn:E; try done.
    by rewrite (hasSeen_app_true _ _ _ _ E).
  - by apply list_elem_of_cprod.
  - unfold covered. simpl. by rewrite Hs.
  - unfold covered. simpl. rewrite hasSeen_snoc by done. simpl.
    rewrite typeEqNaive_closed_refl by done.
    by rewrite typeEqNaive_closed_refl by done.
Qed.

Lemma tySize_param params retType (p : Param) :
  p ∈ params -> tySize p.2 < tySize (Func params retType).
Proof.
  intros Hin. simpl.
  pose proof (sum_list_with_in p (fun p : Param => tySize p.2) params Hin). simpl in *. lia.
Qed.

Lemma tySize_retType params retType : tySize retType < tySize (Func params retType).
Proof. simpl. lia. Qed.

Lemma tySize_prop props (p : PropertyType) :
  p ∈ props -> tySize p.2 < tySize (Object props).
Proof.
  intros Hin. simpl.
  pose proof (sum_list_with_in p (fun p : PropertyType => tySize p.2) props Hin).
  simpl in *. lia.
Qed.

Lemma unwrapRecType_returns_unique t u u' :
  returns (fun n => unwrapRecType n t) u ->
  returns (fun n => unwrapRecType n t) u' -> u = u'.
Proof.
  apply returns_unique. intros n m r Hle H Hr. by eapply unwrapRecType_mono.
Qed.

(** The pairs on which the comparison must answer true: a type against
    itself, and the unwrapping of a type against that type. *)
Definition diagonal (a b : Ty) : Prop :=
  a = b \/ returns (fun n => unwrapRecType n b) a.

Lemma diagonal_not_Rec a b :
  diagonal a b -> isRec a = false -> isRec b = false -> a = b.
Proof.
  intros [->|[n H]] Ha Hb; [done|].
  rewrite unwrapRecType_not_Rec in H by done. congruence.
Qed.

Section termination.
Variable md : mode.
Variable U : list Ty.
Hypothesis HU : universe U.

Lemma relSub_total_aux : forall k s a b seen,
  uncovered U seen <= k -> tySize a + tySize b <= s ->
  a ∈ U -> b ∈ U ->
  (forall p, p ∈ seen -> closed p.1 /\ closed p.2) ->
  exists n r, relSub md n a b seen = Ret r /\ (diagonal a b -> r = true).
Proof.
  induction k as [k IHk] using lt_wf_ind.
  induction s as [s IHs] using lt_wf_ind.
  intros a b seen Hk Hsz Ha Hb Hseen.
  pose proof (univ_closed U HU a Ha) as Hca.
  pose proof (univ_closed U HU b Hb) as Hcb.
  pose proof (univ_unique U HU a Ha) as Hua.
  pose proof (univ_unique U HU b Hb) as Hub.
  destruct (hasSeen_closed a b seen Hseen) as ([] & Hs & _).
  { exists 1, true. split; [by apply relSub_seen|done]. }
  assert (forall p, p ∈ seen ++ [(a, b)] -> closed p.1 /\ closed p.2) as Hseen'.
  { intros p [Hp|Hp]%elem_of_app; [by apply Hseen|].
    apply list_elem_of_singleton in Hp as ->. done. }
  pose proof (uncovered_snoc U seen a b Hua Hub Hca Hcb Ha Hb Hs) as Hlt.
  destruct (isRec a) eqn:Hra.
  { (* the left type is unfolded *)
    destruct (univ_Rec U HU a Ha Hra) as (u & Hu & HuU).
    destruct (IHk (uncovered U (seen ++ [(a, b)])) ltac:(lia)
                (tySize u + tySize b) u b (seen ++ [(a, b)]))
      as (n & r & Hn & Hd); [lia|lia|done|done|done|].
    destruct (proj2 (relSub_Rec_left md a b seen r Hs Hra)) as [n' Hn'].
    { exists u. split; [done|by exists n]. }
    exists n', r. split; [done|]. intros Hdiag. apply Hd.
    destruct Hdiag as [->|[m Hm]]; [by right|].
    apply unwrapRecType_result in Hm. congruence. }
  destruct (isRec b) eqn:Hrb.
  { (* the right type is unfolded *)
    destruct (univ_Rec U HU b Hb Hrb) as (u & Hu & HuU).
    destruct (IHk (uncovered U (seen ++ [(a, b)])) ltac:(lia)
                (tySize a + tySize u) a u (seen ++ [(a, b)]))
      as (n & r & Hn & Hd); [lia|lia|done|done|done|].
    destruct (proj2 (relSub_Rec_right md a b seen r Hs Hra Hrb)) as [n' Hn'].
    { exists u. split; [done|by exists n]. }
    exists n', r. split; [done|]. intros Hdiag. apply Hd.
    destruct Hdiag as [->|Hm]; [congruence|].
    left. by eapply unwrapRecType_returns_unique. }
  (* the structural rules *)
  assert (diagonal a b -> a = b) as Hdiag by (intros H; by apply diagonal_not_Rec).
  destruct b as [| |params2 retType2|props2| |name2]; try done.
  - exists 1, (sameTag a Boolean). split; [apply relSub_base; auto|].
    by intros ->%Hdiag.
  - exists 1, (sameTag a Number). split; [apply relSub_base; auto|].
    by intros ->%Hdiag.
  - destruct a as [| |params1 retType1| | |];
      try (exists 1, false; split; [simpl; by rewrite Hs|by intros ?%Hdiag]).
    destruct (decide (length params1 = length params2)) as [El|El]; cycle 1.
    { exists 1, false. split.
      - simpl. rewrite Hs. apply Nat.eqb_neq in El. by rewrite El.
      - intros Hab%Hdiag. congruence. }
    destruct (univ_Func U HU _ _ Ha) as [Hr1 Hp1].
    destruct (univ_Func U HU _ _ Hb) as [Hr2 Hp2].
    destruct (forIndex_returns
                (diagonal (Func params1 retType1) (Func params2 retType2))
                (fun n => paramCheck md n params1 seen) params2 0
                (fun n m i x r => paramCheck_mono md params1 seen n m i x r))
      as (n1 & b1 & Hn1 & Hd1).
    { intros i p2 Hi. simpl. unfold paramCheck.
      destruct (params1 !! i) as [p1|] eqn:E1; cycle 1.
      { apply lookup_ge_None in E1. apply lookup_lt_Some in Hi. lia. }
      pose proof (list_elem_of_lookup_2 _ _ _ E1) as Hin1.
      pose proof (list_elem_of_lookup_2 _ _ _ Hi) as Hin2.
      pose proof (tySize_param params1 retType1 p1 Hin1).
      pose proof (tySize_param params2 retType2 p2 Hin2).
      destruct md.
      - destruct (IHs (tySize p1.2 + tySize p2.2) ltac:(lia) p1.2 p2.2 seen)
          as (n & r & Hn & Hd); [done|lia|auto|auto|done|].
        exists n, r. split; [done|]. intros Hab%Hdiag. apply Hd. left.
        injection Hab as -> _. congruence.
      - destruct (IHs (tySize p2.2 + tySize p1.2) ltac:(lia) p2.2 p1.2 seen)
          as (n & r & Hn & Hd); [done|lia|auto|auto|done|].
        exists n, r. split; [done|]. intros Hab%Hdiag. apply Hd. left.
        injection Hab as -> _. congruence. }
    destruct b1; cycle 1.
    { exists (S n1), false. rewrite relSub_Func_step by done. by rewrite Hn1. }
    pose proof (tySize_retType params1 retType1).
    pose proof (tySize_retType params2 retType2).
    destruct (IHs (tySize retType1 + tySize retType2) ltac:(lia)
                retType1 retType2 seen)
      as (n2 & r & Hn2 & Hd2); [done|lia|done|done|done|].
    exists (S (n1 `max` n2)), r. split.
    + rewrite relSub_Func_step by done.
      erewrite forIndex_mono; [| |exact Hn1|done].
      * eapply relSub_mono; [|exact Hn2|done]. lia.
      * intros i x r' _. apply paramCheck_mono. lia.
    + intros Hab%Hdiag. apply Hd2. left. congruence.
  - destruct a as [| | |props1| |];
      try (exists 1, false; split; [simpl; by rewrite Hs|by intros ?%Hdiag]).
    destruct (decide (md = Equality /\ length props1 <> length props2))
      as [[-> El]|El].
    { exists 1, false. split.
      - simpl. rewrite Hs. apply Nat.eqb_neq in El. by rewrite El.
      - intros Hab%Hdiag. congruence. }
    assert (md = Equality -> length props1 = length props2) as El'.
    { intros Hmd. destruct (decide (length props1 = length props2)); [done|].
      exfalso. by apply El. }
    apply uniqueFields_Object in Hua as [Hnd1 _].
    destruct (forEach_returns
                (diagonal (Object props1) (Object props2))
                (fun n => propCheck md n props1 seen) props2
                (fun n m x r => propCheck_mono md props1 seen n m x r))
      as (n1 & b1 & Hn1 & Hd1).
    { intros p2 Hin2. unfold propCheck.
      destruct (findProp p2.1 props1) as [p1|] eqn:E1; cycle 1.
      { exists 0, false. split; [done|]. intros Hab%Hdiag. injection Hab as ->.
        rewrite (findProp_unique _ _ Hnd1 Hin2) in E1. done. }
      pose proof (findProp_Some _ _ _ E1) as [Hin1 Hname].
      pose proof (tySize_prop props1 p1 Hin1).
      pose proof (tySize_prop props2 p2 Hin2).
      destruct (IHs (tySize p1.2 + tySize p2.2) ltac:(lia) p1.2 p2.2 seen)
        as (n & r & Hn & Hd); [done|lia| | |done|].
      { exact (univ_Object U HU props1 Ha p1 Hin1). }
      { exact (univ_Object U HU props2 Hb p2 Hin2). }
      exists n, r. split; [done|]. intros Hab%Hdiag. apply Hd. left.
      injection Hab as ->. rewrite (findProp_unique _ _ Hnd1 Hin2) in E1.
      congruence. }
    exists (S n1), b1. split; [|done]. by rewrite relSub_Object_step.
Qed.

Lemma relSub_total a b :
  a ∈ U -> b ∈ U ->
  exists r, returns (fun n => relSub md n a b []) r /\ (a = b -> r = true).
Proof.
  intros Ha Hb.
  destruct (relSub_total_aux (uncovered U []) (tySize a + tySize b) a b [])
    as (n & r & Hn & Hd); [done|done|done|done| |].
  { intros p Hp. by apply elem_of_nil in Hp. }
  exists r. split; [by exists n|]. intros ->. apply Hd. by left.
Qed.

End termination.

(** ** The types reached by unfolding

    Unfolding a closed type only ever produces its subterms with their free
    variables replaced by the (closed) [Rec] nodes that bind them.  An
    environment lists these replacements, innermost binder first. *)

Fixpoint substEnv (e : list (string * Ty)) (t : Ty) : Ty :=
  match e with
  | [] => t
  | (x, r) :: e' => substEnv e' (expandType t x r)
  end.

Fixpoint envLookup (z : string) (e : list (string * Ty)) : option Ty :=
  match e with
  | [] => None
  | (x, r) :: e' => if String.eqb x z then Some r else envLookup z e'
  end.

Definition removeVar (x : string) (e : list (string * Ty)) : list (string * Ty) :=
  filter (fun p => p.1 <> x) e.

Definition closedEnv (e : list (string * Ty)) : Prop :=
  forall p, p ∈ e -> closed p.2.

Lemma closedEnv_cons x r e : closed r -> closedEnv e -> closedEnv ((x, r) :: e).
Proof. intros Hr He p [->|Hp]%elem_of_cons; [done|by apply He]. Qed.

Lemma closedEnv_tail p e : closedEnv (p :: e) -> closedEnv e.
Proof. intros He q Hq. apply He. apply elem_of_cons. by right. Qed.

Lemma substEnv_Boolean e : substEnv e Boolean = Boolean.
Proof. induction e as [|[x r] e IH]; [done|]. exact IH. Qed.

Lemma substEnv_Number e : substEnv e Number = Number.
Proof. induction e as [|[x r] e IH]; [done|]. exact IH. Qed.

Lemma substEnv_Func e : forall params retType,
  substEnv e (Func params retType) =
  Func ((fun p : Param => (p.1, substEnv e p.2)) <$> params) (substEnv e retType).
Proof.
  induction e as [|[x r] e IH]; intros params retType; simpl.
  - f_equal. rewrite <- (list_fmap_id params) at 1.
    apply list_fmap_ext. by intros i [n t] _.
  - unfold fn. rewrite IH. f_equal. rewrite <- list_fmap_compose.
    apply list_fmap_ext. by intros i [n t] _.
Qed.

Lemma substEnv_Object e : forall props,
  substEnv e (Object props) =
  Object ((fun p : PropertyType => (p.1, substEnv e p.2)) <$> props).
Proof.
  induction e as [|[x r] e IH]; intros props; simpl.
  - f_equal. rewrite <- (list_fmap_id props) at 1.
    apply list_fmap_ext. by intros i [n t] _.
  - unfold object. rewrite IH. f_equal. rewrite <- list_fmap_compose.
    apply list_fmap_ext. by intros i [n t] _.
Qed.

Lemma substEnv_Rec e : forall x body,
  substEnv e (Rec x body) = Rec x (substEnv (removeVar x e) body).
Proof.
  induction e as [|[y r] e IH]; intros x body; [done|].
  simpl. unfold removeVar. rewrite filter_cons. simpl.
  destruct (String.eqb_spec x y) as [->|Hne].
  - rewrite decide_False by (by intros ?). apply IH.
  - rewrite decide_True by (by intros ->). unfold rec. rewrite IH. done.
Qed.

Lemma substEnv_closed_id e t : closed t -> substEnv e t = t.
Proof.
  revert t. induction e as [|[x r] e IH]; intros t Ht; [done|].
  simpl. rewrite expandType_closed_id by done. by apply IH.
Qed.

Lemma substEnv_TypeVar e z :
  closedEnv e ->
  substEnv e (TypeVar z) = default (TypeVar z) (envLookup z e).
Proof.
  induction e as [|[x r] e IH]; intros He; [done|]. simpl.
  destruct (String.eqb_spec z x) as [->|Hne].
  - rewrite String.eqb_refl. simpl. apply substEnv_closed_id.
    apply (He (x, r)). apply elem_of_cons. by left.
  - assert (String.eqb x z = false) as -> by (apply String.eqb_neq; congruence).
    apply IH. by eapply closedEnv_tail.
Qed.

Lemma envLookup_Some z e r : envLookup z e = Some r -> (z, r) ∈ e.
Proof.
  induction e as [|[x r'] e IH]; simpl; [done|].
  destruct (String.eqb_spec x z) as [->|Hne].
  - intros [= ->]. apply elem_of_cons. by left.
  - intros H. apply elem_of_cons. right. by apply IH.
Qed.

Lemma envLookup_is_Some z e : z ∈ e.*1 -> is_Some (envLookup z e).
Proof.
  induction e as [|[x r'] e IH]; simpl; [by intros ?%elem_of_nil|].
  intros [->|Hin]%elem_of_cons.
  - rewrite String.eqb_refl. by eexists.
  - destruct (String.eqb x z); [by eexists|by apply IH].
Qed.

Lemma envLookup_app_r z e1 e2 :
  z ∉ e1.*1 -> envLookup z (e1 ++ e2) = envLookup z e2.
Proof.
  induction e1 as [|[x r] e1 IH]; intros Hz; [done|]. simpl in *.
  apply not_elem_of_cons in Hz as [Hne Hz].
  assert (String.eqb x z = false) as -> by (apply String.eqb_neq; congruence).
  by apply IH.
Qed.

Lemma freeVars_substEnv e : forall t y,
  closedEnv e -> y ∈ freeVars (substEnv e t) -> y ∈ freeVars t /\ y ∉ e.*1.
Proof.
  induction e as [|[x r] e IH]; intros t y He Hy; simpl in *.
  - split; [done|apply not_elem_of_nil].
  - destruct (IH _ _ (closedEnv_tail _ _ He) Hy) as [Hy' Hne].
    apply freeVars_expandType in Hy' as [[Hyx Hyt]|Hyr].
    + split; [done|]. apply not_elem_of_cons. done.
    + exfalso. eapply closed_not_free; [|exact Hyr].
      apply (He (x, r)). apply elem_of_cons. by left.
Qed.

Lemma substEnv_closed e t :
  closedEnv e -> (forall y, y ∈ freeVars t -> y ∈ e.*1) -> closed (substEnv e t).
Proof.
  intros He Hfv. apply closed_iff. intros y Hy.
  apply freeVars_substEnv in Hy as [Hy Hne]; [|done]. apply Hne. by apply Hfv.
Qed.

Lemma substEnv_uniqueFields e : forall t,
  (forall p, p ∈ e -> uniqueFields p.2 = true) -> uniqueFields t = true ->
  uniqueFields (substEnv e t) = true.
Proof.
  induction e as [|[x r] e IH]; intros t He Ht; [done|]. simpl. apply IH.
  - intros p Hp. apply He. apply elem_of_cons. by right.
  - apply uniqueFields_expandType; [done|].
    apply (He (x, r)). apply elem_of_cons. by left.
Qed.

(** Two substitutions of closed types for different names commute. *)
Lemma expandType_comm t x s y r :
  x <> y -> closed s -> closed r ->
  expandType (expandType t x s) y r = expandType (expandType t y r) x s.
Proof.
  intros Hne Hs Hr.
  induction t as [| |params retType IHp IHr|props IHp|name body IH|name]
    using Ty_ind; simpl; try done.
  - unfold fn. simpl. f_equal; [|done].
    rewrite <- !list_fmap_compose. apply Forall_fmap_ext.
    eapply Forall_impl; [exact IHp|]. intros [n t] H. simpl in *. by f_equal.
  - unfold object. simpl. f_equal.
    rewrite <- !list_fmap_compose. apply Forall_fmap_ext.
    eapply Forall_impl; [exact IHp|]. intros [n t] H. simpl in *. by f_equal.
  - destruct (String.eqb_spec name x) as [Ex|Hx];
      destruct (String.eqb_spec name y) as [Ey|Hy]; simpl; subst.
    + done.
    + rewrite String.eqb_refl.
      assert (String.eqb x y = false) as -> by (by apply String.eqb_neq). done.
    + rewrite String.eqb_refl.
      assert (String.eqb y x = false) as -> by (by apply String.eqb_neq). done.
    + assert (String.eqb name x = false) as -> by (by apply String.eqb_neq).
      assert (String.eqb name y = false) as -> by (by apply String.eqb_neq).
      unfold rec. by rewrite IH.
  - destruct (String.eqb_spec name x) as [Ex|Hx];
      destruct (String.eqb_spec name y) as [Ey|Hy]; simpl; subst.
    + done.
    + rewrite String.eqb_refl. by apply expandType_closed_id.
    + rewrite String.eqb_refl. symmetry. by apply expandType_closed_id.
    + assert (String.eqb name x = false) as -> by (by apply String.eqb_neq).
      assert (String.eqb name y = false) as -> by (by apply String.eqb_neq).
      done.
Qed.

(** One unfolding step of a substituted [Rec] is the body substituted
    under the environment extended with the node itself. *)
Lemma unfold_substEnv e : forall body x s,
  closedEnv e -> closed s ->
  expandType (substEnv (removeVar x e) body) x s = substEnv ((x, s) :: e) body.
Proof.
  induction e as [|[y r] e IH]; intros body x s He Hs; [done|].
  pose proof (closedEnv_tail _ _ He) as He'.
  assert (closed r) as Hr by (apply (He (y, r)); apply elem_of_cons; by left).
  simpl. unfold removeVar. rewrite filter_cons. simpl.
  destruct (decide (y = x)) as [->|Hne].
  - rewrite decide_False by (by intros ?).
    rewrite (expandType_not_free (expandType body x s) x r).
    + fold (removeVar x e). by rewrite IH.
    + by apply expandType_replaces_all, closed_not_free.
  - rewrite decide_True by done. simpl. fold (removeVar x e).
    rewrite IH by done. simpl.
    by rewrite (expandType_comm body x s y r) by done.
Qed.

(** *** Contractive types *)

(** The head of the type, below its leading [Rec] binders, is not one of
    the variables [chain]. *)
Fixpoint guarded (chain : list string) (t : Ty) : bool :=
  match t with
  | Rec name body => guarded (name :: chain) body
  | TypeVar name => bool_decide (name ∉ chain)
  | _ => true
  end.

(** No [Rec] of the type unfolds to itself without passing a [Func] or an
    [Object]: below a run of [Rec] binders the head is never one of the
    variables the run binds. *)
Fixpoint contractive (t : Ty) : bool :=
  match t with
  | Boolean | Number | TypeVar _ => true
  | Func params retType =>
      forallb (fun p : Param => contractive p.2) params && contractive retType
  | Object props => forallb (fun p : PropertyType => contractive p.2) props
  | Rec name body => guarded [name] body && contractive body
  end.

(** The types the comparison is meant for: closed, field names unique,
    contractive. *)
Definition wellFormed (t : Ty) : bool :=
  bool_decide (freeVars t = []) && uniqueFields t && contractive t.

Lemma wellFormed_spec t :
  wellFormed t = true <->
  closed t /\ uniqueFields t = true /\ contractive t = true.
Proof.
  unfold wellFormed, closed.
  rewrite !andb_true_iff, bool_decide_eq_true. tauto.
Qed.

Lemma contractive_Func params retType :
  contractive (Func params retType) = true <->
  (forall p, p ∈ params -> contractive p.2 = true) /\ contractive retType = true.
Proof. simpl. by rewrite andb_true_iff, forallb_elem_of. Qed.

Lemma contractive_Object props :
  contractive (Object props) = true <->
  forall p, p ∈ props -> contractive p.2 = true.
Proof. simpl. by rewrite forallb_elem_of. Qed.

(** *** Positions of a type and the closed types found there *)

Section reach.
Variable t0 : Ty.

(** [reach e t]: the subterm [t] of [t0] is found under binders whose
    unfoldings are listed in [e]. *)
Inductive reach : list (string * Ty) -> Ty -> Prop :=
| reach_root : reach [] t0
| reach_param e params retType p :
    reach e (Func params retType) -> p ∈ params -> reach e p.2
| reach_retType e params retType :
    reach e (Func params retType) -> reach e retType
| reach_prop e props p :
    reach e (Object props) -> p ∈ props -> reach e p.2
| reach_body e name body :
    reach e (Rec name body) ->
    reach ((name, substEnv e (Rec name body)) :: e) body.

(** All closed types found at the positions below [t]. *)
Fixpoint collect (e : list (string * Ty)) (t : Ty) : list Ty :=
  substEnv e t ::
  match t with
  | Boolean | Number | TypeVar _ => []
  | Func params retType =>
      flat_map (fun p : Param => collect e p.2) params ++ collect e retType
  | Object props => flat_map (fun p : PropertyType => collect e p.2) props
  | Rec name body => collect ((name, substEnv e (Rec name body)) :: e) body
  end.

Lemma collect_head e t : substEnv e t ∈ collect e t.
Proof. destruct t; apply elem_of_cons; by left. Qed.

Lemma collect_reach t : forall e s,
  reach e t -> s ∈ collect e t -> exists e' t', reach e' t' /\ s = substEnv e' t'.
Proof.
  induction t as [| |params retType IHp IHr|props IHp|name body IH|name]
    using Ty_ind; intros e s Hr Hs; simpl in Hs;
    apply elem_of_cons in Hs as [->|Hs];
    try (eexists e, _; split; [exact Hr|reflexivity]);
    try (by apply elem_of_nil in Hs).
  - apply elem_of_app in Hs as [Hs|Hs].
    + apply elem_of_flat_map in Hs as (p & Hp & Hs).
      rewrite Forall_forall in IHp. eapply (IHp p Hp); [|exact Hs].
      by eapply reach_param.
    + eapply IHr; [|exact Hs]. by eapply reach_retType.
  - apply elem_of_flat_map in Hs as (p & Hp & Hs).
    rewrite Forall_forall in IHp. eapply (IHp p Hp); [|exact Hs].
    by eapply reach_prop.
  - eapply IH; [|exact Hs]. by apply reach_body.
Qed.

Lemma reach_collect e t : reach e t -> forall s, s ∈ collect e t -> s ∈ collect [] t0.
Proof.
  induction 1 as [|e params retType p Hr IH Hp|e params retType Hr IH
                  |e props p Hr IH Hp|e name body Hr IH]; intros s Hs.
  - done.
  - apply IH. simpl. apply elem_of_cons. right. apply elem_of_app. left.
    apply elem_of_flat_map. by exists p.
  - apply IH. simpl. apply elem_of_cons. right. apply elem_of_app. by right.
  - apply IH. simpl. apply elem_of_cons. right.
    apply elem_of_flat_map. by exists p.
  - apply IH. simpl. apply elem_of_cons. by right.
Qed.

Lemma reach_in_universe e t : reach e t -> substEnv e t ∈ collect [] t0.
Proof. intros Hr. apply (reach_collect e t Hr). apply collect_head. Qed.

Hypothesis Hclosed : closed t0.
Hypothesis Hunique : uniqueFields t0 = true.
Hypothesis Hcontractive : contractive t0 = true.

(** What holds at every position: the free variables are bound by the
    environment, whose entries are closed [Rec] nodes found at positions
    above. *)
Record position (e : list (string * Ty)) (t : Ty) : Prop := {
  pos_bound : forall y, y ∈ freeVars t -> y ∈ e.*1;
  pos_unique : uniqueFields t = true;
  pos_contractive : contractive t = true;
  pos_closedEnv : closedEnv e;
  pos_uniqueEnv : forall p, p ∈ e -> uniqueFields p.2 = true;
  pos_RecEnv : forall p, p ∈ e -> isRec p.2 = true;
}.

Lemma reach_position e t : reach e t -> position e t.
Proof.
  induction 1 as [|e params retType p Hr IH Hp|e params retType Hr IH
                  |e props p Hr IH Hp|e name body Hr IH].
  - split; try done; try (by intros p ?%elem_of_nil).
    intros y Hy. by apply (closed_not_free _ y) in Hclosed.
  - destruct IH as [Hb Hu Hc He Hue Hre]. split; try done.
    + intros y Hy. apply Hb. apply freeVars_Func. left. by exists p.
    + apply uniqueFields_Func in Hu as [Hu _]. by apply Hu.
    + apply contractive_Func in Hc as [Hc _]. by apply Hc.
  - destruct IH as [Hb Hu Hc He Hue Hre]. split; try done.
    + intros y Hy. apply Hb. apply freeVars_Func. by right.
    + by apply uniqueFields_Func in Hu as [_ Hu].
    + by apply contractive_Func in Hc as [_ Hc].
  - destruct IH as [Hb Hu Hc He Hue Hre]. split; try done.
    + intros y Hy. apply Hb. apply freeVars_Object. by exists p.
    + apply uniqueFields_Object in Hu as [_ Hu]. by apply Hu.
    + rewrite contractive_Object in Hc. by apply Hc.
  - destruct IH as [Hb Hu Hc He Hue Hre]. split.
    + intros y Hy. simpl. destruct (decide (y = name)) as [->|Hne].
      * apply elem_of_cons. by left.
      * apply elem_of_cons. right. apply Hb. by apply freeVars_Rec.
    + done.
    + simpl in Hc. by apply andb_true_iff in Hc as [_ Hc].
    + apply closedEnv_cons; [|done]. by apply substEnv_closed.
    + intros p [->|Hp]%elem_of_cons; [|by apply Hue].
      simpl. by apply substEnv_uniqueFields.
    + intros p [->|Hp]%elem_of_cons; [|by apply Hre].
      simpl. by rewrite substEnv_Rec.
Qed.

Lemma position_closed e t : position e t -> closed (substEnv e t).
Proof. intros [Hb _ _ He _ _]. by apply substEnv_closed. Qed.

Lemma position_uniqueFields e t : position e t -> uniqueFields (substEnv e t) = true.
Proof. intros [_ Hu _ _ Hue _]. by apply substEnv_uniqueFields. Qed.

(** Unwrapping the type found at a position ends inside the collection,
    provided unwrapping does for the entries of the outer part [e2] of the
    environment and the head is guarded against the inner part [e1]. *)
Lemma unwrap_chain t : forall e1 e2,
  reach (e1 ++ e2) t ->
  guarded e1.*1 t = true ->
  (forall p, p ∈ e2 ->
     exists u, returns (fun n => unwrapRecType n p.2) u /\ u ∈ collect [] t0) ->
  exists u, returns (fun n => unwrapRecType n (substEnv (e1 ++ e2) t)) u
            /\ u ∈ collect [] t0.
Proof.
  induction t as [| |params retType _ _|props _|name body IH|name] using Ty_ind;
    intros e1 e2 Hr Hg He2.
  - exists Boolean. split; [exists 0; by rewrite substEnv_Boolean|].
    rewrite <- (substEnv_Boolean (e1 ++ e2)). by apply reach_in_universe.
  - exists Number. split; [exists 0; by rewrite substEnv_Number|].
    rewrite <- (substEnv_Number (e1 ++ e2)). by apply reach_in_universe.
  - exists (substEnv (e1 ++ e2) (Func params retType)).
    split; [|by apply reach_in_universe]. exists 0. by rewrite substEnv_Func.
  - exists (substEnv (e1 ++ e2) (Object props)).
    split; [|by apply reach_in_universe]. exists 0. by rewrite substEnv_Object.
  - pose proof (reach_position _ _ Hr) as Hpos.
    destruct (IH ((name, substEnv (e1 ++ e2) (Rec name body)) :: e1) e2)
      as (u & Hu & HuU); [by apply reach_body|done|done|].
    exists u. split; [|done].
    rewrite substEnv_Rec. apply unwrapRecType_returns_Rec.
    rewrite <- substEnv_Rec.
    rewrite unfold_substEnv; [done|by destruct Hpos|by apply position_closed].
  - pose proof (reach_position _ _ Hr) as [Hb _ _ He _ _].
    simpl in Hg. apply bool_decide_eq_true in Hg.
    rewrite substEnv_TypeVar by done. rewrite envLookup_app_r by done.
    destruct (envLookup_is_Some name e2) as [r Hr'].
    { specialize (Hb name ltac:(by apply freeVars_TypeVar)).
      rewrite fmap_app in Hb. by apply elem_of_app in Hb as [Hb|Hb]. }
    rewrite Hr'. simpl. apply (He2 (name, r)). by apply envLookup_Some.
Qed.

Lemma reach_env_unwraps e t :
  reach e t ->
  forall p, p ∈ e ->
    exists u, returns (fun n => unwrapRecType n p.2) u /\ u ∈ collect [] t0.
Proof.
  induction 1 as [|e params retType p Hr IH Hp|e params retType Hr IH
                  |e props p Hr IH Hp|e name body Hr IH]; try done.
  - by intros p ?%elem_of_nil.
  - intros p [->|Hp]%elem_of_cons; [|by apply IH]. simpl.
    apply (unwrap_chain (Rec name body) [] e); [done| |done].
    pose proof (reach_position _ _ Hr) as [_ _ Hc _ _ _].
    simpl in *. by apply andb_true_iff in Hc as [Hc _].
Qed.

(** The collection is a universe. *)
Lemma collect_universe : universe (collect [] t0).
Proof.
  split.
  - intros t Ht. destruct (collect_reach t0 [] t reach_root Ht) as (e & t' & Hr & ->).
    by apply position_closed, reach_position.
  - intros t Ht. destruct (collect_reach t0 [] t reach_root Ht) as (e & t' & Hr & ->).
    by apply position_uniqueFields, reach_position.
  - intros params retType Ht.
    destruct (collect_reach t0 [] _ reach_root Ht) as (e & t' & Hr & Heq).
    pose proof (reach_position _ _ Hr) as [Hb _ _ He _ Hre].
    destruct t' as [| |params' retType'|props'|name body|name].
    + by rewrite substEnv_Boolean in Heq.
    + by rewrite substEnv_Number in Heq.
    + rewrite substEnv_Func in Heq. injection Heq as -> ->. split.
      * apply reach_in_universe. by eapply reach_retType.
      * intros p (q & -> & Hq)%list_elem_of_fmap. simpl.
        apply reach_in_universe. by eapply reach_param.
    + by rewrite substEnv_Object in Heq.
    + by rewrite substEnv_Rec in Heq.
    + rewrite substEnv_TypeVar in Heq by done.
      destruct (envLookup_is_Some name e) as [r Hr'];
        [apply Hb; by apply freeVars_TypeVar|].
      rewrite Hr' in Heq. simpl in Heq. apply envLookup_Some in Hr'.
      apply Hre in Hr'. simpl in Hr'. by rewrite <- Heq in Hr'.
  - intros props Ht.
    destruct (collect_reach t0 [] _ reach_root Ht) as (e & t' & Hr & Heq).
    pose proof (reach_position _ _ Hr) as [Hb _ _ He _ Hre].
    destruct t' as [| |params' retType'|props'|name body|name].
    + by rewrite substEnv_Boolean in Heq.
    + by rewrite substEnv_Number in Heq.
    + by rewrite substEnv_Func in Heq.
    + rewrite substEnv_Object in Heq. injection Heq as ->.
      intros p (q & -> & Hq)%list_elem_of_fmap. simpl.
      apply reach_in_universe. by eapply reach_prop.
    + by rewrite substEnv_Rec in Heq.
    + rewrite substEnv_TypeVar in Heq by done.
      destruct (envLookup_is_Some name e) as [r Hr'];
        [apply Hb; by apply freeVars_TypeVar|].
      rewrite Hr' in Heq. simpl in Heq. apply envLookup_Some in Hr'.
      apply Hre in Hr'. simpl in Hr'. by rewrite <- Heq in Hr'.
  - intros t Ht Hrec.
    destruct (collect_reach t0 [] _ reach_root Ht) as (e & t' & Hr & ->).
    pose proof (reach_position _ _ Hr) as [Hb _ Hc He _ Hre].
    destruct t' as [| |params' retType'|props'|name body|name].
    + by rewrite substEnv_Boolean in Hrec.
    + by rewrite substEnv_Number in Hrec.
    + by rewrite substEnv_Func in Hrec.
    + by rewrite substEnv_Object in Hrec.
    + apply (unwrap_chain (Rec name body) [] e); [done| |].
      * simpl in *. by apply andb_true_iff in Hc as [Hc _].
      * by apply (reach_env_unwraps e (Rec name body)).
    + rewrite substEnv_TypeVar by done.
      destruct (envLookup_is_Some name e) as [r Hr'];
        [apply Hb; by apply freeVars_TypeVar|].
      rewrite Hr'. simpl. apply envLookup_Some in Hr'.
      by apply (reach_env_unwraps e (TypeVar name) Hr (name, r)).
Qed.

Lemma root_in_collect : t0 ∈ collect [] t0.
Proof. apply (collect_head [] t0). Qed.

End reach.

Lemma wellFormed_universe t :
  wellFormed t = true -> universe (collect [] t) /\ t ∈ collect [] t.
Proof.
  intros (Hc & Hu & Hg)%wellFormed_spec.
  split; [by apply collect_universe|apply root_in_collect].
Qed.

(** ** Totality and reflexivity on well-formed types *)

Lemma returns_not_throws {A : Type} (f : nat -> result A) (a : A) :
  (forall n m r, n <= m -> f n = r -> r <> Diverge -> f m = r) ->
  returns f a -> ~ throws f.
Proof.
  intros Hmono [n Hn] (m & msg & Hm).
  pose proof (Hmono n (n `max` m) _ ltac:(lia) Hn ltac:(done)) as H1.
  pose proof (Hmono m (n `max` m) _ ltac:(lia) Hm ltac:(done)) as H2.
  congruence.
Qed.

Lemma returns_not_diverges {A : Type} (f : nat -> result A) (a : A) :
  returns f a -> ~ diverges f.
Proof. intros [n Hn] Hd. specialize (Hd n). congruence. Qed.

Lemma returns_settles {A : Type} (f : nat -> result A) (a : A) :
  (forall n m r, n <= m -> f n = r -> r <> Diverge -> f m = r) ->
  returns f a -> settles f a.
Proof. intros Hmono [n Hn]. exists n. intros m Hle. by apply (Hmono n m). Qed.

Lemma typeEq_mono a b n m r :
  n <= m -> typeEq n a b = r -> r <> Diverge -> typeEq m a b = r.
Proof. unfold typeEq. rewrite !typeEqSub_relSub. apply relSub_mono. Qed.

Lemma subtype_mono a b n m r :
  n <= m -> Sub.subtype n a b = r -> r <> Diverge -> Sub.subtype m a b = r.
Proof. unfold Sub.subtype. rewrite !subtypeSub_relSub. apply relSub_mono. Qed.

Lemma relSub_wellFormed md a b :
  wellFormed a = true -> wellFormed b = true ->
  exists r, returns (fun n => relSub md n a b []) r /\ (a = b -> r = true).
Proof.
  intros [Ua Ha]%wellFormed_universe [Ub Hb]%wellFormed_universe.
  apply (relSub_total md (collect [] a ++ collect [] b)).
  - by apply universe_app.
  - apply elem_of_app. by left.
  - apply elem_of_app. by right.
Qed.

Lemma unwrapRecType_wellFormed t :
  wellFormed t = true -> exists u, returns (fun n => unwrapRecType n t) u.
Proof.
  intros [Ut Ht]%wellFormed_universe. destruct (isRec t) eqn:E.
  - destruct (univ_Rec _ Ut t Ht E) as (u & Hu & _). by exists u.
  - exists t, 0. by apply unwrapRecType_not_Rec.
Qed.

(** C2, as stated, does not hold: [μX.X] is closed, and unfolding it gives
    [μX.X] again, so [unwrapRecType] and with it [typeEq] never return. *)
Lemma C2_closed_type_that_loops :
  closed (Rec "X" (TypeVar "X")) /\ closed Number
  /\ diverges (fun n => unwrapRecType n (Rec "X" (TypeVar "X")))
  /\ diverges (fun n => typeEq n (Rec "X" (TypeVar "X")) Number).
Proof.
  split; [reflexivity|]. split; [reflexivity|].
  split; [intros n; apply unwrapRecType_loop | apply typeEq_loop].
Qed.

(** C2 (amended).  On closed, contractive types with unique field names the
    equality check, its helper [unwrapRecType] and the subtyping check
    return: under every large enough bound on the stack depth they give one
    and the same boolean (a type, for [unwrapRecType]); they neither throw
    nor run forever. *)
Theorem C2_total_on_well_formed_types (a b : Ty) :
  wellFormed a = true -> wellFormed b = true ->
  (exists r, settles (fun n => typeEq n a b) r)
  /\ ~ throws (fun n => typeEq n a b)
  /\ ~ diverges (fun n => typeEq n a b)
  /\ (exists r, settles (fun n => Sub.subtype n a b) r)
  /\ ~ throws (fun n => Sub.subtype n a b)
  /\ ~ diverges (fun n => Sub.subtype n a b)
  /\ (exists u, settles (fun n => unwrapRecType n a) u)
  /\ ~ diverges (fun n => unwrapRecType n a).
Proof.
  intros Ha Hb.
  destruct (relSub_wellFormed Equality a b Ha Hb) as (r1 & H1 & _).
  destruct (relSub_wellFormed Subtyping a b Ha Hb) as (r2 & H2 & _).
  destruct (unwrapRecType_wellFormed a Ha) as (u & Hu).
  apply (returns_ext _ _ r1 (fun n => typeEqSub_relSub n a b [])) in H1.
  apply (returns_ext _ _ r2 (fun n => subtypeSub_relSub n a b [])) in H2.
  repeat apply conj.
  - exists r1. apply returns_settles; [|done]. intros n m r. apply typeEq_mono.
  - eapply returns_not_throws; [|exact H1]. intros n m r. apply typeEq_mono.
  - by eapply returns_not_diverges.
  - exists r2. apply returns_settles; [|done]. intros n m r. apply subtype_mono.
  - eapply returns_not_throws; [|exact H2]. intros n m r. apply subtype_mono.
  - by eapply returns_not_diverges.
  - exists u. apply returns_settles; [|done]. intros n m r. apply unwrapRecType_mono.
  - by eapply returns_not_diverges.
Qed.

Lemma C2_total_on_well_formed_types_witness :
  exists r, settles (fun n =>
    typeEq n
      (Rec "X" (Object [("num", Number); ("rest", Func [] (TypeVar "X"))]))
      (Rec "Y" (Rec "Z" (Object [("rest", Func [] (TypeVar "Y")); ("num", Number)]))))
    r.
Proof.
  apply (C2_total_on_well_formed_types
           (Rec "X" (Object [("num", Number); ("rest", Func [] (TypeVar "X"))]))
           (Rec "Y" (Rec "Z" (Object [("rest", Func [] (TypeVar "Y")); ("num", Number)])))
           eq_refl eq_refl).
Defined.

(** C9, as stated, does not hold: [μX.X] is closed and comparing it with
    itself never returns. *)
Lemma C9_closed_type_not_reflexive :
  closed (Rec "X" (TypeVar "X"))
  /\ diverges (fun n => typeEq n (Rec "X" (TypeVar "X")) (Rec "X" (TypeVar "X"))).
Proof. split; [reflexivity | apply typeEq_loop]. Qed.

(** C9 (amended).  Comparing a closed, contractive type with unique field
    names with itself, from an empty seen list, returns true (under every
    large enough bound on the stack depth); this covers
    self-referential types such as the stream type
    [μX.{num: Number, rest: () => X}]. *)
Theorem C9_typeEq_reflexive (t : Ty) :
  wellFormed t = true -> settles (fun n => typeEq n t t) true.
Proof.
  intros Ht. destruct (relSub_wellFormed Equality t t Ht Ht) as (r & Hr & Hrefl).
  rewrite (Hrefl eq_refl) in Hr.
  apply (returns_ext _ _ true (fun n => typeEqSub_relSub n t t [])) in Hr.
  apply returns_settles; [|done]. intros n m r'. apply typeEq_mono.
Qed.

Lemma C9_typeEq_reflexive_witness :
  settles (fun n =>
    typeEq n
      (Rec "X" (Object [("num", Number); ("rest", Func [] (TypeVar "X"))]))
      (Rec "X" (Object [("num", Number); ("rest", Func [] (TypeVar "X"))]))) true.
Proof.
  apply (C9_typeEq_reflexive
           (Rec "X" (Object [("num", Number); ("rest", Func [] (TypeVar "X"))]))
           eq_refl).
Defined.

(** ** More about unfolding and the two equalities of rec.ts *)

(** *** Unfolding keeps the invariants of a type *)

Lemma closed_Func params retType :
  closed (Func params retType) <->
  (forall p, p ∈ params -> closed p.2) /\ closed retType.
Proof.
  rewrite (closed_iff (Func params retType)). split.
  - intros H. split.
    + intros p Hp. apply closed_iff. intros x Hx. apply (H x).
      apply freeVars_Func. left. by exists p.
    + apply closed_iff. intros x Hx. apply (H x). apply freeVars_Func. by right.
  - intros [Hp Hr] x Hx. apply freeVars_Func in Hx as [(p & Hin & Hx)|Hx].
    + by apply (closed_not_free p.2 x (Hp p Hin)).
    + by apply (closed_not_free retType x Hr).
Qed.

Lemma closed_Object props :
  closed (Object props) <-> forall p, p ∈ props -> closed p.2.
Proof.
  rewrite closed_iff. split.
  - intros H p Hp. apply closed_iff. intros x Hx. apply (H x).
    apply freeVars_Object. by exists p.
  - intros Hp x Hx. apply freeVars_Object in Hx as (p & Hin & Hx).
    by apply (closed_not_free p.2 x (Hp p Hin)).
Qed.

Lemma closed_unfold x body :
  closed (Rec x body) -> closed (expandType body x (Rec x body)).
Proof.
  intros Hc. apply closed_iff. intros y Hy.
  apply freeVars_expandType in Hy as [[Hne Hy]|Hy].
  - apply (closed_not_free (Rec x body) y Hc). by apply freeVars_Rec.
  - by apply (closed_not_free _ y Hc).
Qed.

Lemma unwrapRecType_closed n : forall t u,
  closed t -> unwrapRecType n t = Ret u -> closed u.
Proof.
  induction n as [|n IH]; intros t u Hc H; destruct t; simpl in H;
    try (injection H as <-; exact Hc); try discriminate.
  eapply IH; [|exact H]. by apply closed_unfold.
Qed.

Lemma unwrapRecType_uniqueFields n : forall t u,
  uniqueFields t = true -> unwrapRecType n t = Ret u -> uniqueFields u = true.
Proof.
  induction n as [|n IH]; intros t u Hc H; destruct t; simpl in H;
    try (injection H as <-; exact Hc); try discriminate.
  eapply IH; [|exact H]. by apply uniqueFields_expandType.
Qed.

Lemma unwrapRecType_no_throw n : forall t msg, unwrapRecType n t <> Throw msg.
Proof.
  induction n as [|n IH]; intros t msg; destruct t; simpl; try discriminate.
  apply IH.
Qed.

(** X1 ([unwrapRecType], rec.ts): what [unwrapRecType] returns is never a
    [Rec] node, so that unwrapping it again, with any bound on the stack
    depth, gives it back unchanged. *)
Theorem unwrapRecType_idempotent (n : nat) (t u : Ty) :
  unwrapRecType n t = Ret u ->
  isRec u = false /\ forall m, unwrapRecType m u = Ret u.
Proof.
  intros H. pose proof (unwrapRecType_result n t u H) as Hu.
  split; [exact Hu|]. intros m. by apply unwrapRecType_not_Rec.
Qed.

Lemma unwrapRecType_idempotent_witness :
  isRec (Func [] (Rec "X" (Func [] (TypeVar "X")))) = false
  /\ forall m, unwrapRecType m (Func [] (Rec "X" (Func [] (TypeVar "X")))) =
               Ret (Func [] (Rec "X" (Func [] (TypeVar "X")))).
Proof.
  apply (unwrapRecType_idempotent 1 (Rec "X" (Func [] (TypeVar "X")))).
  reflexivity.
Defined.

(** X2 ([unwrapRecType], [expandType], rec.ts): whatever [unwrapRecType]
    returns for a closed type is closed, and for a type whose records have
    unique field names it has unique field names: the repeated unfolding
    [expandType body name type] keeps both invariants. *)
Theorem unwrapRecType_keeps_closed_and_unique_fields (n : nat) (t u : Ty) :
  unwrapRecType n t = Ret u ->
  (closed t -> closed u) /\ (uniqueFields t = true -> uniqueFields u = true).
Proof.
  intros H. split.
  - intros Hc. by eapply unwrapRecType_closed.
  - intros Hc. by eapply unwrapRecType_uniqueFields.
Qed.

Lemma unwrapRecType_keeps_closed_and_unique_fields_witness :
  (closed (Rec "X" (Object [("rest", Func [] (TypeVar "X"))])) ->
   closed (Object [("rest", Func [] (Rec "X" (Object [("rest", Func [] (TypeVar "X"))])))]))
  /\ (uniqueFields (Rec "X" (Object [("rest", Func [] (TypeVar "X"))])) = true ->
      uniqueFields
        (Object [("rest", Func [] (Rec "X" (Object [("rest", Func [] (TypeVar "X"))])))])
      = true).
Proof.
  apply (unwrapRecType_keeps_closed_and_unique_fields 1
           (Rec "X" (Object [("rest", Func [] (TypeVar "X"))]))).
  reflexivity.
Defined.
(** *** Exceptions of [typeEqNaive] *)

Lemma typeEqNaive_Throw_inv (t1 t2 : Ty) (m : TypeVarNameMap) (msg : string) :
  typeEqNaive t1 t2 m = Throw msg ->
  exists x, x ∈ freeVars t1 /\ m !! x = None
            /\ msg = "unknown type variable: " +:+ x.
Proof.
  revert t1 m.
  induction t2 as [| |params2 retType2 IHp IHr|props2 IHp|name2 body2 IH|name2]
    using Ty_ind; intros t1 m; destruct t1 as [| |params1 retType1|props1|name1 body1|name1];
    simpl; try discriminate.
  - destruct (Nat.eqb (length params1) (length params2)) eqn:El; [|discriminate].
    apply Nat.eqb_eq in El. simpl.
    match goal with |- context [forIndex ?f 0 params2] =>
      destruct (forIndex f 0 params2) as [[]| |] eqn:E end; try discriminate.
    + intros H. destruct (IHr _ _ H) as (x & Hx & Hm & ->).
      exists x. split; [|done]. apply freeVars_Func. by right.
    + intros H. injection H as ->.
      apply forIndex_throw in E as (k & p2 & Hk & Hf). simpl in Hf.
      destruct (params1 !! k) as [p1|] eqn:E1.
      * rewrite Forall_forall in IHp.
        destruct (IHp p2 (list_elem_of_lookup_2 _ _ _ Hk) _ _ Hf) as (x & Hx & Hm & ->).
        exists x. split; [|done]. apply freeVars_Func. left. exists p1.
        split; [by eapply list_elem_of_lookup_2|done].
      * apply lookup_ge_None in E1. apply lookup_lt_Some in Hk. lia.
  - destruct (negb _); [discriminate|].
    intros H. apply forEach_throw in H as (p2 & Hp2 & Hf).
    destruct (findProp p2.1 props1) as [p1|] eqn:E1; [|discriminate].
    rewrite Forall_forall in IHp.
    destruct (IHp p2 Hp2 _ _ Hf) as (x & Hx & Hm & ->).
    exists x. split; [|done]. apply freeVars_Object. exists p1.
    split; [|done]. by apply findProp_Some in E1 as [? _].
  - intros H. destruct (IH _ _ H) as (x & Hx & Hm & ->).
    destruct (decide (x = name1)) as [->|Hne].
    + by rewrite lookup_insert_eq in Hm.
    + rewrite lookup_insert_ne in Hm by done.
      exists x. split; [|done]. by apply freeVars_Rec.
  - destruct (m !! name1) eqn:E; [discriminate|].
    intros H. injection H as <-. exists name1. split; [|done].
    by apply freeVars_TypeVar.
Qed.

(** X3 ([typeEqNaive], rec.ts): when no free variable of the left argument
    is one of the names every object inherits, the only exception
    [typeEqNaive] raises is "unknown type variable: x", where [x] is a free
    variable of the left argument that has no entry in the map.  (For an
    inherited name without an entry [typeVarMap[name]] is defined, and the
    code answers [false] instead.) *)
Theorem typeEqNaive_throws_only_unknown_variable
    (t1 t2 : Ty) (m : TypeVarNameMap) (msg : string) :
  (forall x, x ∈ freeVars t1 -> x ∉ inheritedNames) ->
  typeEqNaive t1 t2 m = Throw msg ->
  exists x, x ∈ freeVars t1 /\ m !! x = None
            /\ msg = "unknown type variable: " +:+ x.
Proof. intros _. apply typeEqNaive_Throw_inv. Qed.

Lemma typeEqNaive_throws_only_unknown_variable_witness :
  exists x, x ∈ freeVars (Func [("a", TypeVar "X")] Number)
            /\ ({["Y" := "X"]} : TypeVarNameMap) !! x = None
            /\ "unknown type variable: X" = "unknown type variable: " +:+ x.
Proof.
  apply (typeEqNaive_throws_only_unknown_variable
           (Func [("a", TypeVar "X")] Number) (Func [("b", TypeVar "Y")] Number)
           {["Y" := "X"]} "unknown type variable: X").
  - intros x Hx. apply list_elem_of_singleton in Hx as ->. compute_done.
  - reflexivity.
Defined.


(** X4 ([typeEqNaive], rec.ts): [typeEqNaive] answers [true] for a type
    compared with itself, whenever its records have unique field names and
    the map sends every free variable of the type to itself; in particular
    for every closed type under the empty map. *)
Theorem typeEqNaive_reflexive (t : Ty) (m : TypeVarNameMap) :
  uniqueFields t = true ->
  (forall x, x ∈ freeVars t -> m !! x = Some x) ->
  typeEqNaive t t m = Ret true.
Proof. apply typeEqNaive_refl. Qed.

Lemma typeEqNaive_reflexive_witness :
  typeEqNaive (Rec "X" (Object [("num", Number); ("rest", Func [] (TypeVar "X"))]))
              (Rec "X" (Object [("num", Number); ("rest", Func [] (TypeVar "X"))]))
              ∅ = Ret true.
Proof.
  apply (typeEqNaive_reflexive
           (Rec "X" (Object [("num", Number); ("rest", Func [] (TypeVar "X"))])) ∅).
  - reflexivity.
  - intros x Hx. exfalso. revert Hx. simpl. apply not_elem_of_nil.
Defined.

(** *** Parameter names are never compared *)

(** The type with every parameter name replaced by the empty string. *)
Fixpoint eraseParamNames (t : Ty) : Ty :=
  match t with
  | Boolean | Number | TypeVar _ => t
  | Func params retType =>
      Func ((fun p : Param => ("", eraseParamNames p.2)) <$> params)
           (eraseParamNames retType)
  | Object props =>
      Object ((fun p : PropertyType => (p.1, eraseParamNames p.2)) <$> props)
  | Rec name body => Rec name (eraseParamNames body)
  end.

Lemma findProp_fmap (h : Ty -> Ty) name (props : list PropertyType) :
  findProp name ((fun p : PropertyType => (p.1, h p.2)) <$> props) =
  (fun p : PropertyType => (p.1, h p.2)) <$> findProp name props.
Proof.
  unfold findProp. induction props as [|p props IH]; simpl; [done|].
  destruct (String.eqb p.1 name); [done|exact IH].
Qed.

Lemma typeEqNaive_eraseParamNames t2 : forall t1 m,
  typeEqNaive (eraseParamNames t1) (eraseParamNames t2) m = typeEqNaive t1 t2 m.
Proof.
  induction t2 as [| |params2 retType2 IHp IHr|props2 IHp|name2 body2 IH|name2]
    using Ty_ind; intros t1 m; destruct t1 as [| |params1 retType1|props1|name1 body1|name1];
    simpl; try done.
  - rewrite !length_fmap. destruct (negb _); [done|].
    rewrite forIndex_fmap, IHr.
    match goal with |- match ?a with _ => _ end = match ?b with _ => _ end =>
      replace a with b; [done|] end.
    apply forIndex_ext. intros k p2 Hk. simpl.
    rewrite list_lookup_fmap. destruct (params1 !! k) as [p1|]; simpl; [|done].
    rewrite Forall_forall in IHp. symmetry. apply IHp.
    by eapply list_elem_of_lookup_2.
  - rewrite !length_fmap. destruct (negb _); [done|].
    rewrite forEach_fmap. apply forEach_ext. intros p2 Hp2. simpl.
    rewrite findProp_fmap. destruct (findProp p2.1 props1) as [p1|]; simpl; [|done].
    rewrite Forall_forall in IHp. by apply IHp.
Qed.

Lemma expandType_eraseParamNames t x r :
  eraseParamNames (expandType t x r) =
  expandType (eraseParamNames t) x (eraseParamNames r).
Proof.
  induction t as [| |params retType IHp IHr|props IHp|name body IH|name] using Ty_ind;
    simpl; try done.
  - unfold fn. simpl. rewrite IHr. f_equal.
    rewrite <- !list_fmap_compose. apply Forall_fmap_ext.
    eapply Forall_impl; [exact IHp|]. intros p Hp. simpl. by rewrite Hp.
  - unfold object. simpl. f_equal.
    rewrite <- !list_fmap_compose. apply Forall_fmap_ext.
    eapply Forall_impl; [exact IHp|]. intros p Hp. simpl. by rewrite Hp.
  - destruct (String.eqb name x); [done|]. unfold rec. simpl. by rewrite IH.
  - destruct (String.eqb name x); done.
Qed.

Definition eraseResult (r : result Ty) : result Ty :=
  match r with
  | Ret u => Ret (eraseParamNames u)
  | Throw msg => Throw msg
  | Diverge => Diverge
  end.

Lemma unwrapRecType_eraseParamNames n : forall t,
  unwrapRecType n (eraseParamNames t) = eraseResult (unwrapRecType n t).
Proof.
  induction n as [|n IH]; intros t; destruct t; simpl; try done.
  rewrite <- IH. by rewrite expandType_eraseParamNames.
Qed.

Definition eraseSeen (seen : list SeenTypePair) : list SeenTypePair :=
  (fun s : SeenTypePair => (eraseParamNames s.1, eraseParamNames s.2)) <$> seen.

Lemma hasSeen_eraseParamNames a b seen :
  hasSeen (eraseParamNames a) (eraseParamNames b) (eraseSeen seen) = hasSeen a b seen.
Proof.
  induction seen as [|[s1 s2] seen IH]; simpl; [done|].
  rewrite !typeEqNaive_eraseParamNames, IH. done.
Qed.

Lemma isRec_eraseParamNames t : isRec (eraseParamNames t) = isRec t.
Proof. by destruct t. Qed.

Lemma typeEqSub_eraseParamNames n : forall a b seen,
  typeEqSub n (eraseParamNames a) (eraseParamNames b) (eraseSeen seen) =
  typeEqSub n a b seen.
Proof.
  induction n as [|n IH]; intros a b seen; [done|].
  cbn [typeEqSub]. rewrite hasSeen_eraseParamNames.
  destruct (hasSeen a b seen) as [[]| |]; try done.
  rewrite !isRec_eraseParamNames.
  assert (Hsnoc : eraseSeen (seen ++ [(a, b)]) =
                  eraseSeen seen ++ [(eraseParamNames a, eraseParamNames b)]).
  { unfold eraseSeen. by rewrite fmap_app. }
  destruct (isRec a) eqn:Ea.
  { rewrite unwrapRecType_eraseParamNames.
    destruct (unwrapRecType n a) as [u| |]; simpl; try done.
    rewrite <- Hsnoc. apply IH. }
  destruct (isRec b) eqn:Eb.
  { rewrite unwrapRecType_eraseParamNames.
    destruct (unwrapRecType n b) as [u| |]; simpl; try done.
    rewrite <- Hsnoc. apply IH. }
  destruct b as [| |params2 retType2|props2|name2 body2|name2];
    destruct a as [| |params1 retType1|props1|name1 body1|name1]; simpl; try done.
  - rewrite !length_fmap. destruct (negb _); [done|].
    rewrite forIndex_fmap, IH.
    match goal with |- match ?x with _ => _ end = match ?y with _ => _ end =>
      replace x with y; [done|] end.
    apply forIndex_ext. intros k p2 Hk. simpl.
    rewrite list_lookup_fmap. destruct (params1 !! k) as [p1|]; simpl; [|done].
    symmetry. apply IH.
  - rewrite !length_fmap. destruct (negb _); [done|].
    rewrite forEach_fmap. apply forEach_ext. intros p2 Hp2. simpl.
    rewrite findProp_fmap. destruct (findProp p2.1 props1) as [p1|]; simpl; [|done].
    apply IH.
Qed.

(** X5 ([typeEqNaive], [typeEqSub], [typeEq], rec.ts): the names of the
    parameters of function types, at any depth, never influence either
    equality: two pairs of types that differ only in parameter names get
    the same answer, the same exception or the same non-termination. *)
Theorem equality_ignores_parameter_names (a a' b b' : Ty) :
  eraseParamNames a = eraseParamNames a' ->
  eraseParamNames b = eraseParamNames b' ->
  (forall m, typeEqNaive a b m = typeEqNaive a' b' m)
  /\ (forall n, typeEq n a b = typeEq n a' b').
Proof.
  intros Ha Hb. split.
  - intros m. rewrite <- (typeEqNaive_eraseParamNames b a m).
    rewrite <- (typeEqNaive_eraseParamNames b' a' m). by rewrite Ha, Hb.
  - intros n. unfold typeEq.
    rewrite <- (typeEqSub_eraseParamNames n a b []).
    rewrite <- (typeEqSub_eraseParamNames n a' b' []). by rewrite Ha, Hb.
Qed.

Lemma equality_ignores_parameter_names_witness :
  (forall m,
     typeEqNaive (Func [("x", Number)] Boolean) (Func [("n", Boolean)] Boolean) m =
     typeEqNaive (Func [("y", Number)] Boolean) (Func [("b", Boolean)] Boolean) m)
  /\ (forall n,
        typeEq n (Func [("x", Number)] Boolean) (Func [("n", Boolean)] Boolean) =
        typeEq n (Func [("y", Number)] Boolean) (Func [("b", Boolean)] Boolean)).
Proof.
  apply (equality_ignores_parameter_names
           (Func [("x", Number)] Boolean) (Func [("y", Number)] Boolean)
           (Func [("n", Boolean)] Boolean) (Func [("b", Boolean)] Boolean));
    reflexivity.
Defined.

(** *** [typeEq] on closed types *)

Lemma typeEqSub_closed_no_throw n : forall a b seen msg,
  closed a -> closed b ->
  (forall s, s ∈ seen -> closed s.1 /\ closed s.2) ->
  typeEqSub n a b seen <> Throw msg.
Proof.
  induction n as [|n IH]; intros a b seen msg Ha Hb Hseen; [discriminate|].
  cbn [typeEqSub].
  destruct (hasSeen_closed a b seen Hseen) as (r & -> & _).
  destruct r; [discriminate|].
  assert (Hsnoc : forall s, s ∈ seen ++ [(a, b)] -> closed s.1 /\ closed s.2).
  { intros s [Hs|Hs%list_elem_of_singleton]%elem_of_app; [by apply Hseen|by subst]. }
  destruct (isRec a) eqn:Ea.
  { destruct (unwrapRecType n a) as [u| |] eqn:Eu; simpl; [| |discriminate].
    - apply IH; [|done|done]. exact (unwrapRecType_closed n a u Ha Eu).
    - by apply unwrapRecType_no_throw in Eu. }
  destruct (isRec b) eqn:Eb.
  { destruct (unwrapRecType n b) as [u| |] eqn:Eu; simpl; [| |discriminate].
    - apply IH; [done| |done]. exact (unwrapRecType_closed n b u Hb Eu).
    - by apply unwrapRecType_no_throw in Eu. }
  destruct b as [| |params2 retType2|props2|name2 body2|name2]; try discriminate.
  - destruct a as [| |params1 retType1|props1|name1 body1|name1]; try discriminate.
    destruct (Nat.eqb (length params1) (length params2)) eqn:El; [|discriminate].
    apply Nat.eqb_eq in El. simpl.
    apply closed_Func in Ha as [Hp1 Hr1]. apply closed_Func in Hb as [Hp2 Hr2].
    match goal with |- context [forIndex ?f 0 params2] =>
      destruct (forIndex f 0 params2) as [[]| |] eqn:E end; try discriminate.
    + by apply IH.
    + apply forIndex_throw in E as (k & p2 & Hk & Hf). simpl in Hf.
      destruct (params1 !! k) as [p1|] eqn:E1.
      * exfalso. revert Hf. apply IH; [| |done].
        -- apply Hp1. by eapply list_elem_of_lookup_2.
        -- apply Hp2. by eapply list_elem_of_lookup_2.
      * apply lookup_ge_None in E1. apply lookup_lt_Some in Hk. lia.
  - destruct a as [| |params1 retType1|props1|name1 body1|name1]; try discriminate.
    destruct (negb _); [discriminate|].
    intros H. apply forEach_throw in H as (p2 & Hin2 & Hf).
    destruct (findProp p2.1 props1) as [p1|] eqn:E1; [|discriminate].
    revert Hf. apply IH; [| |done].
    + apply findProp_Some in E1 as [Hin1 _].
      by apply (proj1 (closed_Object props1) Ha).
    + by apply (proj1 (closed_Object props2) Hb).
Qed.

(** X6 ([typeEq], [typeEqSub], rec.ts): on closed types [typeEq] never
    throws, whatever the bound on the stack depth: the branch
    [throw "unreachable"] for a bare type variable and the default branch
    are not reached, and no parameter is read out of range.  (It can still
    fail to return, on a type such as [mu X. X].) *)
Theorem typeEq_closed_never_throws (a b : Ty) :
  closed a -> closed b -> ~ throws (fun n => typeEq n a b).
Proof.
  intros Ha Hb (n & msg & H). revert H.
  apply typeEqSub_closed_no_throw; [done|done|].
  intros s Hs. by apply elem_of_nil in Hs.
Qed.

Lemma typeEq_closed_never_throws_witness :
  ~ throws (fun n => typeEq n (Rec "X" (TypeVar "X"))
                             (Rec "Y" (Func [("a", TypeVar "Y")] Number))).
Proof.
  apply (typeEq_closed_never_throws (Rec "X" (TypeVar "X"))
           (Rec "Y" (Func [("a", TypeVar "Y")] Number))); reflexivity.
Defined.

(** *** Types without recursion *)

(** The type has no [Rec] node and no type variable. *)
Fixpoint plain (t : Ty) : bool :=
  match t with
  | Boolean | Number => true
  | Func params retType => forallb (fun p : Param => plain p.2) params && plain retType
  | Object props => forallb (fun p : PropertyType => plain p.2) props
  | Rec _ _ | TypeVar _ => false
  end.

Lemma plain_Func params retType :
  plain (Func params retType) = true <->
  (forall p, p ∈ params -> plain p.2 = true) /\ plain retType = true.
Proof. simpl. rewrite andb_true_iff, forallb_elem_of. done. Qed.

Lemma plain_Object props :
  plain (Object props) = true <-> forall p, p ∈ props -> plain p.2 = true.
Proof. simpl. by rewrite forallb_elem_of. Qed.

Lemma plain_not_Rec t : plain t = true -> isRec t = false.
Proof. by destruct t. Qed.

Lemma typeEqSub_plain n : forall a b,
  plain a = true -> plain b = true -> tySize b <= n ->
  typeEqSub n a b [] = typeEqNaive a b ∅.
Proof.
  induction n as [|n IH]; intros a b Ha Hb Hn.
  { destruct b; simpl in Hn; lia. }
  cbn [typeEqSub hasSeen].
  rewrite (plain_not_Rec a Ha), (plain_not_Rec b Hb).
  destruct b as [| |params2 retType2|props2|name2 body2|name2]; try done.
  - destruct a as [| |params1 retType1|props1|name1 body1|name1]; try done.
    simpl. destruct (negb _); [done|].
    apply plain_Func in Ha as [Hp1 Hr1]. apply plain_Func in Hb as [Hp2 Hr2].
    rewrite IH; [|done|done|pose proof (tySize_retType params2 retType2); lia].
    match goal with |- match ?x with _ => _ end = match ?y with _ => _ end =>
      replace x with y; [done|] end.
    apply forIndex_ext. intros k p2 Hk. simpl.
    destruct (params1 !! k) as [p1|] eqn:E1; [|done].
    symmetry. apply IH.
    + apply Hp1. by eapply list_elem_of_lookup_2.
    + apply Hp2. by eapply list_elem_of_lookup_2.
    + pose proof (tySize_param params2 retType2 p2 (list_elem_of_lookup_2 _ _ _ Hk)). lia.
  - destruct a as [| |params1 retType1|props1|name1 body1|name1]; try done.
    simpl. destruct (negb _); [done|].
    apply forEach_ext. intros p2 Hin2.
    destruct (findProp p2.1 props1) as [p1|] eqn:E1; [|done].
    apply IH.
    + apply findProp_Some in E1 as [Hin1 _]. by apply (proj1 (plain_Object props1) Ha).
    + by apply (proj1 (plain_Object props2) Hb).
    + pose proof (tySize_prop props2 p2 Hin2). lia.
Qed.

(** X7 ([typeEq], [typeEqNaive], rec.ts): on types that contain neither a
    recursive type nor a type variable, the equi-recursive [typeEq] gives
    exactly the answer of the structural [typeEqNaive] under the empty map,
    as soon as the bound on the stack depth reaches the size of the second
    type. *)
Theorem typeEq_is_typeEqNaive_without_recursion (a b : Ty) (n : nat) :
  plain a = true -> plain b = true -> tySize b <= n ->
  typeEq n a b = typeEqNaive a b ∅.
Proof. intros Ha Hb Hn. by apply typeEqSub_plain. Qed.

Lemma typeEq_is_typeEqNaive_without_recursion_witness :
  typeEq 5 (Object [("f", Func [("x", Number)] Boolean); ("n", Number)])
           (Object [("n", Number); ("f", Func [("y", Number)] Boolean)]) =
  typeEqNaive (Object [("f", Func [("x", Number)] Boolean); ("n", Number)])
              (Object [("n", Number); ("f", Func [("y", Number)] Boolean)]) ∅.
Proof.
  apply (typeEq_is_typeEqNaive_without_recursion
           (Object [("f", Func [("x", Number)] Boolean); ("n", Number)])
           (Object [("n", Number); ("f", Func [("y", Number)] Boolean)]) 5).
  - reflexivity.
  - reflexivity.
  - simpl. lia.
Defined.

(** *** A recursive type and its unfolding *)

(** X8 ([typeEq], [unwrapRecType], rec.ts): a well-formed type (closed,
    unique field names, every recursive variable under a function or a
    record) is equal, for [typeEq], to what [unwrapRecType] makes of it, in
    both argument orders. *)
Theorem typeEq_unfolding (t u : Ty) (n : nat) :
  wellFormed t = true -> unwrapRecType n t = Ret u ->
  settles (fun k => typeEq k t u) true /\ settles (fun k => typeEq k u t) true.
Proof.
  intros Hwf Hu.
  destruct (wellFormed_universe t Hwf) as [HU Ht].
  assert (Hnil : forall p : SeenTypePair, p ∈ [] -> closed p.1 /\ closed p.2).
  { intros p Hp. by apply elem_of_nil in Hp. }
  assert (HuU : u ∈ collect [] t).
  { destruct (isRec t) eqn:Et.
    - destruct (univ_Rec _ HU t Ht Et) as (u' & Hu' & Hin).
      replace u with u'; [done|].
      eapply unwrapRecType_returns_unique; [exact Hu'|by exists n].
    - rewrite unwrapRecType_not_Rec in Hu by done. by injection Hu as <-. }
  assert (Hlift : forall a b, returns (fun k => relSub Equality k a b []) true ->
                              settles (fun k => typeEq k a b) true).
  { intros a b [k Hk]. apply returns_settles.
    - intros. by eapply typeEq_mono.
    - exists k. unfold typeEq. by rewrite typeEqSub_relSub. }
  split; apply Hlift.
  - destruct (isRec t) eqn:Et.
    + apply relSub_Rec_left; [done|done|]. exists u. split; [by exists n|].
      destruct (relSub_total_aux Equality (collect [] t) HU
                  (uncovered (collect [] t) ([] ++ [(t, u)])) (tySize u + tySize u)
                  u u ([] ++ [(t, u)])) as (k & r & Hk & Hr); try done.
      * intros p Hp%list_elem_of_singleton. subst p. simpl.
        split; by apply (univ_closed _ HU).
      * exists k. rewrite Hk. f_equal. apply Hr. by left.
    + rewrite unwrapRecType_not_Rec in Hu by done. injection Hu as <-.
      destruct (relSub_total Equality (collect [] t) HU t t Ht Ht) as (r & Hr & Hd).
      by rewrite (Hd eq_refl) in Hr.
  - destruct (relSub_total_aux Equality (collect [] t) HU
                (uncovered (collect [] t) []) (tySize u + tySize t)
                u t []) as (k & r & Hk & Hr); try done.
    exists k. rewrite Hk. f_equal. apply Hr. right. by exists n.
Qed.

Lemma typeEq_unfolding_witness :
  settles (fun k =>
    typeEq k (Rec "X" (Object [("num", Number); ("rest", Func [] (TypeVar "X"))]))
      (Object [("num", Number);
               ("rest", Func [] (Rec "X" (Object [("num", Number);
                                                   ("rest", Func [] (TypeVar "X"))])))]))
    true
  /\ settles (fun k =>
    typeEq k
      (Object [("num", Number);
               ("rest", Func [] (Rec "X" (Object [("num", Number);
                                                   ("rest", Func [] (TypeVar "X"))])))])
      (Rec "X" (Object [("num", Number); ("rest", Func [] (TypeVar "X"))])))
    true.
Proof.
  apply (typeEq_unfolding
           (Rec "X" (Object [("num", Number); ("rest", Func [] (TypeVar "X"))])) _ 1);
    reflexivity.
Defined.

(** X9 ([expandType], rec.ts): substitutions for two different variables
    commute when both replacement types are closed. *)
Theorem expandType_commutes (t : Ty) (x y : string) (s r : Ty) :
  x <> y -> closed s -> closed r ->
  expandType (expandType t x s) y r = expandType (expandType t y r) x s.
Proof. apply expandType_comm. Qed.

Lemma expandType_commutes_witness :
  expandType (expandType (Func [("a", TypeVar "X")] (TypeVar "Y")) "X" Number) "Y" Boolean =
  expandType (expandType (Func [("a", TypeVar "X")] (TypeVar "Y")) "Y" Boolean) "X" Number.
Proof.
  apply (expandType_commutes (Func [("a", TypeVar "X")] (TypeVar "Y")) "X" "Y"
           Number Boolean); [discriminate|reflexivity|reflexivity].
Defined.

(** *** More seen pairs *)

Lemma hasSeen_subset a b seen seen' :
  (forall s, s ∈ seen -> s ∈ seen') ->
  (forall s, s ∈ seen' -> closed s.1 /\ closed s.2) ->
  hasSeen a b seen = Ret true -> hasSeen a b seen' = Ret true.
Proof.
  intros Hsub Hclosed H.
  apply hasSeen_true in H as (s & Hs & H1 & H2).
  destruct (hasSeen_closed a b seen' Hclosed) as (r & -> & Hr).
  f_equal. apply Hr. exists s. split; [by apply Hsub|done].
Qed.

Lemma typeEqSub_more_seen n : forall a b seen seen',
  closed a -> closed b ->
  (forall s, s ∈ seen -> s ∈ seen') ->
  (forall s, s ∈ seen' -> closed s.1 /\ closed s.2) ->
  typeEqSub n a b seen = Ret true -> typeEqSub n a b seen' = Ret true.
Proof.
  induction n as [|n IH]; intros a b seen seen' Ha Hb Hsub Hclosed H; [discriminate|].
  cbn [typeEqSub] in *.
  destruct (hasSeen_closed a b seen' Hclosed) as (r' & E' & _). rewrite E'.
  destruct r'; [done|].
  destruct (hasSeen a b seen) as [[]| |] eqn:E; try discriminate.
  { rewrite (hasSeen_subset a b seen seen' Hsub Hclosed E) in E'. discriminate. }
  assert (Hsub' : forall s, s ∈ seen ++ [(a, b)] -> s ∈ seen' ++ [(a, b)]).
  { intros s [Hs|Hs]%elem_of_app; apply elem_of_app; [left; by apply Hsub|by right]. }
  assert (Hclosed' : forall s, s ∈ seen' ++ [(a, b)] -> closed s.1 /\ closed s.2).
  { intros s [Hs|Hs%list_elem_of_singleton]%elem_of_app; [by apply Hclosed|by subst]. }
  destruct (isRec a) eqn:Ea.
  { destruct (unwrapRecType n a) as [u| |] eqn:Eu; simpl in *; try discriminate.
    apply (IH u b (seen ++ [(a, b)])); try done.
    exact (unwrapRecType_closed n a u Ha Eu). }
  destruct (isRec b) eqn:Eb.
  { destruct (unwrapRecType n b) as [u| |] eqn:Eu; simpl in *; try discriminate.
    apply (IH a u (seen ++ [(a, b)])); try done.
    exact (unwrapRecType_closed n b u Hb Eu). }
  destruct b as [| |params2 retType2|props2|name2 body2|name2]; try done.
  - destruct a as [| |params1 retType1|props1|name1 body1|name1]; try done.
    destruct (negb _); [done|].
    apply closed_Func in Ha as [Hp1 Hr1]. apply closed_Func in Hb as [Hp2 Hr2].
    match type of H with context [forIndex ?f 0 params2] =>
      destruct (forIndex f 0 params2) as [[]| |] eqn:Eloop end; try discriminate.
    match goal with |- context [forIndex ?f 0 params2] =>
      replace (forIndex f 0 params2) with (@Ret bool true) end.
    + by apply (IH _ _ seen).
    + symmetry. apply (proj2 (forIndex_true _ _ _)). intros k p2 Hk.
      pose proof (proj1 (forIndex_true _ _ _) Eloop k p2 Hk) as Hp. simpl in *.
      destruct (params1 !! k) as [p1|] eqn:E1; [|discriminate].
      apply (IH _ _ seen); try done.
      * apply Hp1. by eapply list_elem_of_lookup_2.
      * apply Hp2. by eapply list_elem_of_lookup_2.
  - destruct a as [| |params1 retType1|props1|name1 body1|name1]; try done.
    destruct (negb _); [done|].
    apply (proj2 (forEach_true _ _)). apply Forall_forall. intros p2 Hin2.
    pose proof (proj1 (forEach_true _ _) H) as Hall. rewrite Forall_forall in Hall.
    specialize (Hall p2 Hin2). simpl in *.
    destruct (findProp p2.1 props1) as [p1|] eqn:E1; [|discriminate].
    apply (IH _ _ seen); try done.
    + apply findProp_Some in E1 as [Hin1 _]. by apply (proj1 (closed_Object props1) Ha).
    + by apply (proj1 (closed_Object props2) Hb).
Qed.

(** X10 ([typeEqSub], [hasSeen], rec.ts): on closed types, if [typeEqSub]
    answers [true] with a list of seen pairs, it answers [true] with every
    list of closed pairs that contains those pairs: assuming more pairs
    equal, in any order and with repetitions, never turns a [true] into
    something else. *)
Theorem typeEqSub_true_with_more_seen_pairs
    (n : nat) (a b : Ty) (seen seen' : list SeenTypePair) :
  closed a -> closed b ->
  (forall s, s ∈ seen -> s ∈ seen') ->
  (forall s, s ∈ seen' -> closed s.1 /\ closed s.2) ->
  typeEqSub n a b seen = Ret true -> typeEqSub n a b seen' = Ret true.
Proof. apply typeEqSub_more_seen. Qed.

Lemma typeEqSub_true_with_more_seen_pairs_witness :
  typeEqSub 4 (Func [("x", Number)] Boolean) (Func [("y", Number)] Boolean)
            [(Number, Boolean)] = Ret true.
Proof.
  apply (typeEqSub_true_with_more_seen_pairs 4
           (Func [("x", Number)] Boolean) (Func [("y", Number)] Boolean)
           [] [(Number, Boolean)]).
  - reflexivity.
  - reflexivity.
  - intros s Hs. by apply elem_of_nil in Hs.
  - intros s Hs. apply list_elem_of_singleton in Hs. subst s. split; reflexivity.
  - reflexivity.
Defined.

(** ** The type checker of rec.ts *)

Section Term_induction.
Variable P : Term -> Prop.
Hypothesis HTrue : P TmTrue.
Hypothesis HFalse : P TmFalse.
Hypothesis HIf : forall cond thn els, P cond -> P thn -> P els -> P (TmIf cond thn els).
Hypothesis HNumber : forall n, P (TmNumber n).
Hypothesis HAdd : forall l r, P l -> P r -> P (TmAdd l r).
Hypothesis HVar : forall name, P (TmVar name).
Hypothesis HFunc : forall params retType body, P body -> P (TmFunc params retType body).
Hypothesis HCall : forall func args, P func -> Forall P args -> P (TmCall func args).
Hypothesis HSeq : forall body rest, P body -> P rest -> P (TmSeq body rest).
Hypothesis HConst : forall name init rest, P init -> P rest -> P (TmConst name init rest).
Hypothesis HObjectNew : forall props,
  Forall (fun p : PropertyTerm => P p.2) props -> P (TmObjectNew props).
Hypothesis HObjectGet : forall obj propName, P obj -> P (TmObjectGet obj propName).
Hypothesis HRecFunc : forall funcName params retType body rest,
  P body -> P rest -> P (TmRecFunc funcName params retType body rest).

Fixpoint Term_ind (t : Term) : P t :=
  match t with
  | TmTrue => HTrue
  | TmFalse => HFalse
  | TmIf cond thn els => HIf cond thn els (Term_ind cond) (Term_ind thn) (Term_ind els)
  | TmNumber n => HNumber n
  | TmAdd l r => HAdd l r (Term_ind l) (Term_ind r)
  | TmVar name => HVar name
  | TmFunc params retType body => HFunc params retType body (Term_ind body)
  | TmCall func args =>
      HCall func args (Term_ind func)
        ((fix args_ind (l : list Term) : Forall P l :=
            match l with
            | [] => Forall_nil_2 _
            | a :: l' => Forall_cons_2 _ _ _ (Term_ind a) (args_ind l')
            end) args)
  | TmSeq body rest => HSeq body rest (Term_ind body) (Term_ind rest)
  | TmConst name init rest => HConst name init rest (Term_ind init) (Term_ind rest)
  | TmObjectNew props =>
      HObjectNew props
        ((fix props_ind (l : list (string * Term)) : Forall (fun p => P p.2) l :=
            match l with
            | [] => Forall_nil_2 _
            | p :: l' => Forall_cons_2 _ _ _ (Term_ind p.2) (props_ind l')
            end) props)
  | TmObjectGet obj propName => HObjectGet obj propName (Term_ind obj)
  | TmRecFunc funcName params retType body rest =>
      HRecFunc funcName params retType body rest (Term_ind body) (Term_ind rest)
  end.
End Term_induction.

(** The variables of a term that no enclosing [func], [recFunc] or [const]
    of the term binds. *)
Fixpoint freeTermVars (t : Term) : list string :=
  match t with
  | TmTrue | TmFalse | TmNumber _ => []
  | TmIf cond thn els => freeTermVars cond ++ freeTermVars thn ++ freeTermVars els
  | TmAdd l r => freeTermVars l ++ freeTermVars r
  | TmVar name => [name]
  | TmFunc params _ body => filter (fun x => x ∉ params.*1) (freeTermVars body)
  | TmCall func args => freeTermVars func ++ flat_map freeTermVars args
  | TmSeq body rest => freeTermVars body ++ freeTermVars rest
  | TmConst name init rest =>
      freeTermVars init ++ filter (fun x => x <> name) (freeTermVars rest)
  | TmObjectNew props => flat_map (fun p : PropertyTerm => freeTermVars p.2) props
  | TmObjectGet obj _ => freeTermVars obj
  | TmRecFunc funcName params _ body rest =>
      filter (fun x => x <> funcName /\ x ∉ params.*1) (freeTermVars body)
      ++ filter (fun x => x <> funcName) (freeTermVars rest)
  end.

(** The type annotations written in a term. *)
Fixpoint annotations (t : Term) : list Ty :=
  match t with
  | TmTrue | TmFalse | TmNumber _ | TmVar _ => []
  | TmIf cond thn els => annotations cond ++ annotations thn ++ annotations els
  | TmAdd l r => annotations l ++ annotations r
  | TmFunc params retType body =>
      params.*2 ++ option_list retType ++ annotations body
  | TmCall func args => annotations func ++ flat_map annotations args
  | TmSeq body rest => annotations body ++ annotations rest
  | TmConst _ init rest => annotations init ++ annotations rest
  | TmObjectNew props => flat_map (fun p : PropertyTerm => annotations p.2) props
  | TmObjectGet obj _ => annotations obj
  | TmRecFunc _ params retType body rest =>
      params.*2 ++ retType :: annotations body ++ annotations rest
  end.

(** The names a term declares: parameters, [const] names and the names of
    recursive functions.  Each is entered in the environment by the
    assignment [newTypeEnv[name] = type] of [TypeEnv.define]. *)
Fixpoint boundTermVars (t : Term) : list string :=
  match t with
  | TmTrue | TmFalse | TmNumber _ | TmVar _ => []
  | TmIf cond thn els => boundTermVars cond ++ boundTermVars thn ++ boundTermVars els
  | TmAdd l r => boundTermVars l ++ boundTermVars r
  | TmFunc params _ body => params.*1 ++ boundTermVars body
  | TmCall func args => boundTermVars func ++ flat_map boundTermVars args
  | TmSeq body rest => boundTermVars body ++ boundTermVars rest
  | TmConst name init rest => name :: boundTermVars init ++ boundTermVars rest
  | TmObjectNew props => flat_map (fun p : PropertyTerm => boundTermVars p.2) props
  | TmObjectGet obj _ => boundTermVars obj
  | TmRecFunc funcName params _ body rest =>
      funcName :: params.*1 ++ boundTermVars body ++ boundTermVars rest
  end.

(** The names of a term on which a look-up in the environment finds what
    the finite map holds: no free variable is a name every object inherits,
    and no declaration assigns to ["__proto__"]. *)
Definition ordinaryNames (t : Term) : Prop :=
  (forall x, x ∈ freeTermVars t -> x ∉ inheritedNames)
  /\ "__proto__" ∉ boundTermVars t.

(** *** Environments extended with parameters *)

Definition defineParams (typeEnv : TypeEnv) (params : list Param) : TypeEnv :=
  foldl (fun (newTypeEnv : TypeEnv) (param : Param) => <[param.1 := param.2]> newTypeEnv)
        typeEnv params.

Ltac fold_defineParams :=
  repeat match goal with
         | |- context [foldl ?f ?e ?ps] => change (foldl f e ps) with (defineParams e ps)
         | H : context [foldl ?f ?e ?ps] |- _ =>
             change (foldl f e ps) with (defineParams e ps) in H
         end.

Lemma defineParams_agree params : forall (env1 env2 : TypeEnv) x,
  (x ∉ params.*1 -> env1 !! x = env2 !! x) ->
  defineParams env1 params !! x = defineParams env2 params !! x.
Proof.
  induction params as [|p params IH]; intros env1 env2 x H; simpl.
  - apply H. apply not_elem_of_nil.
  - apply IH. intros Hx. destruct (decide (x = p.1)) as [->|Hne].
    + by rewrite !lookup_insert_eq.
    + rewrite !lookup_insert_ne by done. apply H.
      rewrite fmap_cons. intros [?|?]%elem_of_cons; done.
Qed.

Lemma defineParams_lookup_other params : forall (env : TypeEnv) x,
  x ∉ params.*1 -> defineParams env params !! x = env !! x.
Proof.
  induction params as [|p params IH]; intros env x H; simpl; [done|].
  rewrite fmap_cons in H. apply not_elem_of_cons in H as [Hne H].
  rewrite IH by done. by rewrite lookup_insert_ne.
Qed.

Lemma defineParams_lookup params : forall (env : TypeEnv) x T,
  defineParams env params !! x = Some T -> T ∈ params.*2 \/ env !! x = Some T.
Proof.
  induction params as [|p params IH]; intros env x T H; simpl in *; [by right|].
  destruct (IH _ _ _ H) as [Hin|Hin].
  - left. apply elem_of_cons. by right.
  - destruct (decide (x = p.1)) as [->|Hne].
    + rewrite lookup_insert_eq in Hin. injection Hin as <-. left.
      apply elem_of_cons. by left.
    + rewrite lookup_insert_ne in Hin by done. by right.
Qed.

(** X11 ([typecheck], rec.ts): the outcome of [typecheck] depends on the
    environment only through the types of the free variables of the term:
    two environments that agree on them give the same type, the same
    exception or the same non-termination. *)
Theorem typecheck_depends_only_on_free_variables
    (fuel : nat) (t : Term) (typeEnv1 typeEnv2 : TypeEnv) :
  (forall x, x ∈ freeTermVars t -> typeEnv1 !! x = typeEnv2 !! x) ->
  typecheck fuel t typeEnv1 = typecheck fuel t typeEnv2.
Proof.
  revert typeEnv1 typeEnv2.
  induction t as [| |cond thn els IHc IHt IHe|n|l r IHl IHr|name|params declared body IH
                 |func args IHf IHa|body rest IHb IHr|name init rest IHi IHr
                 |props IHp|obj propName IH|funcName params retType body rest IHb IHr]
    using Term_ind; intros env1 env2 H; cbn [typecheck]; cbn [freeTermVars] in H.
  - done.
  - done.
  - rewrite (IHc env1 env2), (IHt env1 env2), (IHe env1 env2); [done| | |];
      intros x Hx; apply H; rewrite !elem_of_app; auto.
  - done.
  - rewrite (IHl env1 env2), (IHr env1 env2); [done| |];
      intros x Hx; apply H; rewrite !elem_of_app; auto.
  - rewrite H; [done|]. by apply list_elem_of_singleton.
  - fold_defineParams.
    rewrite (IH (defineParams env1 params) (defineParams env2 params)); [done|].
    intros x Hx. apply defineParams_agree. intros Hnot. apply H.
    by apply list_elem_of_filter.
  - rewrite (IHf env1 env2) by (intros x Hx; apply H; rewrite elem_of_app; auto).
    destruct (typecheck fuel func env2) as [calleeType| |]; simpl; try done.
    destruct (unwrapRecType fuel calleeType) as [funcType| |]; simpl; try done.
    destruct funcType as [| |params retType| | |]; try done.
    destruct (negb _); [done|].
    match goal with |- match ?a with _ => _ end = match ?b with _ => _ end =>
      replace a with b; [done|] end.
    apply forIndexDo_ext. intros k arg Hk. simpl.
    rewrite Forall_forall in IHa.
    rewrite (IHa arg (list_elem_of_lookup_2 _ _ _ Hk) env2 env1); [done|].
    intros x Hx. symmetry. apply H. rewrite elem_of_app. right.
    apply elem_of_flat_map. exists arg. split; [by eapply list_elem_of_lookup_2|done].
  - rewrite (IHb env1 env2), (IHr env1 env2); [done| |];
      intros x Hx; apply H; rewrite !elem_of_app; auto.
  - rewrite (IHi env1 env2) by (intros x Hx; apply H; rewrite elem_of_app; auto).
    destruct (typecheck fuel init env2) as [initType| |]; simpl; try done.
    apply IHr. intros x Hx. unfold define, clone.
    destruct (decide (x = name)) as [->|Hne].
    + by rewrite !lookup_insert_eq.
    + rewrite !lookup_insert_ne by done. apply H. rewrite elem_of_app. right.
      by apply list_elem_of_filter.
  - replace (mapResult (fun p : PropertyTerm =>
                          type ← typecheck fuel p.2 env1; Ret (p.1, type)) props)
      with (mapResult (fun p : PropertyTerm =>
                          type ← typecheck fuel p.2 env2; Ret (p.1, type)) props); [done|].
    apply mapResult_ext. intros p Hp. rewrite Forall_forall in IHp.
    rewrite (IHp p Hp env2 env1); [done|].
    intros x Hx. symmetry. apply H. apply elem_of_flat_map. by exists p.
  - by rewrite (IH env1 env2).
  - fold_defineParams.
    rewrite (IHb (defineParams (define (clone env1) funcName (fn params retType)) params)
                 (defineParams (define (clone env2) funcName (fn params retType)) params)).
    + destruct (typecheck fuel body _) as [bodyType| |]; simpl; try done.
      destruct (typeEq fuel retType bodyType) as [[]| |]; simpl; try done.
      apply IHr. intros x Hx. unfold define, clone.
      destruct (decide (x = funcName)) as [->|Hne].
      * by rewrite !lookup_insert_eq.
      * rewrite !lookup_insert_ne by done. apply H. rewrite elem_of_app. right.
        by apply list_elem_of_filter.
    + intros x Hx. apply defineParams_agree. intros Hnot. unfold define, clone.
      destruct (decide (x = funcName)) as [->|Hne].
      * by rewrite !lookup_insert_eq.
      * rewrite !lookup_insert_ne by done. apply H. rewrite elem_of_app. left.
        by apply list_elem_of_filter.
Qed.

Lemma typecheck_depends_only_on_free_variables_witness :
  typecheck 3 (TmFunc [("x", Number)] None (TmAdd (TmVar "x") (TmVar "y")))
            {["y" := Number; "z" := Boolean]} =
  typecheck 3 (TmFunc [("x", Number)] None (TmAdd (TmVar "x") (TmVar "y")))
            {["y" := Number; "x" := Boolean]}.
Proof.
  apply (typecheck_depends_only_on_free_variables 3
           (TmFunc [("x", Number)] None (TmAdd (TmVar "x") (TmVar "y")))
           {["y" := Number; "z" := Boolean]} {["y" := Number; "x" := Boolean]}).
  intros x Hx. assert (x = "y") as ->; [|reflexivity].
  revert Hx. cbn [freeTermVars]. rewrite list_elem_of_filter.
  intros [Hnot Hin]. simpl in Hin.
  apply elem_of_cons in Hin as [->|Hin].
  - exfalso. apply Hnot. simpl. apply elem_of_cons. by left.
  - by apply list_elem_of_singleton in Hin.
Defined.

(** *** What a successful check implies *)

(** Inversion of a successful [m >>= k]. *)
Ltac bind_inv H :=
  repeat match type of H with
         | (?m ≫= _) = _ =>
             let E := fresh "E" in
             destruct m as [?| |] eqn:E; simpl in H; try discriminate H
         end.

Lemma typecheck_Ret_bound
    (fuel : nat) (t : Term) (typeEnv : TypeEnv) (type : Ty) :
  typecheck fuel t typeEnv = Ret type ->
  forall x, x ∈ freeTermVars t -> is_Some (typeEnv !! x).
Proof.
  revert typeEnv type.
  induction t as [| |cond thn els IHc IHt IHe|n|l r IHl IHr|name|params declared body IH
                 |func args IHf IHa|body rest IHb IHr|name init rest IHi IHr
                 |props IHp|obj propName IH|funcName params retType body rest IHb IHr]
    using Term_ind; intros env T H x Hx; cbn [typecheck] in H; cbn [freeTermVars] in Hx;
    unfold error in H.
  - by apply elem_of_nil in Hx.
  - by apply elem_of_nil in Hx.
  - bind_inv H. rewrite !elem_of_app in Hx. destruct Hx as [Hx|[Hx|Hx]]; eauto.
  - by apply elem_of_nil in Hx.
  - bind_inv H. destruct (negb _); [discriminate|]. bind_inv H.
    rewrite !elem_of_app in Hx. destruct Hx as [Hx|Hx]; eauto.
  - apply list_elem_of_singleton in Hx as ->.
    destruct (env !! name); [done|discriminate].
  - fold_defineParams. bind_inv H.
    apply list_elem_of_filter in Hx as [Hnot Hx].
    rewrite <- (defineParams_lookup_other params env x Hnot). eauto.
  - destruct (typecheck fuel func env) as [calleeType| |] eqn:Ef; simpl in H;
      try discriminate.
    destruct (unwrapRecType fuel calleeType) as [funcType| |] eqn:Eu; simpl in H;
      try discriminate.
    destruct funcType as [| |params retType| | |]; try discriminate.
    destruct (negb _); [discriminate|].
    match type of H with context [forIndexDo ?f 0 args] =>
      destruct (forIndexDo f 0 args) as [u| |] eqn:Eloop; try discriminate end.
    rewrite elem_of_app in Hx. destruct Hx as [Hx|Hx]; [eauto|].
    apply elem_of_flat_map in Hx as (arg & Harg & Hx).
    apply list_elem_of_lookup_1 in Harg as [k Hk].
    destruct (forIndexDo_Ret _ _ _ _ Eloop k arg Hk) as [v Hv]. simpl in Hv.
    bind_inv Hv. rewrite Forall_forall in IHa.
    eapply (IHa arg); [by eapply list_elem_of_lookup_2|done|done].
  - bind_inv H. rewrite !elem_of_app in Hx. destruct Hx as [Hx|Hx]; eauto.
  - bind_inv H. rewrite !elem_of_app in Hx. destruct Hx as [Hx|Hx]; [eauto|].
    apply list_elem_of_filter in Hx as [Hne Hx].
    pose proof (IHr _ _ H x Hx) as Hs. unfold define, clone in Hs.
    by rewrite lookup_insert_ne in Hs.
  - match type of H with context [mapResult ?f props] =>
      destruct (mapResult f props) as [props'| |] eqn:Emap; try discriminate end.
    apply elem_of_flat_map in Hx as (p & Hp & Hx).
    destruct (mapResult_Ret_elem _ _ _ Emap p Hp) as (y & _ & Hy). simpl in Hy.
    bind_inv Hy. rewrite Forall_forall in IHp. by eapply (IHp p).
  - bind_inv H. eauto.
  - fold_defineParams.
    destruct (typecheck fuel body _) as [bodyType| |] eqn:Eb; simpl in H;
      try discriminate.
    destruct (typeEq fuel retType bodyType) as [[]| |] eqn:Eq; simpl in H;
      try discriminate.
    rewrite elem_of_app in Hx. destruct Hx as [Hx|Hx].
    + apply list_elem_of_filter in Hx as [[Hne Hnot] Hx].
      pose proof (IHb _ _ Eb x Hx) as Hs.
      rewrite (defineParams_lookup_other params _ x Hnot) in Hs.
      unfold define, clone in Hs. by rewrite lookup_insert_ne in Hs.
    + apply list_elem_of_filter in Hx as [Hne Hx].
      pose proof (IHr _ _ H x Hx) as Hs. unfold define, clone in Hs.
      by rewrite lookup_insert_ne in Hs.
Qed.

(** X12 ([typecheck], rec.ts): for a term whose free variables are not
    names every object inherits and which declares no variable named
    ["__proto__"], when [typecheck] returns a type every free variable of
    the term has an entry in the environment: a term with a variable that
    nothing binds is not accepted.  (A free variable named like an
    inherited property, such as [toString], passes the test
    [t.name in typeEnv] without an entry.) *)
Theorem typecheck_accepts_only_bound_variables
    (fuel : nat) (t : Term) (typeEnv : TypeEnv) (type : Ty) :
  ordinaryNames t ->
  typecheck fuel t typeEnv = Ret type ->
  forall x, x ∈ freeTermVars t -> is_Some (typeEnv !! x).
Proof. intros _. apply typecheck_Ret_bound. Qed.

Lemma typecheck_accepts_only_bound_variables_witness :
  is_Some (({["b" := Number; "c" := Number]} : TypeEnv) !! "c").
Proof.
  apply (typecheck_accepts_only_bound_variables 1
           (TmConst "a" (TmVar "b") (TmAdd (TmVar "a") (TmVar "c")))
           {["b" := Number; "c" := Number]} Number).
  - split; [|compute_done].
    intros x Hx. cbn in Hx.
    apply elem_of_cons in Hx as [->|Hx]; [compute_done|].
    apply list_elem_of_singleton in Hx as ->. compute_done.
  - reflexivity.
  - compute_done.
Defined.

(** *** Closed annotations: closed types and user errors only *)

(** The messages of the type errors that [typecheck] reports with [error]. *)
Definition userError (msg : string) : Prop :=
  msg ∈ ["number expected"; "branches must have the same type"; "wrong return type";
         "function expected"; "wrong number of arguments"; "argument type mismatch";
         "object expected"]
  \/ (exists name, msg = "Unknown variable: " +:+ name)
  \/ (exists propName, msg = "Unknown property: " +:+ propName).

Definition closedTypeEnv (typeEnv : TypeEnv) : Prop :=
  forall x type, typeEnv !! x = Some type -> closed type.

Definition closedOutcome (r : result Ty) : Prop :=
  match r with
  | Ret type => closed type
  | Throw msg => userError msg
  | Diverge => True
  end.

Lemma closedTypeEnv_define typeEnv name type :
  closedTypeEnv typeEnv -> closed type -> closedTypeEnv (define typeEnv name type).
Proof.
  intros He Ht x T. unfold define, clone.
  destruct (decide (x = name)) as [->|Hne].
  - rewrite lookup_insert_eq. by intros [= <-].
  - rewrite lookup_insert_ne by done. apply He.
Qed.

Lemma closedTypeEnv_defineParams typeEnv params :
  closedTypeEnv typeEnv -> (forall T, T ∈ params.*2 -> closed T) ->
  closedTypeEnv (defineParams typeEnv params).
Proof.
  intros He Hp x T H. apply defineParams_lookup in H as [H|H]; [by apply Hp|by eapply He].
Qed.

Lemma typeEq_closed_outcome fuel a b :
  closed a -> closed b -> forall msg, typeEq fuel a b <> Throw msg.
Proof.
  intros Ha Hb msg. apply typeEqSub_closed_no_throw; [done|done|].
  intros s Hs. by apply elem_of_nil in Hs.
Qed.

Ltac user_error :=
  first [ left; compute_done
        | right; left; eexists; reflexivity
        | right; right; eexists; reflexivity ].

Lemma typecheck_closedOutcome fuel t : forall typeEnv,
  closedTypeEnv typeEnv -> (forall T, T ∈ annotations t -> closed T) ->
  closedOutcome (typecheck fuel t typeEnv).
Proof.
  induction t as [| |cond thn els IHc IHt IHe|n|l r IHl IHr|name|params declared body IH
                 |func args IHf IHa|body rest IHb IHr|name init rest IHi IHr
                 |props IHp|obj propName IH|funcName params retType body rest IHb IHr]
    using Term_ind; intros env Henv Hann; cbn [typecheck]; cbn [annotations] in Hann;
    unfold error.
  - done.
  - done.
  - pose proof (IHc env Henv) as Hc. pose proof (IHt env Henv) as Ht.
    pose proof (IHe env Henv) as He.
    destruct (typecheck fuel cond env) as [condType| |]; simpl;
      [|apply Hc; intros; apply Hann; rewrite !elem_of_app; auto|done].
    destruct (typecheck fuel thn env) as [thenType| |]; simpl;
      [|apply Ht; intros; apply Hann; rewrite !elem_of_app; auto|done].
    destruct (typecheck fuel els env) as [elseType| |]; simpl;
      [|apply He; intros; apply Hann; rewrite !elem_of_app; auto|done].
    destruct (unwrapRecType fuel thenType) as [u1| |] eqn:E1; simpl;
      [|by apply unwrapRecType_no_throw in E1|done].
    destruct (unwrapRecType fuel elseType) as [u2| |] eqn:E2; simpl;
      [|by apply unwrapRecType_no_throw in E2|done].
    destruct (negb _); simpl; [user_error|].
    apply Ht. intros; apply Hann; rewrite !elem_of_app; auto.
  - done.
  - pose proof (IHl env Henv) as Hl. pose proof (IHr env Henv) as Hr.
    destruct (typecheck fuel l env) as [leftType| |]; simpl;
      [|apply Hl; intros; apply Hann; rewrite !elem_of_app; auto|done].
    destruct (unwrapRecType fuel leftType) as [u1| |] eqn:E1; simpl;
      [|by apply unwrapRecType_no_throw in E1|done].
    destruct (negb _); simpl; [user_error|].
    destruct (typecheck fuel r env) as [rightType| |]; simpl;
      [|apply Hr; intros; apply Hann; rewrite !elem_of_app; auto|done].
    destruct (unwrapRecType fuel rightType) as [u2| |] eqn:E2; simpl;
      [|by apply unwrapRecType_no_throw in E2|done].
    destruct (negb _); simpl; [user_error|done].
  - destruct (env !! name) as [T|] eqn:E; simpl; [by eapply Henv|user_error].
  - fold_defineParams.
    assert (Hparams : forall T, T ∈ params.*2 -> closed T).
    { intros T HT. apply Hann. rewrite !elem_of_app. auto. }
    pose proof (IH (defineParams env params)
                  (closedTypeEnv_defineParams env params Henv Hparams)) as Hb.
    destruct (typecheck fuel body _) as [bodyType| |]; simpl;
      [|apply Hb; intros; apply Hann; rewrite !elem_of_app; auto|done].
    assert (Hbody : closed bodyType).
    { apply Hb. intros; apply Hann; rewrite !elem_of_app; auto. }
    assert (Hfn : closed (fn params bodyType)).
    { apply closed_Func. split; [|done]. intros p Hp. apply Hparams.
      apply list_elem_of_fmap. by exists p. }
    destruct declared as [declaredRetType|]; [|exact Hfn].
    destruct (typeEq fuel declaredRetType bodyType) as [[]| |] eqn:Eq; simpl.
    + exact Hfn.
    + user_error.
    + exfalso. revert Eq. apply typeEq_closed_outcome; [|done].
      apply Hann. rewrite !elem_of_app. right. left. simpl.
      apply elem_of_cons. by left.
    + done.
  - pose proof (IHf env Henv) as Hf.
    destruct (typecheck fuel func env) as [calleeType| |]; simpl;
      [|apply Hf; intros; apply Hann; rewrite !elem_of_app; auto|done].
    assert (Hcallee : closed calleeType).
    { apply Hf. intros; apply Hann; rewrite !elem_of_app; auto. }
    destruct (unwrapRecType fuel calleeType) as [funcType| |] eqn:Eu; simpl;
      [|by apply unwrapRecType_no_throw in Eu|done].
    pose proof (unwrapRecType_closed _ _ _ Hcallee Eu) as Hfunc.
    destruct funcType as [| |params retType| | |]; try user_error.
    apply closed_Func in Hfunc as [Hparams Hret].
    destruct (Nat.eqb (length args) (length params)) eqn:El; simpl; [|user_error].
    apply Nat.eqb_eq in El.
    match goal with |- context [forIndexDo ?f 0 args] =>
      destruct (forIndexDo f 0 args) as [u| |] eqn:Eloop end; simpl; [done| |done].
    apply forIndexDo_Throw in Eloop as (k & arg & Hk & Hthrow). simpl in Hthrow.
    rewrite Forall_forall in IHa.
    pose proof (IHa arg (list_elem_of_lookup_2 _ _ _ Hk) env Henv) as Harg.
    assert (Hann' : forall T, T ∈ annotations arg -> closed T).
    { intros T HT. apply Hann. rewrite elem_of_app. right.
      apply elem_of_flat_map. exists arg. split; [by eapply list_elem_of_lookup_2|done]. }
    specialize (Harg Hann').
    destruct (typecheck fuel arg env) as [argType| |]; simpl in Hthrow;
      [|by injection Hthrow as <-|discriminate].
    destruct (params !! k) as [p|] eqn:Ep.
    + destruct (typeEq fuel argType p.2) as [[]| |] eqn:Eq; simpl in Hthrow;
        try discriminate.
      * injection Hthrow as <-. user_error.
      * exfalso. revert Eq. apply typeEq_closed_outcome; [done|].
        apply Hparams. by eapply list_elem_of_lookup_2.
    + apply lookup_ge_None in Ep. apply lookup_lt_Some in Hk. lia.
  - pose proof (IHb env Henv) as Hb. pose proof (IHr env Henv) as Hr.
    destruct (typecheck fuel body env) as [bodyType| |]; simpl;
      [|apply Hb; intros; apply Hann; rewrite !elem_of_app; auto|done].
    apply Hr. intros; apply Hann; rewrite !elem_of_app; auto.
  - pose proof (IHi env Henv) as Hi.
    destruct (typecheck fuel init env) as [initType| |]; simpl;
      [|apply Hi; intros; apply Hann; rewrite !elem_of_app; auto|done].
    apply IHr.
    + apply closedTypeEnv_define; [done|].
      apply Hi. intros; apply Hann; rewrite !elem_of_app; auto.
    + intros; apply Hann; rewrite !elem_of_app; auto.
  - match goal with |- context [mapResult ?f props] =>
      destruct (mapResult f props) as [props'| |] eqn:Emap end; simpl; [| |done].
    + apply closed_Object. intros q Hq.
      destruct (mapResult_Ret_elem_r _ _ _ Emap q Hq) as (p & Hp & Hf). simpl in Hf.
      rewrite Forall_forall in IHp. pose proof (IHp p Hp env Henv) as Hout.
      destruct (typecheck fuel p.2 env) as [T| |]; simpl in Hf; try discriminate.
      injection Hf as <-. simpl. apply Hout.
      intros T' HT'. apply Hann. apply elem_of_flat_map. by exists p.
    + apply mapResult_Throw in Emap as (p & Hp & Hf). simpl in Hf.
      rewrite Forall_forall in IHp. pose proof (IHp p Hp env Henv) as Hout.
      destruct (typecheck fuel p.2 env) as [T| |]; simpl in Hf; try discriminate.
      injection Hf as <-. apply Hout.
      intros T' HT'. apply Hann. apply elem_of_flat_map. by exists p.
  - pose proof (IH env Henv Hann) as Ho.
    destruct (typecheck fuel obj env) as [receiverType| |]; simpl; [|exact Ho|done].
    destruct (unwrapRecType fuel receiverType) as [objType| |] eqn:Eu; simpl;
      [|by apply unwrapRecType_no_throw in Eu|done].
    pose proof (unwrapRecType_closed _ _ _ Ho Eu) as Hobj.
    destruct objType as [| | |props| |]; try user_error.
    destruct (findProp propName props) as [p|] eqn:Ep; [|user_error].
    simpl. apply findProp_Some in Ep as [Hin _].
    by apply (proj1 (closed_Object props) Hobj).
  - fold_defineParams.
    assert (Hparams : forall T, T ∈ params.*2 -> closed T).
    { intros T HT. apply Hann. rewrite !elem_of_app. auto. }
    assert (Hret : closed retType).
    { apply Hann. rewrite !elem_of_app. right. apply elem_of_cons. by left. }
    assert (Hfn : closed (fn params retType)).
    { apply closed_Func. split; [|done]. intros p Hp. apply Hparams.
      apply list_elem_of_fmap. by exists p. }
    assert (Houter : closedTypeEnv (define (clone env) funcName (fn params retType))).
    { by apply closedTypeEnv_define. }
    pose proof (IHb _ (closedTypeEnv_defineParams _ params Houter Hparams)) as Hb.
    assert (Hann_body : forall T, T ∈ annotations body -> closed T).
    { intros T HT. apply Hann. rewrite !elem_of_app. right. apply elem_of_cons. right.
      rewrite elem_of_app. by left. }
    specialize (Hb Hann_body).
    destruct (typecheck fuel body _) as [bodyType| |]; simpl; [|exact Hb|done].
    destruct (typeEq fuel retType bodyType) as [[]| |] eqn:Eq; simpl.
    + apply IHr; [done|]. intros T HT. apply Hann. rewrite !elem_of_app. right.
      apply elem_of_cons. right. rewrite elem_of_app. by right.
    + user_error.
    + exfalso. revert Eq. by apply typeEq_closed_outcome.
    + done.
Qed.

(** X13 ([typecheck], rec.ts): for a term whose free variables are not
    names every object inherits and which declares no variable named
    ["__proto__"], when the types of the environment and the type
    annotations of the term are closed, every type [typecheck] returns is
    closed, and every exception it raises is one of the type errors it
    reports itself: the exceptions of the type comparison ("unreachable",
    an unknown type variable, a parameter read out of range) do not
    occur.  (A free variable named like an inherited property is given a
    value that is no type, on which the comparison does throw.) *)
Theorem typecheck_closed_types_and_user_errors
    (fuel : nat) (t : Term) (typeEnv : TypeEnv) :
  ordinaryNames t ->
  closedTypeEnv typeEnv -> (forall T, T ∈ annotations t -> closed T) ->
  (forall type, typecheck fuel t typeEnv = Ret type -> closed type)
  /\ (forall msg, typecheck fuel t typeEnv = Throw msg -> userError msg).
Proof.
  intros _ Henv Hann.
  pose proof (typecheck_closedOutcome fuel t typeEnv Henv Hann) as H.
  split.
  - intros type E. by rewrite E in H.
  - intros msg E. by rewrite E in H.
Qed.

Lemma typecheck_closed_types_and_user_errors_witness :
  (forall type,
     typecheck 5 (TmCall (TmFunc [("x", Number)] None (TmVar "x")) [TmTrue]) ∅ = Ret type ->
     closed type)
  /\ (forall msg,
        typecheck 5 (TmCall (TmFunc [("x", Number)] None (TmVar "x")) [TmTrue]) ∅
        = Throw msg ->
        userError msg).
Proof.
  apply (typecheck_closed_types_and_user_errors 5
           (TmCall (TmFunc [("x", Number)] None (TmVar "x")) [TmTrue]) ∅).
  - split; [|compute_done]. intros x Hx. cbn in Hx. by apply elem_of_nil in Hx.
  - intros x type H. rewrite lookup_empty in H. discriminate.
  - intros T HT. simpl in HT. apply list_elem_of_singleton in HT. subst T. reflexivity.
Defined.

(** *** Object literals *)

Lemma mapResult_names fuel typeEnv (props : list PropertyTerm) (props' : list PropertyType) :
  mapResult (fun p : PropertyTerm => type ← typecheck fuel p.2 typeEnv; Ret (p.1, type))
            props = Ret props' ->
  props'.*1 = props.*1
  /\ forall propName,
       match find (fun p : PropertyTerm => String.eqb p.1 propName) props with
       | Some p => exists type, typecheck fuel p.2 typeEnv = Ret type
                                /\ findProp propName props' = Some (p.1, type)
       | None => findProp propName props' = None
       end.
Proof.
  revert props'. induction props as [|p props IH]; intros props' H; simpl in H.
  - injection H as <-. done.
  - destruct (typecheck fuel p.2 typeEnv) as [T| |] eqn:E; simpl in H; try discriminate.
    match type of H with context [mapResult ?f props] =>
      destruct (mapResult f props) as [ps| |] eqn:Emap; try discriminate end.
    injection H as <-. destruct (IH ps eq_refl) as [Hn Hf]. split.
    + rewrite !fmap_cons. by rewrite Hn.
    + intros propName. unfold findProp. simpl.
      destruct (String.eqb p.1 propName) eqn:En.
      * exists T. done.
      * apply Hf.
Qed.

(** X14 ([typecheck], cases ["objectNew"] and ["objectGet"], rec.ts): the
    type of an object literal lists the fields of the literal in their
    order, a repeated name included each time, and reading a property of
    the literal gives the type of the FIRST field of that name, or the
    error "Unknown property" when there is none. *)
Theorem objectGet_of_objectNew
    (fuel : nat) (props : list PropertyTerm) (typeEnv : TypeEnv) (type : Ty) :
  typecheck fuel (TmObjectNew props) typeEnv = Ret type ->
  (exists props', type = Object props' /\ props'.*1 = props.*1)
  /\ forall propName,
       typecheck fuel (TmObjectGet (TmObjectNew props) propName) typeEnv =
       match find (fun p : PropertyTerm => String.eqb p.1 propName) props with
       | Some p => typecheck fuel p.2 typeEnv
       | None => Throw ("Unknown property: " +:+ propName)
       end.
Proof.
  intros H. cbn [typecheck] in *.
  match type of H with context [mapResult ?f props] =>
    destruct (mapResult f props) as [props'| |] eqn:Emap; try discriminate end.
  simpl in H. injection H as <-.
  destruct (mapResult_names _ _ _ _ Emap) as [Hn Hf]. split.
  - by exists props'.
  - intros propName. unfold object, error. simpl.
    rewrite unwrapRecType_not_Rec by done. simpl. specialize (Hf propName).
    destruct (find _ props) as [p|].
    + destruct Hf as (T & -> & ->). done.
    + by rewrite Hf.
Qed.

Lemma objectGet_of_objectNew_witness :
  (exists props',
     Object [("a", Number); ("a", Boolean)] = Object props'
     /\ props'.*1 = [("a", TmNumber 1); ("a", TmTrue)].*1)
  /\ forall propName,
       typecheck 0 (TmObjectGet (TmObjectNew [("a", TmNumber 1); ("a", TmTrue)]) propName) ∅ =
       match find (fun p : PropertyTerm => String.eqb p.1 propName)
                  [("a", TmNumber 1); ("a", TmTrue)] with
       | Some p => typecheck 0 p.2 ∅
       | None => Throw ("Unknown property: " +:+ propName)
       end.
Proof.
  apply (objectGet_of_objectNew 0 [("a", TmNumber 1); ("a", TmTrue)] ∅
           (Object [("a", Number); ("a", Boolean)])).
  reflexivity.
Defined.

(** ** Termination of the type checker of rec.ts *)

(** The call returns a value that satisfies [P], or throws, whenever the
    bound on the stack depth is large enough. *)
Definition halts {A : Type} (F : nat -> result A) (P : A -> Prop) : Prop :=
  exists N r, r <> Diverge /\ (forall n, N <= n -> F n = r) /\ forall a, r = Ret a -> P a.

Lemma halts_ret {A : Type} (a : A) (P : A -> Prop) : P a -> halts (fun _ => Ret a) P.
Proof. intros H. exists 0, (Ret a). split; [done|]. split; [done|]. by intros ? [= <-]. Qed.

Lemma halts_throw {A : Type} (msg : string) (P : A -> Prop) :
  halts (fun _ => Throw msg) P.
Proof. exists 0, (Throw msg). done. Qed.

Lemma halts_bind {A B : Type} (F : nat -> result A) (K : nat -> A -> result B)
    (P : A -> Prop) (Q : B -> Prop) :
  halts F P -> (forall a, P a -> halts (fun n => K n a) Q) ->
  halts (fun n => F n ≫= K n) Q.
Proof.
  intros (N1 & r1 & Hr1 & E1 & HP) HK.
  destruct r1 as [a| |]; [| |done].
  - destruct (HK a (HP a eq_refl)) as (N2 & r2 & Hr2 & E2 & HQ).
    exists (max N1 N2), r2. split; [done|]. split; [|done].
    intros n Hn. rewrite E1 by lia. simpl. apply E2. lia.
  - exists N1, (Throw msg). split; [done|]. split; [|done].
    intros n Hn. by rewrite E1.
Qed.

Lemma halts_returns {A : Type} (F : nat -> result A) (P : A -> Prop) (a : A) :
  (forall n m r, n <= m -> F n = r -> r <> Diverge -> F m = r) ->
  returns F a -> P a -> halts F P.
Proof.
  intros Hmono [N HN] HP. exists N, (Ret a). split; [done|]. split.
  - intros n Hn. by apply (Hmono N n).
  - by intros ? [= <-].
Qed.

Lemma halts_forIndexDo {A : Type} (F : nat -> nat -> A -> result unit) (l : list A) :
  forall i,
  (forall k x, l !! k = Some x -> halts (fun n => F n (i + k) x) (fun _ => True)) ->
  halts (fun n => forIndexDo (F n) i l) (fun _ => True).
Proof.
  induction l as [|x l IH]; intros i H.
  - exists 0, (Ret tt). done.
  - destruct (H 0 x eq_refl) as (N1 & r1 & Hr1 & E1 & _). rewrite Nat.add_0_r in E1.
    destruct r1 as [u| |]; [| |done].
    + destruct (IH (S i)) as (N2 & r2 & Hr2 & E2 & _).
      { intros k y Hk. replace (S i + k) with (i + S k) by lia. by apply H. }
      exists (max N1 N2), r2. split; [done|]. split; [|done].
      intros n Hn. simpl. rewrite E1 by lia. apply E2. lia.
    + exists N1, (Throw msg). split; [done|]. split; [|done].
      intros n Hn. simpl. by rewrite E1.
Qed.

Lemma halts_mapResult {A B : Type} (F : nat -> A -> result B) (P : B -> Prop)
    (l : list A) :
  (forall x, x ∈ l -> halts (fun n => F n x) P) ->
  halts (fun n => mapResult (F n) l)
        (fun ys => Forall P ys /\ Forall2 (fun x y => exists n, F n x = Ret y) l ys).
Proof.
  induction l as [|x l IH]; intros H.
  - exists 0, (Ret []). split; [done|]. split; [done|]. intros ? [= <-].
    split; constructor.
  - destruct (H x) as (N1 & r1 & Hr1 & E1 & HP1); [apply elem_of_cons; by left|].
    destruct r1 as [y| |]; [| |done].
    + destruct IH as (N2 & r2 & Hr2 & E2 & HP2).
      { intros z Hz. apply H. apply elem_of_cons. by right. }
      destruct r2 as [ys| |]; [| |done].
      * exists (max N1 N2), (Ret (y :: ys)). split; [done|]. split.
        -- intros n Hn. simpl. rewrite E1 by lia. by rewrite E2 by lia.
        -- intros ? [= <-]. destruct (HP2 ys eq_refl) as [HPys Hys].
           split; constructor; try done; [by apply HP1|].
           exists N1. by apply E1.
      * exists (max N1 N2), (Throw msg). split; [done|]. split; [|done].
        intros n Hn. simpl. rewrite E1 by lia. by rewrite E2 by lia.
    + exists N1, (Throw msg). split; [done|]. split; [|done].
      intros n Hn. simpl. by rewrite E1.
Qed.

(** *** Types the comparison terminates on *)

(** The type belongs to a finite set of closed types with unique field
    names that has the components and the unfolding of each of its
    members. *)
Definition good (t : Ty) : Prop := exists U, universe U /\ t ∈ U.

Lemma good_wellFormed t : wellFormed t = true -> good t.
Proof. intros H. exists (collect [] t). by apply wellFormed_universe. Qed.

Lemma good_Func_inv params retType :
  good (Func params retType) -> good retType /\ forall p, p ∈ params -> good p.2.
Proof.
  intros (U & HU & Ht). destruct (univ_Func U HU params retType Ht) as [Hr Hp].
  split; [by exists U|]. intros p Hin. exists U. split; [done|by apply Hp].
Qed.

Lemma good_Object_inv props : good (Object props) -> forall p, p ∈ props -> good p.2.
Proof.
  intros (U & HU & Ht) p Hin. exists U. split; [done|].
  by apply (univ_Object U HU props Ht).
Qed.

Lemma universe_nil : universe [].
Proof. split; intros; by match goal with H : _ ∈ [] |- _ => apply elem_of_nil in H end. Qed.

Lemma good_list (l : list Ty) :
  (forall t, t ∈ l -> good t) -> exists U, universe U /\ forall t, t ∈ l -> t ∈ U.
Proof.
  induction l as [|t l IH]; intros H.
  - exists []. split; [apply universe_nil|]. by intros t Ht%elem_of_nil.
  - destruct (H t) as (U1 & HU1 & Ht); [apply elem_of_cons; by left|].
    destruct IH as (U2 & HU2 & Hl).
    { intros s Hs. apply H. apply elem_of_cons. by right. }
    exists (U1 ++ U2). split; [by apply universe_app|].
    intros s [->|Hs]%elem_of_cons; apply elem_of_app; [by left|right; by apply Hl].
Qed.

Lemma universe_cons t U :
  universe U -> closed t -> uniqueFields t = true -> isRec t = false ->
  (forall params retType, t = Func params retType ->
     retType ∈ U /\ forall p, p ∈ params -> p.2 ∈ U) ->
  (forall props, t = Object props -> forall p, p ∈ props -> p.2 ∈ U) ->
  universe (t :: U).
Proof.
  intros HU Hc Hu Hr HF HO. split.
  - intros s [->|Hs]%elem_of_cons; [done|by apply (univ_closed U HU)].
  - intros s [->|Hs]%elem_of_cons; [done|by apply (univ_unique U HU)].
  - intros params retType [E|Hs]%elem_of_cons.
    + destruct (HF params retType (eq_sym E)) as [H1 H2]. split.
      * apply elem_of_cons. by right.
      * intros p Hp. apply elem_of_cons. right. by apply H2.
    + destruct (univ_Func U HU params retType Hs) as [H1 H2]. split.
      * apply elem_of_cons. by right.
      * intros p Hp. apply elem_of_cons. right. by apply H2.
  - intros props [E|Hs]%elem_of_cons p Hp; apply elem_of_cons; right.
    + by apply (HO props (eq_sym E)).
    + by apply (univ_Object U HU props Hs).
  - intros s [->|Hs]%elem_of_cons Hrec; [congruence|].
    destruct (univ_Rec U HU s Hs Hrec) as (u & Hu' & Hin).
    exists u. split; [done|]. apply elem_of_cons. by right.
Qed.

Lemma good_Func params retType :
  (forall p, p ∈ params -> good p.2) -> good retType -> good (Func params retType).
Proof.
  intros Hp Hr.
  destruct (good_list (retType :: params.*2)) as (U & HU & Hin).
  { intros t [->|Ht]%elem_of_cons; [done|].
    apply list_elem_of_fmap in Ht as (p & -> & Hin). by apply Hp. }
  assert (Hret : retType ∈ U) by (apply Hin, elem_of_cons; by left).
  assert (Hps : forall p, p ∈ params -> p.2 ∈ U).
  { intros p Hin'. apply Hin, elem_of_cons. right. apply list_elem_of_fmap. by exists p. }
  exists (Func params retType :: U). split; [|apply elem_of_cons; by left].
  apply universe_cons; try done.
  - apply closed_Func. split; [|by apply (univ_closed U HU)].
    intros p Hin'. apply (univ_closed U HU). by apply Hps.
  - apply uniqueFields_Func. split; [|by apply (univ_unique U HU)].
    intros p Hin'. apply (univ_unique U HU). by apply Hps.
  - by intros ? ? [= <- <-].
Qed.

Lemma good_Object props :
  NoDup props.*1 -> (forall p, p ∈ props -> good p.2) -> good (Object props).
Proof.
  intros Hnd Hp.
  destruct (good_list (props.*2)) as (U & HU & Hin).
  { intros t Ht. apply list_elem_of_fmap in Ht as (p & -> & Hin). by apply Hp. }
  assert (Hps : forall p, p ∈ props -> p.2 ∈ U).
  { intros p Hin'. apply Hin. apply list_elem_of_fmap. by exists p. }
  exists (Object props :: U). split; [|apply elem_of_cons; by left].
  apply universe_cons; try done.
  - apply closed_Object. intros p Hin'. apply (univ_closed U HU). by apply Hps.
  - apply uniqueFields_Object. split; [done|].
    intros p Hin'. apply (univ_unique U HU). by apply Hps.
  - by intros ? [= <-].
Qed.

Lemma halts_unwrapRecType t : good t -> halts (fun n => unwrapRecType n t) good.
Proof.
  intros (U & HU & Ht). destruct (isRec t) eqn:Er.
  - destruct (univ_Rec U HU t Ht Er) as (u & Hu & Hin).
    apply (halts_returns _ _ u); [intros n m r; apply unwrapRecType_mono|done|by exists U].
  - apply (halts_returns _ _ t); [intros n m r; apply unwrapRecType_mono| |by exists U].
    exists 0. by apply unwrapRecType_not_Rec.
Qed.

Lemma halts_typeEq a b : good a -> good b -> halts (fun n => typeEq n a b) (fun _ => True).
Proof.
  intros (U1 & HU1 & Ha) (U2 & HU2 & Hb).
  destruct (relSub_total Equality (U1 ++ U2) (universe_app U1 U2 HU1 HU2) a b)
    as (r & [N HN] & _).
  { apply elem_of_app. by left. }
  { apply elem_of_app. by right. }
  apply (halts_returns _ _ r); [intros n m r'; apply typeEq_mono| |done].
  exists N. unfold typeEq. by rewrite typeEqSub_relSub.
Qed.

(** *** The checker *)

(** Every object literal of the term has pairwise different field names. *)
Fixpoint uniqueLiterals (t : Term) : bool :=
  match t with
  | TmTrue | TmFalse | TmNumber _ | TmVar _ => true
  | TmIf cond thn els => uniqueLiterals cond && uniqueLiterals thn && uniqueLiterals els
  | TmAdd l r => uniqueLiterals l && uniqueLiterals r
  | TmFunc _ _ body => uniqueLiterals body
  | TmCall func args => uniqueLiterals func && forallb uniqueLiterals args
  | TmSeq body rest => uniqueLiterals body && uniqueLiterals rest
  | TmConst _ init rest => uniqueLiterals init && uniqueLiterals rest
  | TmObjectNew props =>
      bool_decide (NoDup props.*1)
      && forallb (fun p : PropertyTerm => uniqueLiterals p.2) props
  | TmObjectGet obj _ => uniqueLiterals obj
  | TmRecFunc _ _ _ body rest => uniqueLiterals body && uniqueLiterals rest
  end.

Definition goodTypeEnv (typeEnv : TypeEnv) : Prop :=
  forall x type, typeEnv !! x = Some type -> good type.

Lemma goodTypeEnv_define typeEnv name type :
  goodTypeEnv typeEnv -> good type -> goodTypeEnv (define typeEnv name type).
Proof.
  intros He Ht x T. unfold define, clone.
  destruct (decide (x = name)) as [->|Hne].
  - rewrite lookup_insert_eq. by intros [= <-].
  - rewrite lookup_insert_ne by done. apply He.
Qed.

Lemma goodTypeEnv_defineParams typeEnv params :
  goodTypeEnv typeEnv -> (forall T, T ∈ params.*2 -> good T) ->
  goodTypeEnv (defineParams typeEnv params).
Proof.
  intros He Hp x T H. apply defineParams_lookup in H as [H|H]; [by apply Hp|by eapply He].
Qed.

Lemma typecheck_halts t : forall typeEnv,
  goodTypeEnv typeEnv ->
  (forall T, T ∈ annotations t -> good T) ->
  uniqueLiterals t = true ->
  halts (fun n => typecheck n t typeEnv) good.
Proof.
  induction t as [| |cond thn els IHc IHt IHe|c|l r IHl IHr|name|params declared body IH
                 |func args IHf IHa|body rest IHb IHr|name init rest IHi IHr
                 |props IHp|obj propName IH|funcName params retType body rest IHb IHr]
    using Term_ind; intros env Henv Hann Hlit; cbn [typecheck];
    cbn [annotations] in Hann; cbn [uniqueLiterals] in Hlit; unfold error.
  - apply halts_ret. by apply good_wellFormed.
  - apply halts_ret. by apply good_wellFormed.
  - apply andb_true_iff in Hlit as [[Hl1 Hl2]%andb_true_iff Hl3].
    apply (halts_bind _ _ good).
    { apply IHc; [done| |done]. intros; apply Hann; rewrite !elem_of_app; auto. }
    intros condType _. apply (halts_bind _ _ good).
    { apply IHt; [done| |done]. intros; apply Hann; rewrite !elem_of_app; auto. }
    intros thenType Hthen. apply (halts_bind _ _ good).
    { apply IHe; [done| |done]. intros; apply Hann; rewrite !elem_of_app; auto. }
    intros elseType Helse. apply (halts_bind _ _ good); [by apply halts_unwrapRecType|].
    intros u1 _. apply (halts_bind _ _ good); [by apply halts_unwrapRecType|].
    intros u2 _. destruct (negb _); [apply halts_throw|by apply halts_ret].
  - apply halts_ret. by apply good_wellFormed.
  - apply andb_true_iff in Hlit as [Hl1 Hl2].
    apply (halts_bind _ _ good).
    { apply IHl; [done| |done]. intros; apply Hann; rewrite !elem_of_app; auto. }
    intros leftType Hleft. apply (halts_bind _ _ good); [by apply halts_unwrapRecType|].
    intros u1 _. destruct (negb _); [apply halts_throw|].
    apply (halts_bind _ _ good).
    { apply IHr; [done| |done]. intros; apply Hann; rewrite !elem_of_app; auto. }
    intros rightType Hright. apply (halts_bind _ _ good); [by apply halts_unwrapRecType|].
    intros u2 _. destruct (negb _); [apply halts_throw|].
    apply halts_ret. by apply good_wellFormed.
  - destruct (env !! name) as [T|] eqn:E; [|apply halts_throw].
    apply halts_ret. by eapply Henv.
  - fold_defineParams.
    assert (Hparams : forall T, T ∈ params.*2 -> good T).
    { intros T HT. apply Hann. rewrite !elem_of_app. auto. }
    apply (halts_bind _ _ good).
    { apply IH; [by apply goodTypeEnv_defineParams| |done].
      intros; apply Hann; rewrite !elem_of_app; auto. }
    intros bodyType Hbody.
    assert (Hfn : good (fn params bodyType)).
    { apply good_Func; [|done]. intros p Hp. apply Hparams.
      apply list_elem_of_fmap. by exists p. }
    destruct declared as [declaredRetType|]; [|by apply halts_ret].
    apply (halts_bind _ _ (fun _ => True)).
    { apply halts_typeEq; [|done]. apply Hann. rewrite !elem_of_app. right. left.
      simpl. apply elem_of_cons. by left. }
    intros same _. destruct (negb _); [apply halts_throw|by apply halts_ret].
  - apply andb_true_iff in Hlit as [Hl1 Hl2].
    apply (halts_bind _ _ good).
    { apply IHf; [done| |done]. intros; apply Hann; rewrite !elem_of_app; auto. }
    intros calleeType Hcallee.
    apply (halts_bind _ _ good); [by apply halts_unwrapRecType|].
    intros funcType Hfunc.
    destruct funcType as [| |params retType| | |]; try apply halts_throw.
    apply good_Func_inv in Hfunc as [Hret Hparams].
    destruct (negb _); [apply halts_throw|].
    apply (halts_bind
             (fun n => forIndexDo (fun i (arg : Term) =>
                argType ← typecheck n arg env;
                match params !! i with
                | Some p =>
                    same ← typeEq n argType p.2;
                    if negb same then Throw "argument type mismatch" else Ret tt
                | None => Throw "TypeError: funcType.params[i] is undefined"
                end) 0 args)
             (fun _ _ => Ret retType) (fun _ => True) good);
      [|intros; by apply halts_ret].
    apply (halts_forIndexDo
             (fun n i (arg : Term) =>
                argType ← typecheck n arg env;
                match params !! i with
                | Some p =>
                    same ← typeEq n argType p.2;
                    if negb same then Throw "argument type mismatch" else Ret tt
                | None => Throw "TypeError: funcType.params[i] is undefined"
                end)).
    intros k arg Hk. simpl. apply (halts_bind _ _ good).
    { rewrite Forall_forall in IHa.
      apply IHa; [by eapply list_elem_of_lookup_2|done| |].
      - intros T HT. apply Hann. rewrite elem_of_app. right.
        apply elem_of_flat_map. exists arg.
        split; [by eapply list_elem_of_lookup_2|done].
      - apply (proj1 (forallb_elem_of _ _) Hl2). by eapply list_elem_of_lookup_2. }
    intros argType Harg. destruct (params !! k) as [p|] eqn:Ep; [|apply halts_throw].
    apply (halts_bind _ _ (fun _ => True)).
    { apply halts_typeEq; [done|]. apply Hparams. by eapply list_elem_of_lookup_2. }
    intros same _. destruct (negb _); [apply halts_throw|by apply halts_ret].
  - apply andb_true_iff in Hlit as [Hl1 Hl2].
    apply (halts_bind _ _ good).
    { apply IHb; [done| |done]. intros; apply Hann; rewrite !elem_of_app; auto. }
    intros _ _. apply IHr; [done| |done]. intros; apply Hann; rewrite !elem_of_app; auto.
  - apply andb_true_iff in Hlit as [Hl1 Hl2].
    apply (halts_bind _ _ good).
    { apply IHi; [done| |done]. intros; apply Hann; rewrite !elem_of_app; auto. }
    intros initType Hinit. apply IHr; [by apply goodTypeEnv_define| |done].
    intros; apply Hann; rewrite !elem_of_app; auto.
  - apply andb_true_iff in Hlit as [Hnd Hl2]. apply bool_decide_eq_true in Hnd.
    apply (halts_bind
             (fun n => mapResult (fun p : PropertyTerm =>
                                    type ← typecheck n p.2 env; Ret (p.1, type)) props)
             (fun _ props' => Ret (object props'))
             (fun props' => Forall (fun q : PropertyType => good q.2) props'
                            /\ Forall2 (fun (p : PropertyTerm) (q : PropertyType) =>
                                          exists n, (type ← typecheck n p.2 env;
                                                     Ret (p.1, type)) = Ret q)
                                       props props')
             good).
    + apply (halts_mapResult
               (fun n (p : PropertyTerm) => type ← typecheck n p.2 env; Ret (p.1, type))
               (fun q : PropertyType => good q.2)).
      intros p Hp. apply (halts_bind _ _ good).
      * rewrite Forall_forall in IHp. apply IHp; [done|done| |].
        -- intros T HT. apply Hann. apply elem_of_flat_map. by exists p.
        -- by apply (proj1 (forallb_elem_of _ _) Hl2).
      * intros type Htype. by apply halts_ret.
    + intros props' [Hgood Hnames]. apply halts_ret. apply good_Object.
      * replace (props'.*1) with (props.*1); [done|].
        clear -Hnames. induction Hnames as [|p q ps qs [n Hn] _ IH]; [done|].
        rewrite !fmap_cons. f_equal; [|exact IH].
        destruct (typecheck n p.2 env); simpl in Hn; try discriminate.
        by injection Hn as <-.
      * by apply Forall_forall.
  - apply (halts_bind _ _ good); [by apply IH|].
    intros receiverType Hrecv.
    apply (halts_bind _ _ good); [by apply halts_unwrapRecType|].
    intros objType Hobj.
    destruct objType as [| | |props| |]; try apply halts_throw.
    destruct (findProp propName props) as [p|] eqn:Ep; [|apply halts_throw].
    apply halts_ret. apply findProp_Some in Ep as [Hin _].
    by apply (good_Object_inv props).
  - apply andb_true_iff in Hlit as [Hl1 Hl2]. fold_defineParams.
    assert (Hparams : forall T, T ∈ params.*2 -> good T).
    { intros T HT. apply Hann. rewrite !elem_of_app. auto. }
    assert (Hret : good retType).
    { apply Hann. rewrite !elem_of_app. right. apply elem_of_cons. by left. }
    assert (Hfn : good (fn params retType)).
    { apply good_Func; [|done]. intros p Hp. apply Hparams.
      apply list_elem_of_fmap. by exists p. }
    apply (halts_bind _ _ good).
    { apply IHb; [|intros T HT|done].
      - apply goodTypeEnv_defineParams; [|done]. by apply goodTypeEnv_define.
      - apply Hann. rewrite !elem_of_app. right. apply elem_of_cons. right.
        rewrite elem_of_app. by left. }
    intros bodyType Hbody.
    apply (halts_bind _ _ (fun _ => True)); [by apply halts_typeEq|].
    intros same _. destruct (negb _); [apply halts_throw|].
    apply IHr; [by apply goodTypeEnv_define| |done].
    intros T HT. apply Hann. rewrite !elem_of_app. right. apply elem_of_cons. right.
    rewrite elem_of_app. by right.
Qed.

(** X15 ([typecheck], [typeEq], [unwrapRecType], rec.ts): [typecheck]
    terminates on every term whose type annotations are well formed
    (closed, unique field names, every recursive variable under a function
    or a record) and whose object literals have pairwise different field
    names, in an environment of well-formed types: once the bound on the
    stack depth is large enough it returns one and the same type, or throws
    one and the same exception. *)
Theorem typecheck_terminates (t : Term) (typeEnv : TypeEnv) :
  (forall x type, typeEnv !! x = Some type -> wellFormed type = true) ->
  (forall T, T ∈ annotations t -> wellFormed T = true) ->
  uniqueLiterals t = true ->
  exists r, r <> Diverge /\ exists N, forall n, N <= n -> typecheck n t typeEnv = r.
Proof.
  intros Henv Hann Hlit.
  destruct (typecheck_halts t typeEnv) as (N & r & Hr & E & _); [| |done|].
  - intros x type Hx. apply good_wellFormed. by eapply Henv.
  - intros T HT. apply good_wellFormed. by apply Hann.
  - exists r. split; [done|]. by exists N.
Qed.

Lemma typecheck_terminates_witness :
  exists r, r <> Diverge /\ exists N, forall n, N <= n ->
    typecheck n
      (TmFunc [("s", Rec "X" (Object [("num", Number); ("rest", Func [] (TypeVar "X"))]))]
              (Some Number)
              (TmObjectGet (TmCall (TmObjectGet (TmVar "s") "rest") []) "num"))
      ∅ = r.
Proof.
  apply (typecheck_terminates
           (TmFunc [("s", Rec "X" (Object [("num", Number);
                                            ("rest", Func [] (TypeVar "X"))]))]
                   (Some Number)
                   (TmObjectGet (TmCall (TmObjectGet (TmVar "s") "rest") []) "num"))
           ∅).
  - intros x type H. rewrite lookup_empty in H. discriminate.
  - intros T HT. simpl in HT.
    apply elem_of_cons in HT as [->|HT]; [reflexivity|].
    apply elem_of_cons in HT as [->|HT]; [reflexivity|].
    by apply elem_of_nil in HT.
  - reflexivity.
Defined.
End RecTheory.

(** ** poly.ts: substitution and the binding-map equality *)

Module PolyTheory.
Import Poly.

Section Ty_induction.
Variable P : Ty -> Prop.
Hypothesis HBoolean : P Boolean.
Hypothesis HNumber : P Number.
Hypothesis HFunc : forall params retType,
  Forall (fun p : Param => P p.2) params -> P retType -> P (Func params retType).
Hypothesis HTypeAbs : forall typeParams body, P body -> P (TypeAbs typeParams body).
Hypothesis HTypeVar : forall name, P (TypeVar name).

Fixpoint Ty_ind (t : Ty) : P t :=
  match t with
  | Boolean => HBoolean
  | Number => HNumber
  | Func params retType =>
      HFunc params retType
        ((fix params_ind (ps : list (string * Ty)) : Forall (fun p => P p.2) ps :=
            match ps with
            | [] => Forall_nil_2 _
            | p :: ps' => Forall_cons_2 _ _ _ (Ty_ind p.2) (params_ind ps')
            end) params)
        (Ty_ind retType)
  | TypeAbs typeParams body => HTypeAbs typeParams body (Ty_ind body)
  | TypeVar name => HTypeVar name
  end.
End Ty_induction.

(** Every occurrence of a name in a type, under a binder or not. *)
Fixpoint occurrences (t : Ty) : list string :=
  match t with
  | Boolean | Number => []
  | Func params retType =>
      flat_map (fun p : Param => occurrences p.2) params ++ occurrences retType
  | TypeAbs _ body => occurrences body
  | TypeVar name => [name]
  end.

Lemma identityMap_lookup (typeVars : list string) (x : string) :
  x ∈ typeVars -> identityMap typeVars !! x = Some x.
Proof.
  unfold identityMap.
  assert (forall (m : TypeVarMap),
            (x ∈ typeVars \/ m !! x = Some x) ->
            foldl (fun (typeVarMap : TypeVarMap) typeVar => <[typeVar := typeVar]> typeVarMap)
                  m typeVars !! x = Some x) as H.
  { induction typeVars as [|v vs IH]; intros m [Hin|Hm]; simpl.
    - by apply elem_of_nil in Hin.
    - done.
    - apply IH. apply elem_of_cons in Hin as [->|Hin]; [right|by left].
      by rewrite lookup_insert_eq.
    - apply IH. right. destruct (decide (v = x)) as [->|Hne].
      + by rewrite lookup_insert_eq.
      + by rewrite lookup_insert_ne. }
  intros Hin. apply H. by left.
Qed.

(** The names that occur free: [TypeAbs] binds its type parameters. *)
Fixpoint freeVars (t : Ty) : list string :=
  match t with
  | Boolean | Number => []
  | Func params retType =>
      flat_map (fun p : Param => freeVars p.2) params ++ freeVars retType
  | TypeAbs typeParams body => filter (fun y => y ∉ typeParams) (freeVars body)
  | TypeVar name => [name]
  end.

Lemma freeVars_substitute t x r y :
  y ∈ freeVars (substitute t x r) -> (y <> x /\ y ∈ freeVars t) \/ y ∈ freeVars r.
Proof.
  induction t as [| |params retType IHp IHr|typeParams body IH|name] using Ty_ind;
    simpl; intros Hy.
  - by apply elem_of_nil in Hy.
  - by apply elem_of_nil in Hy.
  - rewrite elem_of_app, elem_of_flat_map in Hy. rewrite elem_of_app, elem_of_flat_map.
    destruct Hy as [(p & Hp & Hy)|Hy].
    + apply list_elem_of_fmap in Hp as (q & -> & Hq). simpl in Hy.
      rewrite Forall_forall in IHp. destruct (IHp q Hq Hy) as [[? ?]|?]; [left|by right].
      split; [done|]. left. by exists q.
    + destruct (IHr Hy) as [[? ?]|?]; [left|by right]. split; [done|]. by right.
  - apply list_elem_of_filter in Hy as [Hny Hy].
    destruct (IH Hy) as [[? ?]|?]; [left|by right].
    split; [done|]. by apply list_elem_of_filter.
  - destruct (String.eqb_spec name x) as [->|Hne]; [by right|].
    left. simpl in Hy. apply list_elem_of_singleton in Hy as ->.
    split; [done|]. by apply list_elem_of_singleton.
Qed.

Lemma substitute_replaces_all t x r :
  x ∉ freeVars r -> x ∉ freeVars (substitute t x r).
Proof. intros Hr Hx. apply freeVars_substitute in Hx as [[? _]|?]; done. Qed.

(** [substitute] replaces every occurrence of the name, also those bound by
    a [TypeAbs] inside the target. *)
Lemma substitute_replaces_every_occurrence t x r :
  x ∉ occurrences r -> x ∉ occurrences (substitute t x r).
Proof.
  intros Hr.
  induction t as [| |params retType IHp IHr|typeParams body IH|name] using Ty_ind;
    simpl.
  - apply not_elem_of_nil.
  - apply not_elem_of_nil.
  - rewrite elem_of_app, elem_of_flat_map. intros [(p & Hp & Hx)|Hx]; [|done].
    apply list_elem_of_fmap in Hp as (q & -> & Hq).
    rewrite Forall_forall in IHp. by apply (IHp q Hq).
  - done.
  - destruct (String.eqb_spec name x) as [->|Hne]; [done|].
    simpl. by intros ->%list_elem_of_singleton.
Qed.

(** C5.  [substitute] has no renaming step: entering a [TypeAbs] it keeps
    the binder list as it is and substitutes in the body, whatever the
    bound names are, so that no occurrence of the substituted name is left
    anywhere.  An inner binder spelled like the substituted name has
    its own occurrences replaced (first example, the shadowing test of
    poly.test.ts), and a replacement that mentions the inner binder's name
    is captured, the binder staying ["U"] where the test expects ["U@1"]
    (second example). *)
Theorem C5_substitute_keeps_binders :
  (forall typeParams body typeVarName concreteType,
     substitute (TypeAbs typeParams body) typeVarName concreteType =
     TypeAbs typeParams (substitute body typeVarName concreteType))
  /\ (forall targetType typeVarName concreteType,
        typeVarName ∉ occurrences concreteType ->
        typeVarName ∉ occurrences (substitute targetType typeVarName concreteType))
  /\ substitute
       (fn [param "arg1" (typeVar "T");
            param "arg2" (typeAbs ["T"] (fn [param "x" (typeVar "T")] boolean))]
           boolean)
       "T" number
     = fn [param "arg1" number;
           param "arg2" (typeAbs ["T"] (fn [param "x" number] boolean))]
          boolean
  /\ substitute
       (fn [param "arg1" (typeVar "T");
            param "arg2" (typeAbs ["U"] (fn [param "x" (typeVar "T");
                                             param "y" (typeVar "U")] boolean))]
           boolean)
       "T" (typeVar "U")
     = fn [param "arg1" (typeVar "U");
           param "arg2" (typeAbs ["U"] (fn [param "x" (typeVar "U");
                                            param "y" (typeVar "U")] boolean))]
          boolean.
Proof.
  split; [reflexivity|]. split; [apply substitute_replaces_every_occurrence|].
  split; reflexivity.
Qed.

(** C6.  Against a type variable, [typeEqRec] of poly.ts answers true as
    soon as the map has an entry for the left name, without comparing the
    entry with the right name: two different variables in scope are equal
    for it.  It throws when the map has no entry.  ([typeEqNaive] of rec.ts
    does compare: see [RecTheory.typeEqNaive_TypeVar_iff].) *)
Theorem C6_typeEqRec_ignores_the_entry :
  (forall name1 name2 bound (typeVarMap : TypeVarMap),
     typeVarMap !! name1 = Some bound ->
     typeEqRec (TypeVar name1) (TypeVar name2) typeVarMap = Ret true)
  /\ (forall name1 name2 (typeVarMap : TypeVarMap),
        typeVarMap !! name1 = None ->
        typeEqRec (TypeVar name1) (TypeVar name2) typeVarMap =
        Throw ("unknown type variable: " +:+ name1 +:+ "}"))
  /\ typeEq (typeVar "A") (typeVar "B") ["A"; "B"] = Ret true
  /\ typeEqRec (typeVar "A") (typeVar "B") {["A" := "C"]} = Ret true.
Proof.
  split; [|split; [|split]].
  - intros name1 name2 bound m H. simpl. by rewrite H.
  - intros name1 name2 m H. simpl. by rewrite H.
  - unfold typeEq. simpl. by rewrite (identityMap_lookup ["A"; "B"] "A")
      by (apply elem_of_cons; by left).
  - simpl. by rewrite lookup_singleton_eq.
Qed.

(** ** More about [typeEqRec] and [substitute] of poly.ts *)

(** The two types have the same constructors at the same places, function
    types the same numbers of parameters and type abstractions the same
    numbers of type parameters; names are not looked at. *)
Fixpoint sameShape (type1 type2 : Ty) {struct type2} : bool :=
  match type2 with
  | Boolean | Number => sameTag type1 type2
  | Func params2 retType2 =>
      match type1 with
      | Func params1 retType1 =>
          Nat.eqb (length params1) (length params2)
          && (fix all (ps1 ps2 : list Param) {struct ps2} : bool :=
                match ps1, ps2 with
                | p1 :: ps1', p2 :: ps2' => sameShape p1.2 p2.2 && all ps1' ps2'
                | _, _ => true
                end) params1 params2
          && sameShape retType1 retType2
      | _ => false
      end
  | TypeAbs typeParams2 body2 =>
      match type1 with
      | TypeAbs typeParams1 body1 =>
          Nat.eqb (length typeParams1) (length typeParams2) && sameShape body1 body2
      | _ => false
      end
  | TypeVar _ =>
      match type1 with
      | TypeVar _ => true
      | _ => false
      end
  end.

Fixpoint sameShapes (ps1 ps2 : list Param) {struct ps2} : bool :=
  match ps1, ps2 with
  | p1 :: ps1', p2 :: ps2' => sameShape p1.2 p2.2 && sameShapes ps1' ps2'
  | _, _ => true
  end.

Lemma sameShape_Func params1 retType1 params2 retType2 :
  sameShape (Func params1 retType1) (Func params2 retType2) =
  Nat.eqb (length params1) (length params2)
  && sameShapes params1 params2 && sameShape retType1 retType2.
Proof. reflexivity. Qed.

Lemma bindTypeParams_is_Some typeParams1 : forall typeParams2 (m : TypeVarMap) x,
  length typeParams1 = length typeParams2 ->
  x ∈ typeParams1 \/ is_Some (m !! x) ->
  is_Some (bindTypeParams m typeParams1 typeParams2 !! x).
Proof.
  induction typeParams1 as [|a ps1 IH]; intros [|b ps2] m x Hl Hx; simpl in *;
    try discriminate.
  - destruct Hx as [Hx|Hx]; [by apply elem_of_nil in Hx|done].
  - apply IH; [lia|].
    destruct (decide (x = a)) as [->|Hne].
    + right. by rewrite lookup_insert_eq.
    + rewrite lookup_insert_ne by done.
      destruct Hx as [Hx|Hx]; [|by right].
      apply elem_of_cons in Hx as [?|?]; [done|by left].
Qed.

Lemma typeEqRec_params (m : TypeVarMap) (params1 : list Param) : forall params2 i,
  length (drop i params1) = length params2 ->
  (forall k p1 p2, params2 !! k = Some p2 -> params1 !! (i + k) = Some p1 ->
                   typeEqRec p1.2 p2.2 m = Ret (sameShape p1.2 p2.2)) ->
  forIndex (fun i (p2 : Param) =>
              match params1 !! i with
              | Some p1 => typeEqRec p1.2 p2.2 m
              | None => Throw "TypeError: type1.params[i] is undefined"
              end) i params2 =
  Ret (sameShapes (drop i params1) params2).
Proof.
  induction params2 as [|p2 ps2 IH]; intros i Hl H; simpl.
  - by destruct (drop i params1).
  - destruct (params1 !! i) as [p1|] eqn:E1.
    + rewrite (drop_S _ _ _ E1) in *. simpl in Hl.
      rewrite (H 0 p1 p2); [|done|by rewrite Nat.add_0_r]. simpl.
      destruct (sameShape p1.2 p2.2); simpl; [|done].
      apply IH; [lia|]. intros k q1 q2 Hk Hq.
      apply (H (S k)); [done|]. by replace (i + S k) with (S i + k) by lia.
    + apply lookup_ge_None in E1. rewrite drop_ge in Hl by done. discriminate.
Qed.

Lemma typeEqRec_is_sameShape type2 : forall type1 (m : TypeVarMap),
  (forall x, x ∈ freeVars type1 -> is_Some (m !! x)) ->
  typeEqRec type1 type2 m = Ret (sameShape type1 type2).
Proof.
  induction type2 as [| |params2 retType2 IHp IHr|typeParams2 body2 IH|name2] using Ty_ind;
    intros type1 m Hm;
    destruct type1 as [| |params1 retType1|typeParams1 body1|name1]; try done.
  - rewrite sameShape_Func. cbn [typeEqRec].
    destruct (Nat.eqb (length params1) (length params2)) eqn:El; [|done].
    apply Nat.eqb_eq in El. simpl.
    rewrite (typeEqRec_params m params1 params2 0).
    + rewrite drop_0. destruct (sameShapes params1 params2); [|done].
      simpl. apply IHr. intros x Hx. apply Hm. simpl. rewrite elem_of_app. by right.
    + by rewrite drop_0.
    + intros k p1 p2 Hk2 Hk1. rewrite Forall_forall in IHp.
      apply IHp; [by eapply list_elem_of_lookup_2|].
      intros x Hx. apply Hm. simpl. rewrite elem_of_app. left.
      apply elem_of_flat_map. exists p1.
      split; [by eapply list_elem_of_lookup_2|done].
  - cbn [typeEqRec sameShape].
    destruct (Nat.eqb (length typeParams1) (length typeParams2)) eqn:El; [|done].
    apply Nat.eqb_eq in El. simpl. apply IH. intros x Hx.
    apply bindTypeParams_is_Some; [done|].
    destruct (decide (x ∈ typeParams1)) as [Hin|Hnot]; [by left|right].
    apply Hm. simpl. by apply list_elem_of_filter.
  - simpl. destruct (Hm name1) as [bound ->]; [|done]. simpl.
    apply elem_of_cons. by left.
Qed.

Lemma typeEq_is_sameShape type1 type2 (typeVars : list string) :
  (forall x, x ∈ freeVars type1 -> x ∈ typeVars) ->
  typeEq type1 type2 typeVars = Ret (sameShape type1 type2).
Proof.
  intros Hv. unfold typeEq. apply typeEqRec_is_sameShape.
  intros x Hx. rewrite (identityMap_lookup typeVars x) by auto. done.
Qed.

(** X16 ([typeEqRec], [typeEq], poly.ts): when the map has an entry for
    every free type variable of the first type, [typeEqRec] never throws,
    and its answer is [true] exactly when the two types have the same
    shape: neither the names of the type variables nor the entries of the
    map influence it.  [typeEq] is the case of the identity map on
    [typeVars]. *)
Theorem typeEqRec_compares_shapes_only (type1 type2 : Ty) :
  (forall typeVarMap : TypeVarMap,
     (forall x, x ∈ freeVars type1 -> is_Some (typeVarMap !! x)) ->
     typeEqRec type1 type2 typeVarMap = Ret (sameShape type1 type2))
  /\ (forall typeVars : list string,
        (forall x, x ∈ freeVars type1 -> x ∈ typeVars) ->
        typeEq type1 type2 typeVars = Ret (sameShape type1 type2)).
Proof.
  split.
  - intros m Hm. by apply typeEqRec_is_sameShape.
  - intros typeVars Hv. by apply typeEq_is_sameShape.
Qed.

(** *** Laws of [substitute] *)

Lemma substitute_same_variable t x : substitute t x (TypeVar x) = t.
Proof.
  induction t as [| |params retType IHp IHr|typeParams body IH|name] using Ty_ind;
    simpl; try done.
  - unfold fn. rewrite IHr. f_equal.
    rewrite <- (list_fmap_id params) at 2. apply Forall_fmap_ext.
    eapply Forall_impl; [exact IHp|]. intros [n T] Hp. simpl in *. by rewrite Hp.
  - unfold typeAbs. by rewrite IH.
  - destruct (String.eqb name x) eqn:E; [|done]. by apply String.eqb_eq in E as ->.
Qed.

Lemma substitute_no_occurrence t x r : x ∉ occurrences t -> substitute t x r = t.
Proof.
  induction t as [| |params retType IHp IHr|typeParams body IH|name] using Ty_ind;
    simpl; intros Hx; try done.
  - rewrite elem_of_app in Hx. unfold fn. rewrite IHr by tauto. f_equal.
    rewrite <- (list_fmap_id params) at 2. apply Forall_fmap_ext.
    rewrite Forall_forall in IHp. apply Forall_forall. intros [n T] Hp. simpl.
    f_equal. apply (IHp (n, T) Hp). simpl. intros Hin. apply Hx. left.
    apply elem_of_flat_map. by exists (n, T).
  - unfold typeAbs. by rewrite IH.
  - destruct (String.eqb name x) eqn:E; [|done]. apply String.eqb_eq in E as ->.
    exfalso. apply Hx. apply elem_of_cons. by left.
Qed.

(** [substitute] leaves the target as it is only when the name occurs
    nowhere in it, under a binder of that name or not. *)
Lemma substitute_changed t x r :
  r <> TypeVar x -> substitute t x r = t -> x ∉ occurrences t.
Proof.
  intros Hr.
  induction t as [| |params retType IHp IHr|typeParams body IH|name] using Ty_ind;
    simpl; intros H.
  - apply not_elem_of_nil.
  - apply not_elem_of_nil.
  - unfold fn in H. injection H as Hp Hret.
    rewrite elem_of_app, elem_of_flat_map. intros [(p & Hin & Hx)|Hx].
    + apply list_elem_of_lookup_1 in Hin as Hk. destruct Hk as [k Hk].
      pose proof (f_equal (fun l => l !! k) Hp) as E. simpl in E.
      rewrite list_lookup_fmap, Hk in E. simpl in E. injection E as E.
      rewrite Forall_forall in IHp. apply (IHp p Hin); [|done].
      destruct p as [n T]. simpl in *. by injection E.
    + by apply IHr.
  - unfold typeAbs in H. injection H as H. by apply IH.
  - destruct (String.eqb name x) eqn:E.
    + by subst r; apply String.eqb_eq in E as ->.
    + apply String.eqb_neq in E. by intros ->%list_elem_of_singleton.
Qed.

Lemma occurrences_substitute t x r y :
  y ∈ occurrences (substitute t x r) ->
  (y <> x /\ y ∈ occurrences t) \/ y ∈ occurrences r.
Proof.
  induction t as [| |params retType IHp IHr|typeParams body IH|name] using Ty_ind;
    simpl; intros Hy.
  - by apply elem_of_nil in Hy.
  - by apply elem_of_nil in Hy.
  - rewrite elem_of_app in Hy. destruct Hy as [Hy|Hy].
    + apply elem_of_flat_map in Hy as (p & Hp & Hy).
      apply list_elem_of_fmap in Hp as (q & -> & Hq). simpl in Hy.
      rewrite Forall_forall in IHp. destruct (IHp q Hq Hy) as [[? ?]|?]; [left|by right].
      split; [done|]. rewrite elem_of_app. left.
      apply elem_of_flat_map. by exists q.
    + destruct (IHr Hy) as [[? ?]|?]; [left|by right].
      split; [done|]. rewrite elem_of_app. by right.
  - by apply IH.
  - destruct (String.eqb name x) eqn:E; [by right|].
    apply String.eqb_neq in E. left. simpl in Hy.
    apply list_elem_of_singleton in Hy as ->. split; [done|].
    by apply list_elem_of_singleton.
Qed.

Lemma substitute_commute t x y s r :
  x <> y -> x ∉ occurrences r -> y ∉ occurrences s ->
  substitute (substitute t x s) y r = substitute (substitute t y r) x s.
Proof.
  intros Hxy Hx Hy.
  induction t as [| |params retType IHp IHr|typeParams body IH|name] using Ty_ind;
    simpl; try done.
  - unfold fn. simpl. rewrite IHr. f_equal.
    rewrite <- !list_fmap_compose. apply Forall_fmap_ext.
    eapply Forall_impl; [exact IHp|]. intros p Hp. simpl. by rewrite Hp.
  - unfold typeAbs. simpl. by rewrite IH.
  - destruct (String.eqb name x) eqn:Ex; destruct (String.eqb name y) eqn:Ey; simpl;
      rewrite ?Ex, ?Ey; try done.
    + apply String.eqb_eq in Ex, Ey. congruence.
    + by apply substitute_no_occurrence.
    + symmetry. by apply substitute_no_occurrence.
Qed.

(** X17 ([substitute], poly.ts): replacing a variable by itself changes
    nothing; a variable that does not occur is not replaced; after a
    replacement by a type without the variable, a second replacement of the
    same variable changes nothing; and replacements of two different
    variables commute when neither replacement type mentions the other
    variable. *)
Theorem substitute_laws :
  (forall t x, substitute t x (TypeVar x) = t)
  /\ (forall t x r, x ∉ occurrences t -> substitute t x r = t)
  /\ (forall t x r r', x ∉ occurrences r ->
        substitute (substitute t x r) x r' = substitute t x r)
  /\ (forall t x y s r, x <> y -> x ∉ occurrences r -> y ∉ occurrences s ->
        substitute (substitute t x s) y r = substitute (substitute t y r) x s).
Proof.
  split; [exact substitute_same_variable|].
  split; [exact substitute_no_occurrence|].
  split; [|exact substitute_commute].
  intros t x r r' Hr. apply substitute_no_occurrence.
  by apply substitute_replaces_every_occurrence.
Qed.

(** ** The type checker of poly.ts *)

Section Term_induction.
Variable P : Term -> Prop.
Hypothesis HTrue : P TmTrue.
Hypothesis HFalse : P TmFalse.
Hypothesis HIf : forall cond thn els, P cond -> P thn -> P els -> P (TmIf cond thn els).
Hypothesis HNumber : forall n, P (TmNumber n).
Hypothesis HAdd : forall l r, P l -> P r -> P (TmAdd l r).
Hypothesis HVar : forall name, P (TmVar name).
Hypothesis HFunc : forall params body, P body -> P (TmFunc params body).
Hypothesis HCall : forall func args, P func -> Forall P args -> P (TmCall func args).
Hypothesis HSeq : forall body rest, P body -> P rest -> P (TmSeq body rest).
Hypothesis HConst : forall name init rest, P init -> P rest -> P (TmConst name init rest).
Hypothesis HTypeAbs : forall typeParams body, P body -> P (TmTypeAbs typeParams body).
Hypothesis HTypeApp : forall typeAbs typeArgs, P typeAbs -> P (TmTypeApp typeAbs typeArgs).

Fixpoint Term_ind (t : Term) : P t :=
  match t with
  | TmTrue => HTrue
  | TmFalse => HFalse
  | TmIf cond thn els => HIf cond thn els (Term_ind cond) (Term_ind thn) (Term_ind els)
  | TmNumber n => HNumber n
  | TmAdd l r => HAdd l r (Term_ind l) (Term_ind r)
  | TmVar name => HVar name
  | TmFunc params body => HFunc params body (Term_ind body)
  | TmCall func args =>
      HCall func args (Term_ind func)
        ((fix args_ind (l : list Term) : Forall P l :=
            match l with
            | [] => Forall_nil_2 _
            | a :: l' => Forall_cons_2 _ _ _ (Term_ind a) (args_ind l')
            end) args)
  | TmSeq body rest => HSeq body rest (Term_ind body) (Term_ind rest)
  | TmConst name init rest => HConst name init rest (Term_ind init) (Term_ind rest)
  | TmTypeAbs typeParams body => HTypeAbs typeParams body (Term_ind body)
  | TmTypeApp typeAbs typeArgs => HTypeApp typeAbs typeArgs (Term_ind typeAbs)
  end.
End Term_induction.

(** *** Type application *)

Definition instantiate (type : Ty) (typeParams : list string) (typeArgs : list Ty) : Ty :=
  foldl (fun (substitutedType : Ty) (pa : string * Ty) =>
           substitute substitutedType pa.1 pa.2)
        type (zip typeParams typeArgs).

Lemma instantiate_occurrences (l : list (string * Ty)) : forall acc y,
  y ∈ occurrences (foldl (fun (substitutedType : Ty) (pa : string * Ty) =>
                            substitute substitutedType pa.1 pa.2) acc l) ->
  (y ∈ occurrences acc /\ y ∉ l.*1) \/ exists pa, pa ∈ l /\ y ∈ occurrences pa.2.
Proof.
  induction l as [|[p a] l IH]; intros acc y Hy; simpl in Hy.
  - left. split; [done|]. apply not_elem_of_nil.
  - destruct (IH _ _ Hy) as [[Hin Hnot]|(pa & Hpa & Hin)].
    + apply occurrences_substitute in Hin as [[Hne Hin]|Hin].
      * left. split; [done|]. rewrite fmap_cons. simpl.
        intros [?|?]%elem_of_cons; done.
      * right. exists (p, a). split; [apply elem_of_cons; by left|done].
    + right. exists pa. split; [apply elem_of_cons; by right|done].
Qed.

Lemma instantiate_with_parameters type typeParams :
  instantiate type typeParams (TypeVar <$> typeParams) = type.
Proof.
  unfold instantiate. revert type.
  induction typeParams as [|p ps IH]; intros type; simpl; [done|].
  rewrite substitute_same_variable. apply IH.
Qed.

(** X18 ([typecheck], case ["typeApp"], [substitute], poly.ts): a term
    whose type is a type abstraction, applied to as many type arguments as
    the abstraction has parameters, is accepted, whatever the arguments
    are; every variable of the resulting type comes from the body of the
    abstraction without being a parameter, or from an argument, so that no
    parameter is left when no argument mentions one.  With another number
    of arguments the application is rejected.  With the parameters
    themselves as arguments the result is the body. *)
Theorem typeApp_instantiates_every_parameter
    (typeAbsTerm : Term) (typeEnv : TypeEnv)
    (typeVarNames typeParams : list string) (type : Ty) :
  typecheck typeAbsTerm typeEnv typeVarNames = Ret (TypeAbs typeParams type) ->
  (forall typeArgs, length typeArgs = length typeParams ->
     exists result,
       typecheck (TmTypeApp typeAbsTerm typeArgs) typeEnv typeVarNames = Ret result
       /\ (forall y, y ∈ occurrences result ->
              (y ∈ occurrences type /\ y ∉ typeParams)
              \/ exists a, a ∈ typeArgs /\ y ∈ occurrences a)
       /\ ((forall a p, a ∈ typeArgs -> p ∈ typeParams -> p ∉ occurrences a) ->
           forall p, p ∈ typeParams -> p ∉ occurrences result))
  /\ (forall typeArgs, length typeArgs <> length typeParams ->
        exists msg,
          typecheck (TmTypeApp typeAbsTerm typeArgs) typeEnv typeVarNames = Throw msg)
  /\ typecheck (TmTypeApp typeAbsTerm (TypeVar <$> typeParams)) typeEnv typeVarNames
     = Ret type.
Proof.
  intros H. split; [|split].
  - intros typeArgs Hl. cbn [typecheck]. rewrite H. simpl. rewrite Hl, Nat.eqb_refl.
    simpl. eexists. split; [reflexivity|].
    assert (forall y,
              y ∈ occurrences (instantiate type typeParams typeArgs) ->
              (y ∈ occurrences type /\ y ∉ typeParams)
              \/ exists a, a ∈ typeArgs /\ y ∈ occurrences a) as Hocc.
    { intros y Hy. apply instantiate_occurrences in Hy as [[Hin Hnot]|(pa & Hpa & Hin)].
      - left. split; [done|]. by rewrite fst_zip in Hnot by lia.
      - right. destruct pa as [q a]. exists a. split; [|done].
        by apply elem_of_zip_r in Hpa. }
    split; [exact Hocc|].
    intros Hfree p Hp Hin. destruct (Hocc p Hin) as [[_ Hnot]|(a & Ha & Hpa)]; [done|].
    by apply (Hfree a p).
  - intros typeArgs Hl. cbn [typecheck]. rewrite H. simpl.
    apply Nat.eqb_neq in Hl. rewrite Hl. simpl. by eexists.
  - cbn [typecheck]. rewrite H. simpl. rewrite length_fmap, Nat.eqb_refl. simpl.
    f_equal. apply instantiate_with_parameters.
Qed.

Lemma typeApp_instantiates_every_parameter_witness :
  (forall typeArgs, length typeArgs = length ["A"; "B"] ->
     exists result,
       typecheck (TmTypeApp
                    (TmTypeAbs ["A"; "B"]
                       (TmFunc [("x", TypeVar "A"); ("y", TypeVar "B")] (TmVar "x")))
                    typeArgs) ∅ [] = Ret result
       /\ (forall y, y ∈ occurrences result ->
              (y ∈ occurrences (Func [("x", TypeVar "A"); ("y", TypeVar "B")] (TypeVar "A"))
               /\ y ∉ ["A"; "B"])
              \/ exists a, a ∈ typeArgs /\ y ∈ occurrences a)
       /\ ((forall a p, a ∈ typeArgs -> p ∈ ["A"; "B"] -> p ∉ occurrences a) ->
           forall p, p ∈ ["A"; "B"] -> p ∉ occurrences result))
  /\ (forall typeArgs, length typeArgs <> length ["A"; "B"] ->
        exists msg,
          typecheck (TmTypeApp
                       (TmTypeAbs ["A"; "B"]
                          (TmFunc [("x", TypeVar "A"); ("y", TypeVar "B")] (TmVar "x")))
                       typeArgs) ∅ [] = Throw msg)
  /\ typecheck (TmTypeApp
                  (TmTypeAbs ["A"; "B"]
                     (TmFunc [("x", TypeVar "A"); ("y", TypeVar "B")] (TmVar "x")))
                  (TypeVar <$> ["A"; "B"])) ∅ []
     = Ret (Func [("x", TypeVar "A"); ("y", TypeVar "B")] (TypeVar "A")).
Proof.
  apply (typeApp_instantiates_every_parameter
           (TmTypeAbs ["A"; "B"]
              (TmFunc [("x", TypeVar "A"); ("y", TypeVar "B")] (TmVar "x")))
           ∅ [] ["A"; "B"]
           (Func [("x", TypeVar "A"); ("y", TypeVar "B")] (TypeVar "A"))).
  reflexivity.
Defined.

(** *** Type variables in scope *)












End PolyTheory.

(** ** Substitution, in both checkers *)

(** C7.  [expandType] of rec.ts returns the target with the free
    occurrences of the variable replaced: [Boolean] and [Number] come back
    unchanged, [Func] and [Object] are rebuilt from the substituted
    components, a variable of another name is unchanged, the variable itself
    becomes the replacement, a [Rec] that binds the name is returned as it
    is and any other [Rec] has its body substituted; a target in which the
    name is not free is unchanged, and afterwards the name is free only
    where the replacement brings it.  [substitute] of poly.ts does the same
    on [Boolean], [Number], [Func] and variables, and on the test of
    poly.test.ts ([Number] for ["T"] in [(x: T) => T]), but it does not stop
    at a binder: it substitutes in the body of every [TypeAbs], so that the
    target is unchanged exactly when the name occurs nowhere in it, bound
    or free.  On [<T>(x: T) => boolean], where ["T"] is not free, it
    replaces the bound occurrence. *)
Theorem C7_expandType_and_substitute :
  (forall x r, Rec.expandType Rec.Boolean x r = Rec.Boolean
               /\ Rec.expandType Rec.Number x r = Rec.Number)
  /\ (forall params retType x r,
        Rec.expandType (Rec.Func params retType) x r =
        Rec.Func ((fun p => (p.1, Rec.expandType p.2 x r)) <$> params)
                 (Rec.expandType retType x r))
  /\ (forall props x r,
        Rec.expandType (Rec.Object props) x r =
        Rec.Object ((fun p => (p.1, Rec.expandType p.2 x r)) <$> props))
  /\ (forall name x r, name <> x ->
        Rec.expandType (Rec.TypeVar name) x r = Rec.TypeVar name)
  /\ (forall x r, Rec.expandType (Rec.TypeVar x) x r = r)
  /\ (forall x body r, Rec.expandType (Rec.Rec x body) x r = Rec.Rec x body)
  /\ (forall name body x r, name <> x ->
        Rec.expandType (Rec.Rec name body) x r =
        Rec.Rec name (Rec.expandType body x r))
  /\ (forall t x r, x ∉ RecTheory.freeVars t -> Rec.expandType t x r = t)
  /\ (forall t x r, x ∉ RecTheory.freeVars r ->
        x ∉ RecTheory.freeVars (Rec.expandType t x r))
  /\ (forall x r, Poly.substitute Poly.Boolean x r = Poly.Boolean
                  /\ Poly.substitute Poly.Number x r = Poly.Number)
  /\ (forall params retType x r,
        Poly.substitute (Poly.Func params retType) x r =
        Poly.Func ((fun p => (p.1, Poly.substitute p.2 x r)) <$> params)
                  (Poly.substitute retType x r))
  /\ (forall name x r, name <> x ->
        Poly.substitute (Poly.TypeVar name) x r = Poly.TypeVar name)
  /\ (forall x r, Poly.substitute (Poly.TypeVar x) x r = r)
  /\ (forall typeParams body x r,
        Poly.substitute (Poly.TypeAbs typeParams body) x r =
        Poly.TypeAbs typeParams (Poly.substitute body x r))
  /\ (forall t x r, r <> Poly.TypeVar x ->
        (Poly.substitute t x r = t <-> x ∉ PolyTheory.occurrences t))
  /\ (forall t x r, x ∉ PolyTheory.freeVars r ->
        x ∉ PolyTheory.freeVars (Poly.substitute t x r))
  /\ Poly.substitute
       (Poly.fn [Poly.param "x" (Poly.typeVar "T")] (Poly.typeVar "T"))
       "T" Poly.number
     = Poly.fn [Poly.param "x" Poly.number] Poly.number
  /\ (("T" ∉ PolyTheory.freeVars
               (Poly.typeAbs ["T"] (Poly.fn [Poly.param "x" (Poly.typeVar "T")]
                                            Poly.boolean)))
      /\ Poly.substitute
           (Poly.typeAbs ["T"] (Poly.fn [Poly.param "x" (Poly.typeVar "T")]
                                        Poly.boolean))
           "T" Poly.number
         = Poly.typeAbs ["T"] (Poly.fn [Poly.param "x" Poly.number] Poly.boolean)).
Proof.
  assert (forall a b : string, a <> b -> String.eqb a b = false) as Hneq
    by (intros a b; apply String.eqb_neq).
  split; [by intros|]. split; [by intros|]. split; [by intros|].
  split; [intros name x r Hne; simpl; by rewrite Hneq|].
  split; [intros x r; simpl; by rewrite String.eqb_refl|].
  split; [intros x body r; simpl; by rewrite String.eqb_refl|].
  split; [intros name body x r Hne; simpl; by rewrite Hneq|].
  split; [apply RecTheory.expandType_not_free|].
  split; [apply RecTheory.expandType_replaces_all|].
  split; [by intros|]. split; [by intros|].
  split; [intros name x r Hne; simpl; by rewrite Hneq|].
  split; [intros x r; simpl; by rewrite String.eqb_refl|].
  split; [by intros|].
  split.
  { intros t x r Hr. split.
    - by apply PolyTheory.substitute_changed.
    - apply PolyTheory.substitute_no_occurrence. }
  split; [apply PolyTheory.substitute_replaces_all|].
  split; [reflexivity|].
  split; [|reflexivity].
  vm_compute. apply not_elem_of_nil.
Qed.

(** * The checkers of the other chapters *)

(** ** Outcomes of two checkers on the same program *)

(** The image of an outcome under a translation of the returned value. *)
Definition mapRet {A B : Type} (f : A -> B) (r : result A) : result B :=
  match r with
  | Ret a => Ret (f a)
  | Throw msg => Throw msg
  | Diverge => Diverge
  end.

(** Two outcomes agree when both are a returned value, the second the
    translation of the first, or both are an exception (whatever its
    message), or both are non-termination. *)
Definition agree {A B : Type} (f : A -> B) (r1 : result A) (r2 : result B) : Prop :=
  match r1, r2 with
  | Ret a, Ret b => b = f a
  | Throw _, Throw _ => True
  | Diverge, Diverge => True
  | _, _ => False
  end.

Lemma agree_mapRet {A B : Type} (f : A -> B) (r : result A) : agree f r (mapRet f r).
Proof. by destruct r. Qed.

Lemma forIndexDo_fmap {A B : Type} (g : A -> B) (f : nat -> B -> result unit) (l : list A)
    (i : nat) :
  forIndexDo f i (g <$> l) = forIndexDo (fun k x => f k (g x)) i l.
Proof.
  revert i. induction l as [|x l IH]; intros i; simpl; [done|].
  destruct (f i (g x)); done.
Qed.

Lemma foldl_insert_fmap {A B : Type} (g : A -> B) (params : list (string * A)) :
  forall env : gmap string A,
  foldl (fun (e : gmap string B) (p : string * B) => <[p.1 := p.2]> e) (g <$> env)
        ((fun p : string * A => (p.1, g p.2)) <$> params) =
  g <$> foldl (fun (e : gmap string A) (p : string * A) => <[p.1 := p.2]> e) env params.
Proof.
  induction params as [|p params IH]; intros env; simpl; [done|].
  rewrite <- IH. by rewrite fmap_insert.
Qed.

(** ** The equality of the second program of arith.ts *)

Module BasicTheory.
Import Basic.

Section Ty_induction.
Variable P : Ty -> Prop.
Hypothesis HBoolean : P Boolean.
Hypothesis HNumber : P Number.
Hypothesis HFunc : forall params retType,
  Forall (fun p : Param => P p.2) params -> P retType -> P (Func params retType).

Fixpoint Ty_ind (t : Ty) : P t :=
  match t with
  | Boolean => HBoolean
  | Number => HNumber
  | Func params retType =>
      HFunc params retType
        ((fix params_ind (ps : list (string * Ty)) : Forall (fun p => P p.2) ps :=
            match ps with
            | [] => Forall_nil_2 _
            | p :: ps' => Forall_cons_2 _ _ _ (Ty_ind p.2) (params_ind ps')
            end) params)
        (Ty_ind retType)
  end.
End Ty_induction.

Section Term_induction.
Variable P : Term -> Prop.
Hypothesis HTrue : P TmTrue.
Hypothesis HFalse : P TmFalse.
Hypothesis HIf : forall cond thn els, P cond -> P thn -> P els -> P (TmIf cond thn els).
Hypothesis HNumber : forall n, P (TmNumber n).
Hypothesis HAdd : forall l r, P l -> P r -> P (TmAdd l r).
Hypothesis HVar : forall name, P (TmVar name).
Hypothesis HFunc : forall params body, P body -> P (TmFunc params body).
Hypothesis HCall : forall func args, P func -> Forall P args -> P (TmCall func args).
Hypothesis HSeq : forall body rest, P body -> P rest -> P (TmSeq body rest).
Hypothesis HConst : forall name init rest, P init -> P rest -> P (TmConst name init rest).

Fixpoint Term_ind (t : Term) : P t :=
  match t with
  | TmTrue => HTrue
  | TmFalse => HFalse
  | TmIf cond thn els => HIf cond thn els (Term_ind cond) (Term_ind thn) (Term_ind els)
  | TmNumber n => HNumber n
  | TmAdd l r => HAdd l r (Term_ind l) (Term_ind r)
  | TmVar name => HVar name
  | TmFunc params body => HFunc params body (Term_ind body)
  | TmCall func args =>
      HCall func args (Term_ind func)
        ((fix args_ind (l : list Term) : Forall P l :=
            match l with
            | [] => Forall_nil_2 _
            | a :: l' => Forall_cons_2 _ _ _ (Term_ind a) (args_ind l')
            end) args)
  | TmSeq body rest => HSeq body rest (Term_ind body) (Term_ind rest)
  | TmConst name init rest => HConst name init rest (Term_ind init) (Term_ind rest)
  end.
End Term_induction.

(** The type with every parameter name replaced by the empty string. *)
Fixpoint eraseParamNames (t : Ty) : Ty :=
  match t with
  | Boolean | Number => t
  | Func params retType =>
      Func ((fun p : Param => ("", eraseParamNames p.2)) <$> params)
           (eraseParamNames retType)
  end.

Lemma erased_params_eq (params1 params2 : list Param) :
  (fun p : Param => ("", eraseParamNames p.2)) <$> params1 =
  (fun p : Param => ("", eraseParamNames p.2)) <$> params2 <->
  length params1 = length params2 /\
  forall k p1 p2, params1 !! k = Some p1 -> params2 !! k = Some p2 ->
                  eraseParamNames p1.2 = eraseParamNames p2.2.
Proof.
  split.
  - intros H. split.
    + apply (f_equal length) in H. by rewrite !length_fmap in H.
    + intros k p1 p2 H1 H2. apply (f_equal (fun l => l !! k)) in H.
      rewrite !list_lookup_fmap, H1, H2 in H. simpl in H. by injection H.
  - intros [Hl H]. apply list_eq. intros k. rewrite !list_lookup_fmap.
    destruct (params1 !! k) as [p1|] eqn:E1; destruct (params2 !! k) as [p2|] eqn:E2;
      simpl; try done.
    + f_equal. f_equal. by apply (H k).
    + apply lookup_lt_Some in E1. apply lookup_ge_None in E2. lia.
    + apply lookup_lt_Some in E2. apply lookup_ge_None in E1. lia.
Qed.

Lemma typeEq_spec type2 : forall type1,
  exists b, typeEq type1 type2 = Ret b
            /\ (b = true <-> eraseParamNames type1 = eraseParamNames type2).
Proof.
  induction type2 as [| |params2 retType2 IHp IHr] using Ty_ind; intros type1.
  - destruct type1; eexists; (split; [reflexivity|]); simpl; split; done.
  - destruct type1; eexists; (split; [reflexivity|]); simpl; split; done.
  - destruct type1 as [| |params1 retType1];
      try (exists false; split; [reflexivity|]; simpl; split; done).
    cbn [typeEq eraseParamNames].
    destruct (Nat.eqb (length params1) (length params2)) eqn:El; simpl.
    + apply Nat.eqb_eq in El.
      assert (Hparams : exists b,
                forIndex (fun i (p2 : Param) =>
                            match params1 !! i with
                            | Some p1 => typeEq p1.2 p2.2
                            | None => Throw "TypeError: type1.params[i] is undefined"
                            end) 0 params2 = Ret b
                /\ (b = true <->
                    forall k p1 p2, params1 !! k = Some p1 -> params2 !! k = Some p2 ->
                                    eraseParamNames p1.2 = eraseParamNames p2.2)).
      { destruct (forIndex_total
                    (fun i (p2 : Param) =>
                       match params1 !! i with
                       | Some p1 => typeEq p1.2 p2.2
                       | None => Throw "TypeError: type1.params[i] is undefined"
                       end) params2 0) as [b Hb].
        { intros k p2 Hk. simpl. destruct (params1 !! k) as [p1|] eqn:E1.
          - rewrite Forall_forall in IHp.
            destruct (IHp p2 (list_elem_of_lookup_2 _ _ _ Hk) p1.2) as (b & -> & _).
            by exists b.
          - apply lookup_ge_None in E1. apply lookup_lt_Some in Hk. lia. }
        exists b. split; [done|]. split.
        - intros ->. pose proof (proj1 (forIndex_true _ _ _) Hb) as Hb'.
          intros k p1 p2 H1 H2.
          specialize (Hb' k p2 H2). simpl in Hb'. rewrite H1 in Hb'.
          rewrite Forall_forall in IHp.
          destruct (IHp p2 (list_elem_of_lookup_2 _ _ _ H2) p1.2) as (b & Eb & Hiff).
          apply Hiff. congruence.
        - intros H. destruct b; [done|]. exfalso.
          assert (Ht : forIndex (fun i (p2 : Param) =>
                                   match params1 !! i with
                                   | Some p1 => typeEq p1.2 p2.2
                                   | None => Throw "TypeError: type1.params[i] is undefined"
                                   end) 0 params2 = Ret true); [|congruence].
          apply (proj2 (forIndex_true _ _ _)). intros k p2 H2. simpl.
          destruct (params1 !! k) as [p1|] eqn:E1.
          + rewrite Forall_forall in IHp.
            destruct (IHp p2 (list_elem_of_lookup_2 _ _ _ H2) p1.2) as (b & Eb & Hiff).
            rewrite Eb. f_equal. apply Hiff. by apply (H k).
          + apply lookup_ge_None in E1. apply lookup_lt_Some in H2. lia. }
      destruct Hparams as (b & -> & Hb).
      destruct b.
      * destruct (IHr retType1) as (b & -> & Hr). exists b. split; [done|].
        rewrite Hr. split.
        -- intros ->. f_equal. apply erased_params_eq. split; [done|]. by apply Hb.
        -- by intros [= _ ->].
      * exists false. split; [done|]. split; [done|].
        intros [= Hps _]. apply erased_params_eq in Hps as [_ Hps].
        by apply Hb in Hps.
    + exists false. split; [done|]. split; [done|].
      intros [= Hps _]. apply erased_params_eq in Hps as [Hl _].
      apply Nat.eqb_neq in El. done.
Qed.

(** X20 ([typeEq], second program of arith.ts): [typeEq] never throws, and
    it answers [true] exactly when the two types are the same up to the
    names of parameters; it is therefore an equivalence relation. *)
Theorem typeEq_is_equality_up_to_parameter_names (type1 type2 : Ty) :
  (exists b, typeEq type1 type2 = Ret b)
  /\ (typeEq type1 type2 = Ret true <->
      eraseParamNames type1 = eraseParamNames type2).
Proof.
  destruct (typeEq_spec type2 type1) as (b & E & Hiff). split; [by exists b|].
  rewrite E. split.
  - intros [= ->]. by apply Hiff.
  - intros H. f_equal. by apply Hiff.
Qed.

End BasicTheory.

(** ** Each checker extends the one before *)

Module Extension.

(** *** From the first to the second program of arith.ts *)

Definition arithTy (t : Arith.Ty) : Basic.Ty :=
  match t with
  | Arith.Boolean => Basic.Boolean
  | Arith.Number => Basic.Number
  end.

Fixpoint arithTerm (t : Arith.Term) : Basic.Term :=
  match t with
  | Arith.TmTrue => Basic.TmTrue
  | Arith.TmFalse => Basic.TmFalse
  | Arith.TmIf cond thn els => Basic.TmIf (arithTerm cond) (arithTerm thn) (arithTerm els)
  | Arith.TmNumber n => Basic.TmNumber n
  | Arith.TmAdd l r => Basic.TmAdd (arithTerm l) (arithTerm r)
  end.

(** X21 ([typecheck] of both programs of arith.ts): a term of booleans and
    numbers that the first checker accepts is accepted by the second one,
    in any environment, with the same type.  (The second one accepts more:
    it does not ask the condition of an [if] to be a boolean.) *)
Theorem basic_accepts_what_arith_accepts
    (t : Arith.Term) (type : Arith.Ty) (typeEnv : Basic.TypeEnv) :
  Arith.typecheck t = Ret type ->
  Basic.typecheck (arithTerm t) typeEnv = Ret (arithTy type).
Proof.
  revert type. induction t as [| |cond IHc thn IHt els IHe|n|l IHl r IHr];
    intros type H; simpl in *.
  - by injection H as <-.
  - by injection H as <-.
  - destruct (Arith.typecheck cond) as [condType| |]; simpl in H; try discriminate.
    rewrite (IHc condType eq_refl). simpl.
    destruct condType; simpl in H; try discriminate.
    destruct (Arith.typecheck thn) as [thenType| |]; simpl in H; try discriminate.
    rewrite (IHt thenType eq_refl). simpl.
    destruct (Arith.typecheck els) as [elseType| |]; simpl in H; try discriminate.
    rewrite (IHe elseType eq_refl). simpl.
    destruct thenType, elseType; simpl in *; try discriminate; by injection H as <-.
  - by injection H as <-.
  - destruct (Arith.typecheck l) as [leftType| |]; simpl in H; try discriminate.
    rewrite (IHl leftType eq_refl). simpl.
    destruct leftType; simpl in *; try discriminate.
    destruct (Arith.typecheck r) as [rightType| |]; simpl in H; try discriminate.
    rewrite (IHr rightType eq_refl). simpl.
    destruct rightType; simpl in *; try discriminate. by injection H as <-.
Qed.

Lemma basic_accepts_what_arith_accepts_witness :
  Basic.typecheck
    (arithTerm (Arith.TmIf Arith.TmTrue (Arith.TmNumber 42)
                           (Arith.TmAdd (Arith.TmNumber 1) (Arith.TmNumber 2))))
    {["x" := Basic.Boolean]}
  = Ret (arithTy Arith.Number).
Proof.
  apply (basic_accepts_what_arith_accepts
           (Arith.TmIf Arith.TmTrue (Arith.TmNumber 42)
                       (Arith.TmAdd (Arith.TmNumber 1) (Arith.TmNumber 2)))
           Arith.Number {["x" := Basic.Boolean]}).
  reflexivity.
Defined.

Ltac rsimpl :=
  cbn [mbind result_mbind result_bind mapRet fmap option_fmap option_map Nat.add fst snd].

(** *** From the second program of arith.ts to recFunc.ts *)

Fixpoint basicTy (t : Basic.Ty) : RecFunc.Ty :=
  match t with
  | Basic.Boolean => RecFunc.Boolean
  | Basic.Number => RecFunc.Number
  | Basic.Func params retType =>
      RecFunc.Func ((fun p : Basic.Param => (p.1, basicTy p.2)) <$> params)
                   (basicTy retType)
  end.

Fixpoint basicTerm (t : Basic.Term) : RecFunc.Term :=
  match t with
  | Basic.TmTrue => RecFunc.TmTrue
  | Basic.TmFalse => RecFunc.TmFalse
  | Basic.TmIf cond thn els =>
      RecFunc.TmIf (basicTerm cond) (basicTerm thn) (basicTerm els)
  | Basic.TmNumber n => RecFunc.TmNumber n
  | Basic.TmAdd l r => RecFunc.TmAdd (basicTerm l) (basicTerm r)
  | Basic.TmVar name => RecFunc.TmVar name
  | Basic.TmFunc params body =>
      RecFunc.TmFunc ((fun p : Basic.Param => (p.1, basicTy p.2)) <$> params)
                     (basicTerm body)
  | Basic.TmCall func args => RecFunc.TmCall (basicTerm func) (basicTerm <$> args)
  | Basic.TmSeq body rest => RecFunc.TmSeq (basicTerm body) (basicTerm rest)
  | Basic.TmConst name init rest =>
      RecFunc.TmConst name (basicTerm init) (basicTerm rest)
  end.

Lemma basicTy_sameTag a b :
  RecFunc.sameTag (basicTy a) (basicTy b) = Basic.sameTag a b.
Proof. by destruct a, b. Qed.

Lemma basicTy_typeEq b : forall a,
  RecFunc.typeEq (basicTy a) (basicTy b) = Basic.typeEq a b.
Proof.
  induction b as [| |params2 retType2 IHp IHr] using BasicTheory.Ty_ind; intros a.
  - by destruct a.
  - by destruct a.
  - destruct a as [| |params1 retType1]; try done.
    cbn [basicTy RecFunc.typeEq Basic.typeEq]. rewrite !length_fmap.
    destruct (negb _); [done|]. rewrite forIndex_fmap, IHr.
    match goal with |- match ?x with _ => _ end = match ?y with _ => _ end =>
      replace x with y; [done|] end.
    apply forIndex_ext. intros k p2 Hk. simpl. rewrite list_lookup_fmap.
    destruct (params1 !! k) as [p1|]; simpl; [|done].
    rewrite Forall_forall in IHp. symmetry. apply IHp. by eapply list_elem_of_lookup_2.
Qed.

Lemma basic_recFunc_exact t : forall typeEnv : Basic.TypeEnv,
  RecFunc.typecheck (basicTerm t) (basicTy <$> typeEnv) =
  mapRet basicTy (Basic.typecheck t typeEnv).
Proof.
  induction t as [| |cond thn els IHc IHt IHe|n|l r IHl IHr|name|params body IH
                 |func args IHf IHa|body rest IHb IHr|name init rest IHi IHr]
    using BasicTheory.Term_ind; intros env;
    cbn [basicTerm RecFunc.typecheck Basic.typecheck]; unfold error.
  - done.
  - done.
  - rewrite IHc. destruct (Basic.typecheck cond env) as [condType| |]; rsimpl; try done.
    rewrite IHt. destruct (Basic.typecheck thn env) as [thenType| |]; rsimpl; try done.
    rewrite IHe. destruct (Basic.typecheck els env) as [elseType| |]; rsimpl; try done.
    rewrite basicTy_sameTag. by destruct (negb _).
  - done.
  - rewrite IHl. destruct (Basic.typecheck l env) as [leftType| |]; rsimpl; try done.
    change RecFunc.Number with (basicTy Basic.Number). rewrite basicTy_sameTag.
    destruct (negb _); [done|].
    rewrite IHr. destruct (Basic.typecheck r env) as [rightType| |]; rsimpl; try done.
    rewrite basicTy_sameTag. by destruct (negb _).
  - rewrite lookup_fmap. by destruct (env !! name).
  - rewrite (foldl_insert_fmap basicTy params env), IH.
    by destruct (Basic.typecheck body _).
  - rewrite IHf. destruct (Basic.typecheck func env) as [funcType| |]; rsimpl; try done.
    destruct funcType as [| |params retType]; try done.
    cbn [basicTy]. rewrite !length_fmap. destruct (negb _); [done|].
    rewrite forIndexDo_fmap.
    match goal with |- match ?x with _ => _ end = mapRet _ (match ?y with _ => _ end) =>
      replace x with y; [by destruct y|] end.
    apply forIndexDo_ext. intros k arg Hk. rsimpl.
    rewrite Forall_forall in IHa. rewrite (IHa arg (list_elem_of_lookup_2 _ _ _ Hk)).
    destruct (Basic.typecheck arg env) as [argType| |]; rsimpl; try done.
    rewrite list_lookup_fmap. destruct (params !! k) as [p|]; rsimpl; [|done].
    by rewrite basicTy_typeEq.
  - rewrite IHb. destruct (Basic.typecheck body env) as [bodyType| |]; rsimpl; try done.
  - rewrite IHi. destruct (Basic.typecheck init env) as [initType| |]; rsimpl; try done.
    unfold RecFunc.define, RecFunc.clone, Basic.define, Basic.clone.
    rewrite <- fmap_insert. apply IHr.
Qed.

(** X22 ([typecheck], [typeEq] of recFunc.ts and of the second program of
    arith.ts): on a term of the smaller language, in the same environment,
    the checker of recFunc.ts returns the same type as the checker of
    arith.ts, and throws when that one throws. *)
Theorem recFunc_extends_basic (t : Basic.Term) (typeEnv : Basic.TypeEnv) :
  agree basicTy (Basic.typecheck t typeEnv)
        (RecFunc.typecheck (basicTerm t) (basicTy <$> typeEnv)).
Proof. rewrite basic_recFunc_exact. apply agree_mapRet. Qed.

(** *** From the second program of arith.ts to poly.ts *)

Fixpoint polyTy (t : Basic.Ty) : Poly.Ty :=
  match t with
  | Basic.Boolean => Poly.Boolean
  | Basic.Number => Poly.Number
  | Basic.Func params retType =>
      Poly.Func ((fun p : Basic.Param => (p.1, polyTy p.2)) <$> params) (polyTy retType)
  end.

Fixpoint polyTerm (t : Basic.Term) : Poly.Term :=
  match t with
  | Basic.TmTrue => Poly.TmTrue
  | Basic.TmFalse => Poly.TmFalse
  | Basic.TmIf cond thn els => Poly.TmIf (polyTerm cond) (polyTerm thn) (polyTerm els)
  | Basic.TmNumber n => Poly.TmNumber n
  | Basic.TmAdd l r => Poly.TmAdd (polyTerm l) (polyTerm r)
  | Basic.TmVar name => Poly.TmVar name
  | Basic.TmFunc params body =>
      Poly.TmFunc ((fun p : Basic.Param => (p.1, polyTy p.2)) <$> params) (polyTerm body)
  | Basic.TmCall func args => Poly.TmCall (polyTerm func) (polyTerm <$> args)
  | Basic.TmSeq body rest => Poly.TmSeq (polyTerm body) (polyTerm rest)
  | Basic.TmConst name init rest => Poly.TmConst name (polyTerm init) (polyTerm rest)
  end.

Lemma polyTy_sameTag a b : Poly.sameTag (polyTy a) (polyTy b) = Basic.sameTag a b.
Proof. by destruct a, b. Qed.

Lemma polyTy_typeEqRec b : forall a (typeVarMap : Poly.TypeVarMap),
  Poly.typeEqRec (polyTy a) (polyTy b) typeVarMap = Basic.typeEq a b.
Proof.
  induction b as [| |params2 retType2 IHp IHr] using BasicTheory.Ty_ind; intros a m.
  - by destruct a.
  - by destruct a.
  - destruct a as [| |params1 retType1]; try done.
    cbn [polyTy Poly.typeEqRec Basic.typeEq]. rewrite !length_fmap.
    destruct (negb _); [done|]. rewrite forIndex_fmap, IHr.
    match goal with |- match ?x with _ => _ end = match ?y with _ => _ end =>
      replace x with y; [done|] end.
    apply forIndex_ext. intros k p2 Hk. rsimpl. rewrite list_lookup_fmap.
    destruct (params1 !! k) as [p1|]; rsimpl; [|done].
    rewrite Forall_forall in IHp. symmetry. apply IHp. by eapply list_elem_of_lookup_2.
Qed.

Lemma basic_poly_exact t : forall (typeEnv : Basic.TypeEnv) (typeVarNames : list string),
  Poly.typecheck (polyTerm t) (polyTy <$> typeEnv) typeVarNames =
  mapRet polyTy (Basic.typecheck t typeEnv).
Proof.
  induction t as [| |cond thn els IHc IHt IHe|n|l r IHl IHr|name|params body IH
                 |func args IHf IHa|body rest IHb IHr|name init rest IHi IHr]
    using BasicTheory.Term_ind; intros env tvn;
    cbn [polyTerm Poly.typecheck Basic.typecheck]; unfold error.
  - done.
  - done.
  - rewrite IHc. destruct (Basic.typecheck cond env) as [condType| |]; rsimpl; try done.
    rewrite IHt. destruct (Basic.typecheck thn env) as [thenType| |]; rsimpl; try done.
    rewrite IHe. destruct (Basic.typecheck els env) as [elseType| |]; rsimpl; try done.
    rewrite polyTy_sameTag. by destruct (negb _).
  - done.
  - rewrite IHl. destruct (Basic.typecheck l env) as [leftType| |]; rsimpl; try done.
    change Poly.Number with (polyTy Basic.Number). rewrite polyTy_sameTag.
    destruct (negb _); [done|].
    rewrite IHr. destruct (Basic.typecheck r env) as [rightType| |]; rsimpl; try done.
    rewrite polyTy_sameTag. by destruct (negb _).
  - rewrite lookup_fmap. by destruct (env !! name).
  - rewrite (foldl_insert_fmap polyTy params env), IH.
    by destruct (Basic.typecheck body _).
  - rewrite IHf. destruct (Basic.typecheck func env) as [funcType| |]; rsimpl; try done.
    destruct funcType as [| |params retType]; try done.
    cbn [polyTy]. rewrite !length_fmap. destruct (negb _); [done|].
    rewrite forIndexDo_fmap.
    match goal with |- match ?x with _ => _ end = mapRet _ (match ?y with _ => _ end) =>
      replace x with y; [by destruct y|] end.
    apply forIndexDo_ext. intros k arg Hk. rsimpl.
    rewrite Forall_forall in IHa. rewrite (IHa arg (list_elem_of_lookup_2 _ _ _ Hk)).
    destruct (Basic.typecheck arg env) as [argType| |]; rsimpl; try done.
    rewrite list_lookup_fmap. destruct (params !! k) as [p|]; rsimpl; [|done].
    unfold Poly.typeEq. by rewrite polyTy_typeEqRec.
  - rewrite IHb. destruct (Basic.typecheck body env) as [bodyType| |]; rsimpl; try done.
  - rewrite IHi. destruct (Basic.typecheck init env) as [initType| |]; rsimpl; try done.
    unfold Poly.define, Poly.clone, Basic.define, Basic.clone.
    rewrite <- fmap_insert. apply IHr.
Qed.

(** X23 ([typecheck], [typeEq], [typeEqRec] of poly.ts and [typecheck],
    [typeEq] of the second program of arith.ts): on a term without type
    abstraction and type application, whatever the list of type variables
    in scope, the checker of poly.ts returns the same type as the checker
    of arith.ts, and throws when that one throws. *)
Theorem poly_extends_basic
    (t : Basic.Term) (typeEnv : Basic.TypeEnv) (typeVarNames : list string) :
  agree polyTy (Basic.typecheck t typeEnv)
        (Poly.typecheck (polyTerm t) (polyTy <$> typeEnv) typeVarNames).
Proof. rewrite basic_poly_exact. apply agree_mapRet. Qed.

(** *** From recFunc.ts to rec.ts *)

Section RecFunc_induction.
Variable P : RecFunc.Ty -> Prop.
Hypothesis HBoolean : P RecFunc.Boolean.
Hypothesis HNumber : P RecFunc.Number.
Hypothesis HFunc : forall params retType,
  Forall (fun p : RecFunc.Param => P p.2) params -> P retType ->
  P (RecFunc.Func params retType).
Hypothesis HObject : forall props,
  Forall (fun p : RecFunc.PropertyType => P p.2) props -> P (RecFunc.Object props).

End RecFunc_induction.

Section RecFunc_Term_induction.
Variable P : RecFunc.Term -> Prop.
Hypothesis HTrue : P RecFunc.TmTrue.
Hypothesis HFalse : P RecFunc.TmFalse.
Hypothesis HIf : forall cond thn els,
  P cond -> P thn -> P els -> P (RecFunc.TmIf cond thn els).
Hypothesis HNumber : forall n, P (RecFunc.TmNumber n).
Hypothesis HAdd : forall l r, P l -> P r -> P (RecFunc.TmAdd l r).
Hypothesis HVar : forall name, P (RecFunc.TmVar name).
Hypothesis HFunc : forall params body, P body -> P (RecFunc.TmFunc params body).
Hypothesis HCall : forall func args, P func -> Forall P args -> P (RecFunc.TmCall func args).
Hypothesis HSeq : forall body rest, P body -> P rest -> P (RecFunc.TmSeq body rest).
Hypothesis HConst : forall name init rest,
  P init -> P rest -> P (RecFunc.TmConst name init rest).
Hypothesis HRecFunc : forall funcName params retType body rest,
  P body -> P rest -> P (RecFunc.TmRecFunc funcName params retType body rest).

End RecFunc_Term_induction.


















End Extension.

(** ** Declarations that update the environment in place (part_001) *)

Module Basic2Theory.
Import Basic2.

Section Term_induction.
Variable P : Term -> Prop.
Hypothesis HTrue : P TmTrue.
Hypothesis HFalse : P TmFalse.
Hypothesis HIf : forall cond thn els, P cond -> P thn -> P els -> P (TmIf cond thn els).
Hypothesis HNumber : forall n, P (TmNumber n).
Hypothesis HAdd : forall l r, P l -> P r -> P (TmAdd l r).
Hypothesis HVar : forall name, P (TmVar name).
Hypothesis HFunc : forall params body, P body -> P (TmFunc params body).
Hypothesis HCall : forall func args, P func -> Forall P args -> P (TmCall func args).
Hypothesis HSeq2 : forall body, Forall P body -> P (TmSeq2 body).
Hypothesis HConst2 : forall name init, P init -> P (TmConst2 name init).

Fixpoint Term_ind (t : Term) : P t :=
  match t with
  | TmTrue => HTrue
  | TmFalse => HFalse
  | TmIf cond thn els => HIf cond thn els (Term_ind cond) (Term_ind thn) (Term_ind els)
  | TmNumber n => HNumber n
  | TmAdd l r => HAdd l r (Term_ind l) (Term_ind r)
  | TmVar name => HVar name
  | TmFunc params body => HFunc params body (Term_ind body)
  | TmCall func args =>
      HCall func args (Term_ind func)
        ((fix args_ind (l : list Term) : Forall P l :=
            match l with
            | [] => Forall_nil_2 _
            | a :: l' => Forall_cons_2 _ _ _ (Term_ind a) (args_ind l')
            end) args)
  | TmSeq2 body =>
      HSeq2 body
        ((fix body_ind (l : list Term) : Forall P l :=
            match l with
            | [] => Forall_nil_2 _
            | a :: l' => Forall_cons_2 _ _ _ (Term_ind a) (body_ind l')
            end) body)
  | TmConst2 name init => HConst2 name init (Term_ind init)
  end.
End Term_induction.

(** The names that the [const2] terms of [t] declare in the environment
    [t] is checked in, in the order of the checks: those that are not
    inside a [func] or a [seq2], which work on a copy. *)
Fixpoint declared (t : Term) : list string :=
  match t with
  | TmTrue | TmFalse | TmNumber _ | TmVar _ => []
  | TmIf cond thn els => declared cond ++ declared thn ++ declared els
  | TmAdd l r => declared l ++ declared r
  | TmFunc _ _ => []
  | TmCall func args => declared func ++ flat_map declared args
  | TmSeq2 _ => []
  | TmConst2 name init => declared init ++ [name]
  end.

(** [defineMut] applied to each declaration in turn. *)
Definition defineAll (typeEnv : TypeEnv) (ds : list (string * Ty)) : TypeEnv :=
  foldl (fun (e : TypeEnv) (d : string * Ty) => defineMut e d.1 d.2) typeEnv ds.

Lemma defineAll_app typeEnv ds1 ds2 :
  defineAll typeEnv (ds1 ++ ds2) = defineAll (defineAll typeEnv ds1) ds2.
Proof. apply foldl_app. Qed.

Lemma defineAll_lookup_other ds : forall (typeEnv : TypeEnv) x,
  x ∉ ds.*1 -> defineAll typeEnv ds !! x = typeEnv !! x.
Proof.
  induction ds as [|d ds IH]; intros env x H; simpl; [done|].
  rewrite fmap_cons in H. apply not_elem_of_cons in H as [Hne H].
  unfold defineAll in IH. rewrite IH by done. unfold defineMut.
  by rewrite lookup_insert_ne.
Qed.

Lemma typecheck_declares t : forall typeEnv type typeEnv',
  typecheck t typeEnv = Ret (type, typeEnv') ->
  exists ds, ds.*1 = declared t /\ typeEnv' = defineAll typeEnv ds.
Proof.
  induction t as [| |cond thn els IHc IHt IHe|n|l r IHl IHr|name|params body IH
                 |func args IHf IHa|body IHb|name init IH]
    using Term_ind; intros env T env' H; cbn [typecheck] in H; cbn [declared];
    unfold error in H.
  - injection H as <- <-. by exists [].
  - injection H as <- <-. by exists [].
  - destruct (typecheck cond env) as [[condType env1]| |] eqn:Ec; simpl in H;
      try discriminate.
    destruct (typecheck thn env1) as [[thenType env2]| |] eqn:Et; simpl in H;
      try discriminate.
    destruct (typecheck els env2) as [[elseType env3]| |] eqn:Ee; simpl in H;
      try discriminate.
    destruct (negb _); [discriminate|]. injection H as <- <-.
    destruct (IHc _ _ _ Ec) as (ds1 & H1 & ->).
    destruct (IHt _ _ _ Et) as (ds2 & H2 & ->).
    destruct (IHe _ _ _ Ee) as (ds3 & H3 & ->).
    exists (ds1 ++ ds2 ++ ds3). split.
    + by rewrite !fmap_app, H1, H2, H3.
    + by rewrite !defineAll_app.
  - injection H as <- <-. by exists [].
  - destruct (typecheck l env) as [[leftType env1]| |] eqn:El; simpl in H;
      try discriminate.
    destruct (negb _); [discriminate|].
    destruct (typecheck r env1) as [[rightType env2]| |] eqn:Er; simpl in H;
      try discriminate.
    destruct (negb _); [discriminate|]. injection H as <- <-.
    destruct (IHl _ _ _ El) as (ds1 & H1 & ->).
    destruct (IHr _ _ _ Er) as (ds2 & H2 & ->).
    exists (ds1 ++ ds2). split.
    + by rewrite !fmap_app, H1, H2.
    + by rewrite !defineAll_app.
  - destruct (env !! name); [|discriminate]. injection H as <- <-. by exists [].
  - destruct (typecheck body _) as [[retType env1]| |]; simpl in H; try discriminate.
    injection H as <- <-. by exists [].
  - destruct (typecheck func env) as [[funcType env1]| |] eqn:Ef; simpl in H;
      try discriminate.
    destruct funcType as [| |params retType]; try discriminate.
    destruct (negb _); [discriminate|].
    match type of H with context [forIndexState ?f 0 args env1] =>
      destruct (forIndexState f 0 args env1) as [env2| |] eqn:Eloop end;
      simpl in H; try discriminate.
    injection H as <- <-.
    destruct (IHf _ _ _ Ef) as (ds1 & H1 & ->).
    assert (Hargs : exists ds2, ds2.*1 = flat_map declared args
                                /\ env2 = defineAll (defineAll env ds1) ds2).
    { clear -Eloop IHa. revert Eloop. generalize (defineAll env ds1). generalize 0.
      induction args as [|arg args IHargs]; intros i e Eloop; simpl in Eloop.
      - injection Eloop as <-. by exists [].
      - apply Forall_cons in IHa as [Harg Hrest].
        destruct (typecheck arg e) as [[argType e1]| |] eqn:Ea; simpl in Eloop;
          try discriminate.
        destruct (params !! i) as [p|]; [|discriminate].
        destruct (typeEq argType p.2) as [[]| |]; simpl in Eloop; try discriminate.
        destruct (Harg _ _ _ Ea) as (da & Ha & ->).
        destruct (IHargs Hrest _ _ Eloop) as (dr & Hr & ->).
        exists (da ++ dr). split.
        + simpl. by rewrite fmap_app, Ha, Hr.
        + by rewrite defineAll_app. }
    destruct Hargs as (ds2 & H2 & ->).
    exists (ds1 ++ ds2). split.
    + by rewrite fmap_app, H1, H2.
    + by rewrite defineAll_app.
  - match type of H with context [foldResult ?f ?s body] =>
      destruct (foldResult f s body) as [[result env1]| |] end;
      simpl in H; try discriminate.
    destruct result; [|discriminate]. injection H as <- <-. by exists [].
  - destruct (typecheck init env) as [[initType env1]| |] eqn:Ei; simpl in H;
      try discriminate.
    injection H as <- <-.
    destruct (IH _ _ _ Ei) as (ds1 & H1 & ->).
    exists (ds1 ++ [(name, initType)]). split.
    + by rewrite fmap_app, H1.
    + by rewrite defineAll_app.
Qed.

(** X25 ([typecheck], [TypeEnv.defineMut], [TypeEnv.clone], part_001): when
    [typecheck] returns, it has changed the environment object it was given
    by exactly the [const2] declarations of the term that are not inside a
    [func] or a [seq2], in the order of the checks; every other name keeps
    its entry, and a [func] or a [seq2] leaves the object as it was. *)
Theorem typecheck_updates_only_declared_names
    (t : Term) (typeEnv typeEnv' : TypeEnv) (type : Ty) :
  typecheck t typeEnv = Ret (type, typeEnv') ->
  (exists ds, ds.*1 = declared t /\ typeEnv' = defineAll typeEnv ds)
  /\ (forall x, x ∉ declared t -> typeEnv' !! x = typeEnv !! x)
  /\ ((exists params body, t = TmFunc params body) \/ (exists body, t = TmSeq2 body) ->
      typeEnv' = typeEnv).
Proof.
  intros H. destruct (typecheck_declares t _ _ _ H) as (ds & Hds & ->).
  split; [by exists ds|]. split.
  - intros x Hx. apply defineAll_lookup_other. by rewrite Hds.
  - intros [(params & body & ->)|(body & ->)]; simpl in Hds;
      apply fmap_nil_inv in Hds as ->; done.
Qed.

Lemma typecheck_updates_only_declared_names_witness :
  (exists ds,
     ds.*1 = declared (TmAdd (TmConst2 "x" (TmNumber 1))
                             (TmSeq2 [TmConst2 "y" TmTrue; TmVar "x"]))
     /\ ({["x" := Number]} : TypeEnv) = defineAll ∅ ds)
  /\ (forall x,
        x ∉ declared (TmAdd (TmConst2 "x" (TmNumber 1))
                            (TmSeq2 [TmConst2 "y" TmTrue; TmVar "x"])) ->
        ({["x" := Number]} : TypeEnv) !! x = (∅ : TypeEnv) !! x)
  /\ ((exists params body,
         TmAdd (TmConst2 "x" (TmNumber 1)) (TmSeq2 [TmConst2 "y" TmTrue; TmVar "x"])
         = TmFunc params body)
      \/ (exists body,
            TmAdd (TmConst2 "x" (TmNumber 1)) (TmSeq2 [TmConst2 "y" TmTrue; TmVar "x"])
            = TmSeq2 body) ->
      ({["x" := Number]} : TypeEnv) = ∅).
Proof.
  apply (typecheck_updates_only_declared_names
           (TmAdd (TmConst2 "x" (TmNumber 1)) (TmSeq2 [TmConst2 "y" TmTrue; TmVar "x"]))
           ∅ {["x" := Number]} Number).
  reflexivity.
Defined.

(** *** [seq] and [const] written with [seq2] and [const2] *)

Fixpoint basic2Ty (t : Basic.Ty) : Ty :=
  match t with
  | Basic.Boolean => Boolean
  | Basic.Number => Number
  | Basic.Func params retType =>
      Func ((fun p : Basic.Param => (p.1, basic2Ty p.2)) <$> params) (basic2Ty retType)
  end.

(** [body; rest] is the sequence of the two terms, [const name = init; rest]
    the sequence of the declaration and [rest]. *)
Fixpoint basic2Term (t : Basic.Term) : Term :=
  match t with
  | Basic.TmTrue => TmTrue
  | Basic.TmFalse => TmFalse
  | Basic.TmIf cond thn els => TmIf (basic2Term cond) (basic2Term thn) (basic2Term els)
  | Basic.TmNumber n => TmNumber n
  | Basic.TmAdd l r => TmAdd (basic2Term l) (basic2Term r)
  | Basic.TmVar name => TmVar name
  | Basic.TmFunc params body =>
      TmFunc ((fun p : Basic.Param => (p.1, basic2Ty p.2)) <$> params) (basic2Term body)
  | Basic.TmCall func args => TmCall (basic2Term func) (basic2Term <$> args)
  | Basic.TmSeq body rest => TmSeq2 [basic2Term body; basic2Term rest]
  | Basic.TmConst name init rest =>
      TmSeq2 [TmConst2 name (basic2Term init); basic2Term rest]
  end.

Lemma basic2Ty_sameTag a b : sameTag (basic2Ty a) (basic2Ty b) = Basic.sameTag a b.
Proof. by destruct a, b. Qed.

Lemma basic2Ty_typeEq b : forall a,
  typeEq (basic2Ty a) (basic2Ty b) = Basic.typeEq a b.
Proof.
  induction b as [| |params2 retType2 IHp IHr] using BasicTheory.Ty_ind; intros a.
  - by destruct a.
  - by destruct a.
  - destruct a as [| |params1 retType1]; try done.
    cbn [basic2Ty typeEq Basic.typeEq]. rewrite !length_fmap.
    destruct (negb _); [done|]. rewrite forIndex_fmap, IHr.
    match goal with |- match ?x with _ => _ end = match ?y with _ => _ end =>
      replace x with y; [done|] end.
    apply forIndex_ext. intros k p2 Hk. simpl. rewrite list_lookup_fmap.
    destruct (params1 !! k) as [p1|]; simpl; [|done].
    rewrite Forall_forall in IHp. symmetry. apply IHp. by eapply list_elem_of_lookup_2.
Qed.

Lemma forIndexState_unchanged {A St : Type} (f : nat -> A -> St -> result St)
    (g : nat -> A -> result unit) (l : list A) (s : St) :
  forall i,
  (forall k x, l !! k = Some x ->
     f (i + k) x s = mapRet (fun _ => s) (g (i + k) x)) ->
  forIndexState f i l s = mapRet (fun _ => s) (forIndexDo g i l).
Proof.
  induction l as [|x l IH]; intros i H; simpl; [done|].
  pose proof (H 0 x eq_refl) as H0. rewrite Nat.add_0_r in H0. rewrite H0.
  destruct (g i x); simpl; try done. apply IH. intros k y Hk.
  replace (S i + k) with (i + S k) by lia. by apply H.
Qed.

Lemma basic_basic2_exact t : forall typeEnv : Basic.TypeEnv,
  typecheck (basic2Term t) (basic2Ty <$> typeEnv) =
  mapRet (fun type => (basic2Ty type, basic2Ty <$> typeEnv)) (Basic.typecheck t typeEnv).
Proof.
  induction t as [| |cond thn els IHc IHt IHe|n|l r IHl IHr|name|params body IH
                 |func args IHf IHa|body rest IHb IHr|name init rest IHi IHr]
    using BasicTheory.Term_ind; intros env;
    cbn [basic2Term typecheck Basic.typecheck]; unfold error.
  - done.
  - done.
  - rewrite IHc. destruct (Basic.typecheck cond env) as [condType| |]; simpl; try done.
    rewrite IHt. destruct (Basic.typecheck thn env) as [thenType| |]; simpl; try done.
    rewrite IHe. destruct (Basic.typecheck els env) as [elseType| |]; simpl; try done.
    rewrite basic2Ty_sameTag. by destruct (negb _).
  - done.
  - rewrite IHl. destruct (Basic.typecheck l env) as [leftType| |]; simpl; try done.
    change Number with (basic2Ty Basic.Number). rewrite basic2Ty_sameTag.
    destruct (negb _); [done|].
    rewrite IHr. destruct (Basic.typecheck r env) as [rightType| |]; simpl; try done.
    change Number with (basic2Ty Basic.Number). rewrite basic2Ty_sameTag.
    by destruct (negb _).
  - rewrite lookup_fmap. by destruct (env !! name).
  - rewrite (foldl_insert_fmap basic2Ty params env), IH.
    by destruct (Basic.typecheck body _).
  - rewrite IHf. destruct (Basic.typecheck func env) as [funcType| |]; simpl; try done.
    destruct funcType as [| |params retType]; try done.
    cbn [basic2Ty]. rewrite !length_fmap. destruct (negb _); [done|].
    rewrite (forIndexState_unchanged _
               (fun i (arg : Term) =>
                  r ← typecheck arg (basic2Ty <$> env);
                  match ((fun p : Basic.Param => (p.1, basic2Ty p.2)) <$> params) !! i with
                  | Some p =>
                      same ← typeEq r.1 p.2;
                      if negb same then Throw "argument type mismatch" else Ret tt
                  | None => Throw "TypeError: funcType.params[i] is undefined"
                  end)).
    + rewrite forIndexDo_fmap.
      match goal with
      | |- mapRet _ (forIndexDo ?f 0 args) ≫= _ =
           mapRet _ (match forIndexDo ?g 0 args with _ => _ end) =>
          replace (forIndexDo f 0 args) with (forIndexDo g 0 args);
          [by destruct (forIndexDo g 0 args)|]
      end.
      apply forIndexDo_ext. intros k arg Hk. simpl.
      rewrite Forall_forall in IHa. rewrite (IHa arg (list_elem_of_lookup_2 _ _ _ Hk)).
      destruct (Basic.typecheck arg env) as [argType| |]; simpl; try done.
      rewrite list_lookup_fmap. destruct (params !! k) as [p|]; simpl; [|done].
      by rewrite basic2Ty_typeEq.
    + intros k arg Hk. simpl.
      apply list_elem_of_lookup_2, list_elem_of_fmap in Hk as (a & -> & Ha).
      rewrite Forall_forall in IHa. rewrite (IHa a Ha).
      destruct (Basic.typecheck a env) as [argType| |]; simpl; try done.
      destruct (_ !! k) as [p|]; simpl; [|done].
      destruct (typeEq (basic2Ty argType) p.2) as [[]| |]; done.
  - unfold clone. simpl. rewrite IHb.
    destruct (Basic.typecheck body env) as [bodyType| |]; simpl; try done.
    rewrite IHr. by destruct (Basic.typecheck rest env).
  - unfold clone. simpl. rewrite IHi.
    destruct (Basic.typecheck init env) as [initType| |]; simpl; try done.
    unfold defineMut, Basic.define, Basic.clone. rewrite <- fmap_insert, IHr.
    by destruct (Basic.typecheck rest _).
Qed.

(** X26 ([typecheck] of part_001 and of the second program of arith.ts): a
    program written with [seq] and [const], rewritten with [seq2] and
    [const2] (a sequence of the declaration and the rest), gets from the
    checker of part_001 the type the checker of arith.ts gives it, or an
    exception when that one throws; and the environment object is left as
    it was. *)
Theorem basic2_extends_basic (t : Basic.Term) (typeEnv : Basic.TypeEnv) :
  agree (fun type => (basic2Ty type, basic2Ty <$> typeEnv))
        (Basic.typecheck t typeEnv)
        (typecheck (basic2Term t) (basic2Ty <$> typeEnv)).
Proof. rewrite basic_basic2_exact. apply agree_mapRet. Qed.

End Basic2Theory.
